(** * Connection negotiation of the jam swarm

    A shallow embedding of the peer-connection module held in
    src/ui/logic/backend.js (from line 217 on): [newConnection],
    [connectPeer], [handleSignal], [createPeer] with the [signal],
    [connect], [track], [error], [iceStateChange] and [close] callbacks
    it wires, [timeoutPeer], [addToTimeout], [stopTimeout],
    [handlePeerSuccess], [handlePeerFail], [addPeerMetaData],
    [addStreamToPeer], [deathPing], [ping], [handlePing], [handlePong]
    and [Resolvable].

    The module is single-threaded and event driven.  Every function is
    embedded as a transformer of a [World]: the Connection object under
    study, the heap of transport instances it has created, the browser's
    timer table, the module-level ping registry, the promises returned by
    [ping] with the microtask queue of their reactions, and what is handed
    to the outside (relay broadcasts, swarm events).

    Conventions.  [Date.now()] reads the world's clock, which moves only
    between two handlers.  Timestamps and delays are integers.  Peer and
    attempt identifiers are ASCII strings, compared the way JavaScript
    compares strings.  The transport library is a collaborator: [destroy]
    sets [destroyed], [signal] is recorded on the instance, and the events
    it emits are turns of the loop that the environment may take at any
    time; whether its [addStream] returns or throws is an input of
    [addStreamToPeer], and the calls made on it are part of the result.
    A media stream is identified with its [id].  The [track] callback is
    embedded as the array it stores in [swarm.remoteStreams]; the events
    it emits on the swarm, the [data] callback and the diagnostics
    ([log], [console.warn], [console.error]) play no part in the
    properties below and are left out. *)

From Stdlib Require Import ZArith String List Bool Lia.
From stdpp Require Import gmap strings list fin_maps.

Open Scope Z_scope.

(** ** JavaScript operators used by the module *)

Module JS.

(** [a > b] on two strings: code units compared from the left. *)
Definition gt (a b : string) : bool :=
  match String.compare a b with
  | Gt => true
  | _ => false
  end.

(** [a === b] on two strings. *)
Definition seq (a b : string) : bool := String.eqb a b.

(** Truthiness of a number-or-undefined slot: [undefined], [null] and
    [0] are falsy. *)
Definition truthy_num (x : option Z) : bool :=
  match x with
  | Some v => negb (v =? 0)
  | None => false
  end.

(** Truthiness of a string-or-undefined slot: [undefined] and the empty
    string are falsy. *)
Definition truthy_str (x : option string) : bool :=
  match x with
  | Some s => negb (String.eqb s "")
  | None => false
  end.

(** [x || d] where [x] is a number-or-undefined slot. *)
Definition or_num (x : option Z) (d : Z) : Z :=
  match x with
  | Some v => if v =? 0 then d else v
  | None => d
  end.

(** [a !== b] on string-or-undefined values. *)
Definition sne (a b : option string) : bool :=
  match a, b with
  | Some x, Some y => negb (String.eqb x y)
  | None, None => false
  | _, _ => true
  end.

End JS.

(** ** Constants *)

Definition MAX_CONNECT_TIME : Z := 6000.
Definition MAX_CONNECT_TIME_AFTER_ICE_DISCONNECT : Z := 2000.
Definition MIN_MAX_CONNECT_TIME_AFTER_SIGNAL : Z := 2000.
Definition MAX_FAIL_TIME : Z := 20000.
Definition MAX_PING_TIME : Z := 5000.

(** ** Data *)

(** Identities and attempt ids are strings; a stream stands for its id;
    object references and timer handles are numbers. *)
Abbreviation PeerId := string (only parsing).
Abbreviation ConnId := string (only parsing).
Abbreviation Stream := string (only parsing).
Abbreviation PeerRef := nat (only parsing).
Abbreviation TimerId := nat (only parsing).
Abbreviation PromiseRef := nat (only parsing).

(** [data.meta] as the sender builds it: [{remoteStreamIds}]. *)
Record Meta := { remoteStreamIds : list (string * string) }.

(** The [data] of a [signal] message.  [youStart], [first] and [from] are
    the tags the module reads; [type] and [payload] stand for the
    negotiation payload the transport consumes. *)
Record SignalData := {
  youStart : bool;
  first : bool;
  from : option string;
  meta : option Meta;
  type : string;
  payload : string
}.

(** [{state: sharedState, time: sharedStateTime}] *)
Record StateStamp := { state : string; time : Z }.

Inductive Message :=
| MsgSignal (yourConnId : ConnId) (stamp : option StateStamp) (data : SignalData)
| MsgPing (yourConnId : ConnId) (id : nat)
| MsgPong (yourConnId : ConnId) (id : nat).

(** The swarm fields the module reads. *)
Record Swarm := {
  myPeerId : PeerId;
  myConnId : ConnId;
  sharedState : string;
  sharedStateTime : Z;
  localStreams : list (string * option Stream);
  pcConfig : option string
}.

(** A transport instance: the [SimplePeer] object with the properties the
    module hangs on it.  [signalled] collects the arguments of
    [peer.signal(data)]. *)
Record Peer := {
  initiator : bool;
  config : option string;
  trickle : bool;
  ctorStreams : list Stream;
  peer_peerId : PeerId;
  peer_connId : ConnId;
  streams : list (string * option Stream);
  connectStart : Z;
  didSignal : bool;
  garbage : bool;
  destroyed : bool;
  peer_from : option string;
  peer_remoteStreamIds : option (list (string * string));
  signalled : list SignalData
}.

(** [{swarm, peerId, connId, lastFailure, pc, timeout, timeoutEnd,
    timeoutMessage}]; the swarm is the world's. *)
Record Connection := {
  peerId : PeerId;
  connId : ConnId;
  lastFailure : option Z;
  pc : option PeerRef;
  timeout : option TimerId;
  timeoutEnd : option Z;
  timeoutMessage : option string
}.

(** What a pending timer runs when it fires: the closure armed by
    [timeoutPeer], or the closure armed by [ping] for one probe. *)
Inductive TimerAction :=
| DeadlineFired
| PingExpired (id : nat) (promise : PromiseRef).

Record Timer := { fireAt : Z; action : TimerAction }.

(** The one [then] callback the module registers: the one of [deathPing]. *)
Inductive Reaction := DeathPingThen.

(** A [Resolvable()] with its [start]; [settled = None] while pending,
    [Some None] once resolved with [undefined], [Some (Some ms)] once
    resolved with a number. *)
Record Promise := {
  start : Z;
  settled : option (option Z);
  reactions : list Reaction
}.

Inductive Event := FailedConnection.

(** Trace of the calls the properties speak about: every entry into
    [handlePeerSuccess] and [handlePeerFail], and every [destroy()] with
    the value of the receiver's [garbage] flag at the call. *)
Inductive Call :=
| CallSuccess
| CallFail (forced : bool)
| CallDestroy (peer : PeerRef) (garbageAtCall : bool).

Record World := {
  clock : Z;
  swarm : Swarm;
  connection : Connection;
  heap : list Peer;
  timers : gmap nat Timer;
  nextTimer : TimerId;
  pingCount : nat;
  pings : gmap nat PromiseRef;
  promises : list Promise;
  microtasks : list (Reaction * option Z);
  outbox : list (PeerId * Message);
  emitted : list Event;
  calls : list Call
}.

(** ** Field updates *)

Definition set_lastFailure (v : option Z) (c : Connection) : Connection :=
  {| peerId := peerId c; connId := connId c; lastFailure := v; pc := pc c;
     timeout := timeout c; timeoutEnd := timeoutEnd c;
     timeoutMessage := timeoutMessage c |}.

Definition set_pc (v : option PeerRef) (c : Connection) : Connection :=
  {| peerId := peerId c; connId := connId c; lastFailure := lastFailure c;
     pc := v; timeout := timeout c; timeoutEnd := timeoutEnd c;
     timeoutMessage := timeoutMessage c |}.

Definition set_timeout (v : option TimerId) (c : Connection) : Connection :=
  {| peerId := peerId c; connId := connId c; lastFailure := lastFailure c;
     pc := pc c; timeout := v; timeoutEnd := timeoutEnd c;
     timeoutMessage := timeoutMessage c |}.

Definition set_timeoutEnd (v : option Z) (c : Connection) : Connection :=
  {| peerId := peerId c; connId := connId c; lastFailure := lastFailure c;
     pc := pc c; timeout := timeout c; timeoutEnd := v;
     timeoutMessage := timeoutMessage c |}.

Definition set_timeoutMessage (v : option string) (c : Connection) : Connection :=
  {| peerId := peerId c; connId := connId c; lastFailure := lastFailure c;
     pc := pc c; timeout := timeout c; timeoutEnd := timeoutEnd c;
     timeoutMessage := v |}.

Definition set_garbage (v : bool) (p : Peer) : Peer :=
  {| initiator := initiator p; config := config p; trickle := trickle p;
     ctorStreams := ctorStreams p; peer_peerId := peer_peerId p;
     peer_connId := peer_connId p; streams := streams p;
     connectStart := connectStart p; didSignal := didSignal p;
     garbage := v; destroyed := destroyed p; peer_from := peer_from p;
     peer_remoteStreamIds := peer_remoteStreamIds p;
     signalled := signalled p |}.

Definition set_destroyed (v : bool) (p : Peer) : Peer :=
  {| initiator := initiator p; config := config p; trickle := trickle p;
     ctorStreams := ctorStreams p; peer_peerId := peer_peerId p;
     peer_connId := peer_connId p; streams := streams p;
     connectStart := connectStart p; didSignal := didSignal p;
     garbage := garbage p; destroyed := v; peer_from := peer_from p;
     peer_remoteStreamIds := peer_remoteStreamIds p;
     signalled := signalled p |}.

Definition set_peer_from (v : option string) (p : Peer) : Peer :=
  {| initiator := initiator p; config := config p; trickle := trickle p;
     ctorStreams := ctorStreams p; peer_peerId := peer_peerId p;
     peer_connId := peer_connId p; streams := streams p;
     connectStart := connectStart p; didSignal := didSignal p;
     garbage := garbage p; destroyed := destroyed p; peer_from := v;
     peer_remoteStreamIds := peer_remoteStreamIds p;
     signalled := signalled p |}.

Definition set_peer_remoteStreamIds (v : option (list (string * string)))
    (p : Peer) : Peer :=
  {| initiator := initiator p; config := config p; trickle := trickle p;
     ctorStreams := ctorStreams p; peer_peerId := peer_peerId p;
     peer_connId := peer_connId p; streams := streams p;
     connectStart := connectStart p; didSignal := didSignal p;
     garbage := garbage p; destroyed := destroyed p; peer_from := peer_from p;
     peer_remoteStreamIds := v; signalled := signalled p |}.

Definition push_signalled (d : SignalData) (p : Peer) : Peer :=
  {| initiator := initiator p; config := config p; trickle := trickle p;
     ctorStreams := ctorStreams p; peer_peerId := peer_peerId p;
     peer_connId := peer_connId p; streams := streams p;
     connectStart := connectStart p; didSignal := didSignal p;
     garbage := garbage p; destroyed := destroyed p; peer_from := peer_from p;
     peer_remoteStreamIds := peer_remoteStreamIds p;
     signalled := signalled p ++ [d] |}.

Definition set_settled (v : option (option Z)) (p : Promise) : Promise :=
  {| start := start p; settled := v; reactions := reactions p |}.

Definition add_reaction (r : Reaction) (p : Promise) : Promise :=
  {| start := start p; settled := settled p; reactions := reactions p ++ [r] |}.

Definition set_clock (v : Z) (w : World) : World :=
  {| clock := v; swarm := swarm w; connection := connection w; heap := heap w;
     timers := timers w; nextTimer := nextTimer w; pingCount := pingCount w;
     pings := pings w; promises := promises w; microtasks := microtasks w;
     outbox := outbox w; emitted := emitted w; calls := calls w |}.

Definition set_connection (v : Connection) (w : World) : World :=
  {| clock := clock w; swarm := swarm w; connection := v; heap := heap w;
     timers := timers w; nextTimer := nextTimer w; pingCount := pingCount w;
     pings := pings w; promises := promises w; microtasks := microtasks w;
     outbox := outbox w; emitted := emitted w; calls := calls w |}.

Definition set_heap (v : list Peer) (w : World) : World :=
  {| clock := clock w; swarm := swarm w; connection := connection w; heap := v;
     timers := timers w; nextTimer := nextTimer w; pingCount := pingCount w;
     pings := pings w; promises := promises w; microtasks := microtasks w;
     outbox := outbox w; emitted := emitted w; calls := calls w |}.

Definition set_timers (v : gmap nat Timer) (n : TimerId) (w : World) : World :=
  {| clock := clock w; swarm := swarm w; connection := connection w;
     heap := heap w; timers := v; nextTimer := n; pingCount := pingCount w;
     pings := pings w; promises := promises w; microtasks := microtasks w;
     outbox := outbox w; emitted := emitted w; calls := calls w |}.

Definition set_pings (v : gmap nat PromiseRef) (n : nat) (w : World) : World :=
  {| clock := clock w; swarm := swarm w; connection := connection w;
     heap := heap w; timers := timers w; nextTimer := nextTimer w;
     pingCount := n; pings := v; promises := promises w;
     microtasks := microtasks w; outbox := outbox w; emitted := emitted w;
     calls := calls w |}.

Definition set_promises (v : list Promise) (w : World) : World :=
  {| clock := clock w; swarm := swarm w; connection := connection w;
     heap := heap w; timers := timers w; nextTimer := nextTimer w;
     pingCount := pingCount w; pings := pings w; promises := v;
     microtasks := microtasks w; outbox := outbox w; emitted := emitted w;
     calls := calls w |}.

Definition set_microtasks (v : list (Reaction * option Z)) (w : World) : World :=
  {| clock := clock w; swarm := swarm w; connection := connection w;
     heap := heap w; timers := timers w; nextTimer := nextTimer w;
     pingCount := pingCount w; pings := pings w; promises := promises w;
     microtasks := v; outbox := outbox w; emitted := emitted w;
     calls := calls w |}.

Definition set_outbox (v : list (PeerId * Message)) (w : World) : World :=
  {| clock := clock w; swarm := swarm w; connection := connection w;
     heap := heap w; timers := timers w; nextTimer := nextTimer w;
     pingCount := pingCount w; pings := pings w; promises := promises w;
     microtasks := microtasks w; outbox := v; emitted := emitted w;
     calls := calls w |}.

Definition set_emitted (v : list Event) (w : World) : World :=
  {| clock := clock w; swarm := swarm w; connection := connection w;
     heap := heap w; timers := timers w; nextTimer := nextTimer w;
     pingCount := pingCount w; pings := pings w; promises := promises w;
     microtasks := microtasks w; outbox := outbox w; emitted := v;
     calls := calls w |}.

Definition set_calls (v : list Call) (w : World) : World :=
  {| clock := clock w; swarm := swarm w; connection := connection w;
     heap := heap w; timers := timers w; nextTimer := nextTimer w;
     pingCount := pingCount w; pings := pings w; promises := promises w;
     microtasks := microtasks w; outbox := outbox w; emitted := emitted w;
     calls := v |}.

(** A write through the [connection] reference. *)
Definition updConn (f : Connection -> Connection) (w : World) : World :=
  set_connection (f (connection w)) w.

(** A write through a transport-instance reference. *)
Definition updPeer (r : PeerRef) (f : Peer -> Peer) (w : World) : World :=
  set_heap (alter f r (heap w)) w.

(** ** Collaborators: relay, swarm events, timers, promises, transport *)

(** [swarm.hub.broadcast(peerId, message)] *)
Definition broadcast (target : PeerId) (m : Message) (w : World) : World :=
  set_outbox (outbox w ++ [(target, m)]) w.

(** [swarm.emit(event, connection)] *)
Definition emit (e : Event) (w : World) : World :=
  set_emitted (emitted w ++ [e]) w.

Definition record (c : Call) (w : World) : World :=
  set_calls (calls w ++ [c]) w.

(** [setTimeout(callback, delay)]: a fresh handle, due [delay] from now. *)
Definition setTimeout (a : TimerAction) (delay : Z) (w : World)
    : TimerId * World :=
  let id := nextTimer w in
  (id, set_timers (<[id := {| fireAt := clock w + delay; action := a |}]>
                     (timers w)) (S id) w).

(** [clearTimeout(handle)]; nothing happens on [undefined] or [null]. *)
Definition clearTimeout (t : option TimerId) (w : World) : World :=
  match t with
  | Some id => set_timers (delete id (timers w)) (nextTimer w) w
  | None => w
  end.

(** [promise.resolve(v)]: settles a pending promise and queues its
    reactions; a settled promise ignores it. *)
Definition resolve (p : PromiseRef) (v : option Z) (w : World) : World :=
  match promises w !! p with
  | Some pr =>
      match settled pr with
      | None =>
          set_microtasks
            (microtasks w ++ map (fun r => (r, v)) (reactions pr))
            (set_promises (<[p := set_settled (Some v) pr]> (promises w)) w)
      | Some _ => w
      end
  | None => w
  end.

(** [promise.then(reaction)] *)
Definition then_ (p : PromiseRef) (r : Reaction) (w : World) : World :=
  match promises w !! p with
  | Some pr =>
      match settled pr with
      | None => set_promises (<[p := add_reaction r pr]> (promises w)) w
      | Some v => set_microtasks (microtasks w ++ [(r, v)]) w
      end
  | None => w
  end.

(** The [garbage] flag read through a reference. *)
Definition peerGarbage (r : PeerRef) (w : World) : bool :=
  match heap w !! r with
  | Some p => garbage p
  | None => false
  end.

(** [peer.destroy()] *)
Definition destroy (r : PeerRef) (w : World) : World :=
  updPeer r (set_destroyed true) (record (CallDestroy r (peerGarbage r w)) w).

(** [new SimplePeer({initiator, config, trickle: true, streams})] followed
    by the property writes of [createPeer]. *)
Definition newPeer (initiator0 : bool) (w : World) : Peer :=
  {| initiator := initiator0;
     config := pcConfig (swarm w);
     trickle := true;
     ctorStreams := omap snd (localStreams (swarm w));
     peer_peerId := peerId (connection w);
     peer_connId := connId (connection w);
     streams := localStreams (swarm w);
     connectStart := clock w;
     didSignal := false;
     garbage := false;
     destroyed := false;
     peer_from := None;
     peer_remoteStreamIds := None;
     signalled := [] |}.

(** ** The module's functions *)

(** [myPeerId > peerId || (myPeerId === peerId && myConnId > connId)] *)
Definition iAmActive (myPeerId0 : PeerId) (myConnId0 : ConnId)
    (peerId0 : PeerId) (connId0 : ConnId) : bool :=
  JS.gt myPeerId0 peerId0 || (JS.seq myPeerId0 peerId0 && JS.gt myConnId0 connId0).

Definition activeIn (w : World) : bool :=
  iAmActive (myPeerId (swarm w)) (myConnId (swarm w))
    (peerId (connection w)) (connId (connection w)).

Definition newConnection (peerId0 : PeerId) (connId0 : ConnId) : Connection :=
  {| peerId := peerId0; connId := connId0; lastFailure := None; pc := None;
     timeout := None; timeoutEnd := None; timeoutMessage := None |}.

Definition stopTimeout (w : World) : World :=
  let w := clearTimeout (timeout (connection w)) w in
  let w := updConn (set_timeout None) w in
  let w := updConn (set_timeoutMessage (Some ""%string)) w in
  updConn (set_timeoutEnd (Some 0)) w.

Definition handlePeerSuccess (w : World) : World :=
  let w := record CallSuccess w in
  let w := updConn (set_lastFailure None) w in
  stopTimeout w.

Definition timeoutPeer (delay : Z) (message : option string) (w : World)
    : World :=
  let now := clock w in
  let w := updConn (set_lastFailure
                      (Some (JS.or_num (lastFailure (connection w)) now))) w in
  let w := clearTimeout (timeout (connection w)) w in
  let delay := Z.max 0 (Z.max (JS.or_num (timeoutEnd (connection w)) 0 - now)
                              delay) in
  let w := updConn (set_timeoutEnd (Some (now + delay))) w in
  let w := if JS.truthy_str message
           then updConn (set_timeoutMessage message) w else w in
  let '(id, w) := setTimeout DeadlineFired delay w in
  updConn (set_timeout (Some id)) w.

Definition addToTimeout (delay : Z) (w : World) : World :=
  match timeout (connection w) with
  | Some _ => timeoutPeer delay None w
  | None => w
  end.

Definition ping (timeout0 : Z) (w : World) : PromiseRef * World :=
  let id := pingCount w in
  let w := set_pings (pings w) (S id) w in
  let p := length (promises w) in
  let w := set_promises
             (promises w ++ [{| start := clock w; settled := None;
                                reactions := [] |}]) w in
  let '(_, w) := setTimeout (PingExpired id p) timeout0 w in
  let w := set_pings (<[id := p]> (pings w)) (pingCount w) w in
  let w := broadcast (peerId (connection w))
             (MsgPing (connId (connection w)) id) w in
  (p, w).

Definition deathPing (w : World) : World :=
  let '(p, w) := ping MAX_PING_TIME w in
  then_ p DeathPingThen w.

Definition createPeer (initiator0 : bool) (w : World) : PeerRef * World :=
  let w := match pc (connection w) with
           | Some old => destroy old (updPeer old (set_garbage true) w)
           | None => w
           end in
  let r := length (heap w) in
  let w := set_heap (heap w ++ [newPeer initiator0 w]) w in
  (r, updConn (set_pc (Some r)) w).

Definition youStartData : SignalData :=
  {| youStart := true; first := false; from := None; meta := None;
     type := "you-start"; payload := "" |}.

Definition connectPeer (w : World) : World :=
  let w := deathPing w in
  let w := timeoutPeer MAX_CONNECT_TIME None w in
  if activeIn w then snd (createPeer true w)
  else
    let w := broadcast (peerId (connection w))
               (MsgSignal (connId (connection w))
                  (Some {| state := sharedState (swarm w);
                           time := sharedStateTime (swarm w) |})
                  youStartData) w in
    match pc (connection w) with
    | Some old => destroy old (updPeer old (set_garbage true) w)
    | None => w
    end.

Definition handlePeerFail (forcedFail : bool) (w : World) : World :=
  let w := record (CallFail forcedFail) w in
  let w := stopTimeout w in
  let now := clock w in
  let since := JS.or_num (lastFailure (connection w)) now in
  let w := updConn (set_lastFailure (Some since)) w in
  let failTime := now - since in
  if forcedFail || (failTime >? MAX_FAIL_TIME)
  then emit FailedConnection w
  else connectPeer w.

Definition addPeerMetaData (r : PeerRef) (data : option Meta) (w : World)
    : World :=
  match data with
  | None => w
  | Some m => updPeer r (set_peer_remoteStreamIds (Some (remoteStreamIds m))) w
  end.

Definition handleSignal (data : SignalData) (w : World) : World :=
  if youStart data then
    match pc (connection w) with
    | None => snd (createPeer true w)
    | Some _ => w
    end
  else
    let iAmActive0 := activeIn w in
    let '(peer, w) :=
      if first data && negb iAmActive0 then
        let '(r, w) := createPeer false w in
        (Some r, updPeer r (set_peer_from (from data)) w)
      else (pc (connection w), w) in
    match peer with
    | None => connectPeer w
    | Some r =>
        match heap w !! r with
        | None => connectPeer w
        | Some p =>
            if destroyed p then connectPeer w
            else
              let w := if negb (JS.truthy_str (peer_from p))
                       then updPeer r (set_peer_from (from data)) w else w in
              let recorded := if negb (JS.truthy_str (peer_from p))
                              then from data else peer_from p in
              if JS.sne recorded (from data) then w
              else
                let w := addPeerMetaData r (meta data) w in
                let w := updPeer r (push_signalled data) w in
                if negb (first data && negb iAmActive0)
                then addToTimeout MIN_MAX_CONNECT_TIME_AFTER_SIGNAL w
                else w
        end
    end.

(** ** The callbacks [createPeer] wires on an instance *)

(** [peer.on('connect', ...)] *)
Definition onConnect (r : PeerRef) (w : World) : World :=
  handlePeerSuccess w.

(** [peer.on('error', ...)]: returns when garbage, logs otherwise. *)
Definition onError (r : PeerRef) (w : World) : World :=
  if peerGarbage r w then w else w.

(** [peer.on('iceStateChange', ...)] *)
Definition onIceStateChange (r : PeerRef) (state0 : string) (w : World)
    : World :=
  let w := if String.eqb state0 "disconnected"
           then timeoutPeer MAX_CONNECT_TIME_AFTER_ICE_DISCONNECT
                  (Some "peer timed out after ice disconnect"%string)
                  (deathPing w)
           else w in
  if String.eqb state0 "connected" || String.eqb state0 "completed"
  then handlePeerSuccess w else w.

(** [peer.on('close', ...)] *)
Definition onClose (r : PeerRef) (w : World) : World :=
  if peerGarbage r w then w else handlePeerFail false w.

(** ** Liveness probes *)

Definition handlePing (peerId0 : PeerId) (connId0 : ConnId) (id : nat)
    (w : World) : World :=
  broadcast peerId0 (MsgPong connId0 id) w.

Definition handlePong (id : nat) (w : World) : World :=
  let w := match pings w !! id with
           | Some p =>
               match promises w !! p with
               | Some pr => resolve p (Some (clock w - start pr)) w
               | None => w
               end
           | None => w
           end in
  set_pings (delete id (pings w)) (pingCount w) w.

(** The [then] callback of [deathPing]: [if (ms) log(...) else
    handlePeerFail(connection, true)]. *)
Definition runReaction (job : Reaction * option Z) (w : World) : World :=
  match job with
  | (DeathPingThen, ms) =>
      if JS.truthy_num ms then w else handlePeerFail true w
  end.

(** ** The event loop *)

(** The body of a timer callback. *)
Definition runTimer (a : TimerAction) (w : World) : World :=
  match a with
  | DeadlineFired => handlePeerFail false w
  | PingExpired id p =>
      let w := resolve p None w in
      set_pings (delete id (pings w)) (pingCount w) w
  end.

(** A due timer leaves the table and runs; one that is not due, or was
    cleared, does nothing. *)
Definition fireTimer (t : TimerId) (w : World) : World :=
  match timers w !! t with
  | Some tm =>
      if fireAt tm <=? clock w
      then runTimer (action tm)
             (set_timers (delete t (timers w)) (nextTimer w) w)
      else w
  | None => w
  end.

Fixpoint runJobs (jobs : list (Reaction * option Z)) (w : World) : World :=
  match jobs with
  | [] => w
  | job :: rest => runJobs rest (runReaction job w)
  end.

(** Microtask checkpoint: the queued reactions run once the handler that
    queued them has returned. *)
Definition drain (w : World) : World :=
  runJobs (microtasks w) (set_microtasks [] w).

(** One turn of the loop: a handler, then the microtask checkpoint. *)
Definition turn (handler : World -> World) (w : World) : World :=
  drain (handler w).

(** Time passing between two turns. *)
Definition advance (ms : Z) (w : World) : World :=
  set_clock (clock w + ms) w.

(** ** Local signals, streams and tracks

    The remaining callbacks of [createPeer] and [addStreamToPeer].  An
    object used as a map from names to streams ([localStreams],
    [peer.streams]) is the list of its properties in insertion order,
    which is the order [for ... in] visits them for names that are not
    array indices. *)

Definition set_didSignal (v : bool) (p : Peer) : Peer :=
  {| initiator := initiator p; config := config p; trickle := trickle p;
     ctorStreams := ctorStreams p; peer_peerId := peer_peerId p;
     peer_connId := peer_connId p; streams := streams p;
     connectStart := connectStart p; didSignal := v;
     garbage := garbage p; destroyed := destroyed p; peer_from := peer_from p;
     peer_remoteStreamIds := peer_remoteStreamIds p;
     signalled := signalled p |}.

Definition set_streams (v : list (string * option string)) (p : Peer) : Peer :=
  {| initiator := initiator p; config := config p; trickle := trickle p;
     ctorStreams := ctorStreams p; peer_peerId := peer_peerId p;
     peer_connId := peer_connId p; streams := v;
     connectStart := connectStart p; didSignal := didSignal p;
     garbage := garbage p; destroyed := destroyed p; peer_from := peer_from p;
     peer_remoteStreamIds := peer_remoteStreamIds p;
     signalled := signalled p |}.

(** [obj[name]]: [None] when the object has no such property. *)
Fixpoint lookupStream (name : string) (obj : list (string * option string))
    : option (option string) :=
  match obj with
  | [] => None
  | (k, v) :: rest =>
      if String.eqb k name then Some v else lookupStream name rest
  end.

(** [obj[name] = v]: an existing property keeps its place. *)
Fixpoint assignStream (name : string) (v : option string)
    (obj : list (string * option string)) : list (string * option string) :=
  match obj with
  | [] => [(name, v)]
  | (k, old) :: rest =>
      if String.eqb k name then (k, v) :: rest
      else (k, old) :: assignStream name v rest
  end.

(** The loop of the [signal] callback: [[name, stream.id]] for every
    property of [peer.streams] that holds a stream. *)
Fixpoint advertised (obj : list (string * option string))
    : list (string * string) :=
  match obj with
  | [] => []
  | (name, Some stream) :: rest => (name, stream) :: advertised rest
  | (_, None) :: rest => advertised rest
  end.

(** [peer.on('signal', data => ...)].  [selfId] is [peer._id], the
    identifier the transport library gave the instance; [data] is the
    payload the transport hands over, tagged and sent on. *)
Definition onSignal (r : PeerRef) (selfId : string) (data : SignalData)
    (w : World) : World :=
  match heap w !! r with
  | None => w
  | Some p =>
      let tagged (isFirst : bool) :=
        {| youStart := youStart data; first := isFirst;
           from := Some selfId;
           meta := Some {| remoteStreamIds := advertised (streams p) |};
           type := type data; payload := payload data |} in
      if didSignal p then
        broadcast (peer_peerId p)
          (MsgSignal (peer_connId p) None (tagged (first data))) w
      else
        broadcast (peer_peerId p)
          (MsgSignal (peer_connId p)
             (Some {| state := sharedState (swarm w);
                      time := sharedStateTime (swarm w) |})
             (tagged true))
          (updPeer r (set_didSignal true) w)
  end.

(** What [peer.removeStream] and [peer.addStream] were asked to do. *)
Inductive TransportCall :=
| RemoveStream (r : nat) (stream : string)
| AddStream (r : nat) (stream : string).

(** How the transport's [addStream] ends: it returns, or throws an error
    with or without a [code]. *)
Inductive AddOutcome :=
| AddOk
| AddThrows (withCode : bool).

Inductive Completion := Returns | Throws.

(** [addStreamToPeer(connection, stream, name)]; [stream] is [None] for
    [null] or [undefined].  The result lists the calls made on the
    transport. *)
Definition addStreamToPeer (stream : option string) (name : string)
    (outcome : AddOutcome) (w : World)
    : Completion * list TransportCall * World :=
  match pc (connection w) with
  | None => (Returns, [], w)
  | Some r =>
      match heap w !! r with
      | None => (Returns, [], w)
      | Some p =>
          if destroyed p then (Returns, [], w)
          else
            let oldStream :=
              match lookupStream name (streams p) with
              | Some (Some old) => Some old
              | _ => None
              end in
            if match oldStream, stream with
               | Some old, Some s => String.eqb old s
               | _, _ => false
               end
            then (Returns, [], w)
            else
              let removed := match oldStream with
                             | Some old => [RemoveStream r old]
                             | None => []
                             end in
              let w := updPeer r
                         (fun q => set_streams
                                     (assignStream name stream (streams q)) q)
                         w in
              match stream with
              | None => (Returns, removed, w)
              | Some s =>
                  match outcome with
                  | AddOk => (Returns, removed ++ [AddStream r s], w)
                  | AddThrows withCode =>
                      (if withCode then Throws else Returns,
                       removed ++ [AddStream r s],
                       updPeer r
                         (fun q => set_streams
                                     (assignStream name None (streams q)) q)
                         w)
                  end
              end
      end
  end.

(** An entry of [swarm.remoteStreams]: [{stream, name, peerId}]. *)
Record StreamObj := {
  so_stream : string;
  so_name : option string;
  so_peerId : string
}.

(** [peer.remoteStreamIds?.find(([, id]) => id === stream.id)?.[0]] *)
Definition trackName (p : Peer) (stream : string) : option string :=
  match peer_remoteStreamIds p with
  | None => None
  | Some ids =>
      match find (fun entry => String.eqb (snd entry) stream) ids with
      | Some entry => Some (fst entry)
      | None => None
      end
  end.

(** [streamObj.peerId === peerId && streamObj.name === name] *)
Definition sameSlot (peerId0 : string) (name : option string)
    (o : StreamObj) : bool :=
  String.eqb (so_peerId o) peerId0 && negb (JS.sne (so_name o) name).

(** [array.findIndex(test)], [None] for -1. *)
Fixpoint findIndex {A : Type} (test : A -> bool) (l : list A) : option nat :=
  match l with
  | [] => None
  | x :: rest =>
      if test x then Some 0%nat
      else match findIndex test rest with
           | Some i => Some (S i)
           | None => None
           end
  end.

(** The array [peer.on('track', ...)] stores with
    [swarm.set('remoteStreams', ...)]. *)
Definition onTrack (r : PeerRef) (stream : string) (w : World)
    (remoteStreams : list StreamObj) : list StreamObj :=
  match heap w !! r with
  | None => remoteStreams
  | Some p =>
      let name := trackName p stream in
      let obj := {| so_stream := stream; so_name := name;
                    so_peerId := peer_peerId p |} in
      match findIndex (sameSlot (peer_peerId p) name) remoteStreams with
      | Some i => <[i := obj]> remoteStreams
      | None => remoteStreams ++ [obj]
      end
  end.

(** ** Vocabulary of the statements *)

(** The teardown that [createPeer] and the passive branch of [connectPeer]
    both spell out: [if (pc) { pc.garbage = true; pc.destroy(); }]. *)
Definition retire (old : option PeerRef) (w : World) : World :=
  match old with
  | Some r => destroy r (updPeer r (set_garbage true) w)
  | None => w
  end.

(** Every reference the connection holds points into the heap. *)
Definition pcValid (w : World) : Prop :=
  match pc (connection w) with
  | Some r => (r < length (heap w))%nat
  | None => True
  end.

(** The timer table with the connection's own deadline taken out. *)
Definition withoutDeadline (w : World) : gmap nat Timer :=
  match timeout (connection w) with
  | Some t => delete t (timers w)
  | None => timers w
  end.

(** The world in which [connectPeer] takes its decision: probe sent,
    connect deadline armed. *)
Definition armed (w : World) : World :=
  timeoutPeer MAX_CONNECT_TIME None (deathPing w).

(** The world in which [handlePeerFail] takes its decision: deadline
    cleared, failure window opened if it was not. *)
Definition failing (forcedFail : bool) (w : World) : World :=
  updConn (set_lastFailure
             (Some (JS.or_num (lastFailure (connection w)) (clock w))))
    (stopTimeout (record (CallFail forcedFail) w)).

(** [handleSignal] from the validity check on, for the instance [peer]
    the signal is meant for; [extend] says whether the deadline is pushed
    at the end. *)
Definition deliver (data : SignalData) (extend : bool) (peer : option nat)
    (w : World) : World :=
  match peer with
  | None => connectPeer w
  | Some r =>
      match heap w !! r with
      | None => connectPeer w
      | Some p =>
          if destroyed p then connectPeer w
          else
            let w := if negb (JS.truthy_str (peer_from p))
                     then updPeer r (set_peer_from (from data)) w else w in
            let recorded := if negb (JS.truthy_str (peer_from p))
                            then from data else peer_from p in
            if JS.sne recorded (from data) then w
            else
              let w := addPeerMetaData r (meta data) w in
              let w := updPeer r (push_signalled data) w in
              if extend
              then addToTimeout MIN_MAX_CONNECT_TIME_AFTER_SIGNAL w
              else w
      end
  end.

(** What the environment can make the module do: the exported entry
    points, a due timer, the events of a transport instance, and time
    passing.  A track event changes no field of the world and is left to
    [onTrack].  [peer.destroyed] is a field of the transport: besides the
    [destroy()] calls of this module, the transport tears an instance
    down on its own (a lost connection, a fatal error) and sets the field
    before it raises [error] or [close]; [PeerDestroyed] is that write,
    which the environment may make on any instance at any time. *)
Inductive Input :=
| CallConnectPeer
| Signal (data : SignalData)
| Ping (sender : string) (senderConn : string) (id : nat)
| Pong (id : nat)
| TimerDue (t : nat)
| PeerConnect (r : nat)
| PeerError (r : nat)
| PeerIceState (r : nat) (state0 : string)
| PeerClose (r : nat)
| Elapse (ms : Z)
| PeerSignal (r : nat) (selfId : string) (data : SignalData)
| StreamChange (stream : option string) (name : string)
    (outcome : AddOutcome)
| PeerDestroyed (r : nat).

Definition react (i : Input) (w : World) : World :=
  match i with
  | CallConnectPeer => turn connectPeer w
  | Signal data => turn (handleSignal data) w
  | Ping sender senderConn id => turn (handlePing sender senderConn id) w
  | Pong id => turn (handlePong id) w
  | TimerDue t => turn (fireTimer t) w
  | PeerConnect r => turn (onConnect r) w
  | PeerError r => turn (onError r) w
  | PeerIceState r state0 => turn (onIceStateChange r state0) w
  | PeerClose r => turn (onClose r) w
  | Elapse ms => advance ms w
  | PeerSignal r selfId data => turn (onSignal r selfId data) w
  | StreamChange stream name outcome =>
      turn (fun w0 => snd (addStreamToPeer stream name outcome w0)) w
  | PeerDestroyed r => updPeer r (set_destroyed true) w
  end.

Fixpoint run (inputs : list Input) (w : World) : World :=
  match inputs with
  | [] => w
  | i :: rest => run rest (react i w)
  end.

(** Handles are handed out in increasing order. *)
Definition handlesBelow (w : World) : Prop :=
  (forall (t : nat) (tm : Timer), timers w !! t = Some tm -> (t < nextTimer w)%nat)
  /\ (forall t : nat, timeout (connection w) = Some t -> (t < nextTimer w)%nat).

(** Between two turns, a Connection that holds a timer handle holds the
    handle of a pending deadline timer, due at [timeoutEnd]. *)
Definition deadlineArmed (w : World) : Prop :=
  match timeout (connection w) with
  | Some t =>
      exists due : Z,
        timers w !! t = Some {| fireAt := due; action := DeadlineFired |}
        /\ timeoutEnd (connection w) = Some due
  | None => True
  end.

Definition sound (w : World) : Prop := pcValid w /\ handlesBelow w.

Definition settledWorld (w : World) : Prop := sound w /\ deadlineArmed w.

(** A write on an instance that leaves its role, its garbage mark and
    the attempt it belongs to alone, and does not revive it. *)
Definition keepsIdentity (f : Peer -> Peer) : Prop :=
  forall p : Peer,
    initiator (f p) = initiator p /\ garbage (f p) = garbage p /\
    (destroyed p = true -> destroyed (f p) = true) /\
    peer_peerId (f p) = peer_peerId p /\
    peer_connId (f p) = peer_connId p.

(** The inputs that report a transport success. *)
Definition reportsSuccess (i : Input) : bool :=
  match i with
  | PeerConnect _ => true
  | PeerIceState _ state0 =>
      String.eqb state0 "connected" || String.eqb state0 "completed"
  | _ => false
  end.

(** What it takes for a property of worlds to survive every turn: it is
    kept by each step the handlers are made of.  [Ps] is what holds
    between turns; [Pw] is what is left of it while a deadline callback
    runs, after its timer has left the table and before [stopTimeout]. *)
Record Closed (Pw Ps : World -> Prop) : Prop := {
  cl_weaken : forall w, Ps w -> Pw w;
  cl_record : forall c w, Pw w -> Pw (record c w);
  cl_stopTimeout : forall w, Pw w -> Ps (stopTimeout w);
  cl_window : forall w,
    Ps w ->
    Ps (updConn (set_lastFailure
                   (Some (JS.or_num (lastFailure (connection w)) (clock w))))
          w);
  cl_emit : forall w, Ps w -> Ps (emit FailedConnection w);
  cl_deathPing : forall w, Ps w -> Ps (deathPing w);
  cl_timeoutPeer : forall delay message w,
    Ps w -> Ps (timeoutPeer delay message w);
  cl_youStart : forall w,
    Ps w ->
    Ps (broadcast (peerId (connection w))
          (MsgSignal (connId (connection w))
             (Some {| state := sharedState (swarm w);
                      time := sharedStateTime (swarm w) |})
             youStartData) w);
  cl_retire : forall w, Ps w -> Ps (retire (pc (connection w)) w);
  cl_createPeer : forall i w,
    (i = false -> activeIn w = false) -> Ps w -> Ps (snd (createPeer i w));
  cl_updPeer : forall r f w, keepsIdentity f -> Ps w -> Ps (updPeer r f w);
  cl_handlePong : forall id w, Ps w -> Ps (handlePong id w);
  cl_expire : forall t tm id p w,
    timers w !! t = Some tm -> action tm = PingExpired id p -> Ps w ->
    Ps (runTimer (PingExpired id p)
          (set_timers (delete t (timers w)) (nextTimer w) w));
  cl_deadline : forall t tm w,
    timers w !! t = Some tm -> action tm = DeadlineFired -> Ps w ->
    Pw (set_timers (delete t (timers w)) (nextTimer w) w);
  cl_checkpoint : forall w, Ps w -> Ps (set_microtasks [] w);
  cl_advance : forall ms w, Ps w -> Ps (advance ms w);
  cl_handlePing : forall sender senderConn id w,
    Ps w -> Ps (handlePing sender senderConn id w);
  cl_onSignal : forall r selfId data w, Ps w -> Ps (onSignal r selfId data w)
}.

(** At most one deadline timer is pending, and the Connection holds its
    handle. *)
Definition oneDeadline (w : World) : Prop :=
  forall (t : nat) (tm : Timer),
    timers w !! t = Some tm -> action tm = DeadlineFired ->
    timeout (connection w) = Some t.

(** An instance marked garbage has been destroyed, and the only
    instance that may be unmarked is the one in [pc]. *)
Definition oneLive (w : World) : Prop :=
  forall (r : nat) (p : Peer),
    heap w !! r = Some p ->
    (garbage p = true -> destroyed p = true) /\
    (garbage p = false -> pc (connection w) = Some r).

(** On the active side every instance was created as an initiator. *)
Definition initiatorsOnly (w : World) : Prop :=
  activeIn w = true ->
  forall (r : nat) (p : Peer), heap w !! r = Some p -> initiator p = true.

(** Where a message goes and the attempt id it carries; a pong answers
    whoever sent the ping. *)
Definition toRemote (w : World) (entry : string * Message) : Prop :=
  match snd entry with
  | MsgPong _ _ => True
  | MsgSignal yourConnId _ _ | MsgPing yourConnId _ =>
      fst entry = peerId (connection w) /\ yourConnId = connId (connection w)
  end.

Definition addressed (w : World) : Prop :=
  (forall (r : nat) (p : Peer),
     heap w !! r = Some p ->
     peer_peerId p = peerId (connection w) /\
     peer_connId p = connId (connection w))
  /\ Forall (toRemote w) (outbox w).

(** The parties of a Connection: who we are, who the remote is, which
    attempt this is. *)
Definition sameParties (w0 w : World) : Prop :=
  swarm w = swarm w0 /\
  peerId (connection w) = peerId (connection w0) /\
  connId (connection w) = connId (connection w0).

(** The failure window is open since [t]. *)
Definition failingSince (t : Z) (w : World) : Prop :=
  t <> 0 /\ lastFailure (connection w) = Some t.

(** A probe id and its promise, as the registry or a pending expiry
    timer pairs them. *)
Definition probePair (w : World) (id p : nat) : Prop :=
  pings w !! id = Some p
  \/ exists (t : nat) (due : Z),
       timers w !! t = Some {| fireAt := due; action := PingExpired id p |}.

(** The bookkeeping of the liveness prober. *)
Record probesTracked (w : World) : Prop := {
  pt_handles : handlesBelow w;
  pt_own : forall (t : nat) (tm : Timer),
    timeout (connection w) = Some t -> timers w !! t = Some tm ->
    action tm = DeadlineFired;
  pt_fresh : forall id p : nat,
    probePair w id p ->
    (id < pingCount w)%nat /\ (p < length (promises w))%nat;
  pt_pair : forall id p id' p' : nat,
    probePair w id p -> probePair w id' p' -> (id = id' <-> p = p');
  pt_pending : forall id p : nat,
    pings w !! id = Some p ->
    (exists pr : Promise,
       promises w !! p = Some pr /\ settled pr = None
       /\ reactions pr = [DeathPingThen])
    /\ exists (t : nat) (due : Z),
         timers w !! t = Some {| fireAt := due; action := PingExpired id p |}
}.

(** What [addPeerMetaData] leaves in [remoteStreamIds]. *)
Definition metaIds (data : SignalData) (before : option (list (string * string)))
    : option (list (string * string)) :=
  match meta data with
  | Some m => Some (remoteStreamIds m)
  | None => before
  end.


(** The payload the [signal] callback sends on for what the transport
    handed it. *)
Definition outgoing (p : Peer) (selfId : string) (isFirst : bool)
    (data : SignalData) : SignalData :=
  {| youStart := youStart data; first := isFirst; from := Some selfId;
     meta := Some {| remoteStreamIds := advertised (streams p) |};
     type := type data; payload := payload data |}.

(** The transport of one instance raising [signal] several times. *)
Fixpoint localSignals (r : nat) (selfId : string) (ds : list SignalData)
    (w : World) : World :=
  match ds with
  | [] => w
  | d :: rest => localSignals r selfId rest (onSignal r selfId d w)
  end.

(** The slot of [swarm.remoteStreams] an entry occupies. *)
Definition slotKey (o : StreamObj) : string * option string :=
  (so_peerId o, so_name o).

(** The instance [r] has been marked garbage. *)
Definition retiredAt (r : nat) (w : World) : Prop :=
  exists p : Peer, heap w !! r = Some p /\ garbage p = true.

(** ** Sample worlds

    Two peers "a" and "b" that have just learnt of each other.  On b's
    page the remote attempt is ("a", "2") and b's own is ("b", "1"), so b
    is the active side; a's page sees the mirror image. *)

Definition swarmOf (me : PeerId) (conn : ConnId) : Swarm :=
  {| myPeerId := me; myConnId := conn; sharedState := "room";
     sharedStateTime := 7;
     localStreams := [("audio"%string, Some "mic"%string);
                      ("video"%string, None)];
     pcConfig := None |}.

Definition freshWorld (now : Z) (sw : Swarm) (c : Connection) : World :=
  {| clock := now; swarm := sw; connection := c; heap := [];
     timers := ∅; nextTimer := 1%nat; pingCount := 0%nat; pings := ∅;
     promises := []; microtasks := []; outbox := []; emitted := [];
     calls := [] |}.

Definition worldB : World :=
  freshWorld 1000 (swarmOf "b" "1") (newConnection "a" "2").

Definition worldA : World :=
  freshWorld 1000 (swarmOf "a" "2") (newConnection "b" "1").

(** A negotiation signal of the remote instance [sender]. *)
Definition signalFrom (sender : string) (isFirst : bool) : SignalData :=
  {| youStart := false; first := isFirst; from := Some sender;
     meta := Some {| remoteStreamIds := [("audio"%string, "s1"%string)] |};
     type := "offer"; payload := "sdp" |}.

(** b retried once: instance 0 was marked garbage and destroyed, instance 1
    is the current one. *)
Definition worldB_retried : World := connectPeer (connectPeer worldB).

(** a holds a receiver created for the remote instance "Y". *)
Definition worldA_receiving : World := handleSignal (signalFrom "Y" true) worldA.

(** * Properties *)

(** ** The tie-break rule *)

Section TieBreak.

Lemma compare_same (s : string) : String.compare s s = Eq.
Proof.
  pose proof (String.compare_antisym s s) as H.
  destruct (String.compare s s); simpl in H; congruence.
Qed.

Lemma gt_irrefl (s : string) : JS.gt s s = false.
Proof. unfold JS.gt. now rewrite compare_same. Qed.

(** On distinct strings exactly one of [a > b] and [b > a] holds. *)
Lemma gt_total (a b : string) : a <> b -> JS.gt a b = negb (JS.gt b a).
Proof.
  intros Hne. unfold JS.gt.
  rewrite (String.compare_antisym b a).
  destruct (String.compare a b) eqn:E; simpl; try reflexivity.
  apply String.compare_eq_iff in E. congruence.
Qed.

Lemma gt_asym (a b : string) : JS.gt a b = true -> JS.gt b a = false.
Proof.
  unfold JS.gt. rewrite (String.compare_antisym b a).
  destruct (String.compare a b); simpl; congruence.
Qed.

Lemma gt_ne (a b : string) : JS.gt a b = true -> a <> b.
Proof. intros H ->. rewrite gt_irrefl in H. discriminate. Qed.

End TieBreak.

Lemma iAmActive_swap (peerA connA peerB connB : string) :
  (peerA, connA) <> (peerB, connB) ->
  iAmActive peerA connA peerB connB = negb (iAmActive peerB connB peerA connA).
Proof.
  intros Hne. unfold iAmActive, JS.seq.
  destruct (String.eqb_spec peerA peerB) as [-> | Hp].
  - rewrite String.eqb_refl, gt_irrefl. simpl.
    apply gt_total. intros ->. now apply Hne.
  - assert (String.eqb peerB peerA = false) as ->
        by (apply String.eqb_neq; congruence).
    rewrite !andb_false_l, !orb_false_r. now apply gt_total.
Qed.

(** Both entry points evaluate the same expression on the world's swarm
    and connection, so two worlds that mirror each other disagree on who
    initiates. *)
Lemma activeIn_mirror (wA wB : World) :
  peerId (connection wA) = myPeerId (swarm wB) ->
  connId (connection wA) = myConnId (swarm wB) ->
  peerId (connection wB) = myPeerId (swarm wA) ->
  connId (connection wB) = myConnId (swarm wA) ->
  (myPeerId (swarm wA), myConnId (swarm wA))
    <> (myPeerId (swarm wB), myConnId (swarm wB)) ->
  activeIn wA = negb (activeIn wB).
Proof.
  intros H1 H2 H3 H4 Hne. unfold activeIn.
  rewrite H1, H2, H3, H4. now apply iAmActive_swap.
Qed.

(** C1. For two distinct (peerId, connId) attempt pairs, the side holding
    the first pair evaluates the rule of [connectPeer] and [handleSignal]
    to "active" exactly when the side holding the second pair evaluates it
    to "not active": swapping the roles gives the complement, so exactly
    one side is active, never both and never neither. *)
Theorem tie_break_complement (peerA connA peerB connB : string) :
  (peerA, connA) <> (peerB, connB) ->
  iAmActive peerA connA peerB connB = negb (iAmActive peerB connB peerA connA)
  /\ xorb (iAmActive peerA connA peerB connB)
          (iAmActive peerB connB peerA connA) = true.
Proof.
  intros Hne. rewrite (iAmActive_swap _ _ _ _ Hne).
  split; [reflexivity | now destruct (iAmActive peerB connB peerA connA)].
Qed.

Lemma tie_break_complement_witness :
  ("b"%string, "1"%string) <> ("a"%string, "2"%string) /\
  iAmActive "b" "1" "a" "2" = negb (iAmActive "a" "2" "b" "1") /\
  xorb (iAmActive "b" "1" "a" "2") (iAmActive "a" "2" "b" "1") = true.
Proof.
  assert (H : ("b"%string, "1"%string) <> ("a"%string, "2"%string))
    by discriminate.
  split; [exact H | exact (tie_break_complement "b" "1" "a" "2" H)].
Defined.

(** ** Probes leave the connection alone *)

(** [deathPing] in one piece: a fresh promise carrying the reaction, a
    5000 ms expiry timer, the registry entry and the [ping] message. *)
Lemma deathPing_eq (w : World) :
  deathPing w =
  {| clock := clock w; swarm := swarm w; connection := connection w;
     heap := heap w;
     timers := <[nextTimer w :=
                   {| fireAt := clock w + MAX_PING_TIME;
                      action := PingExpired (pingCount w)
                                  (length (promises w)) |}]> (timers w);
     nextTimer := S (nextTimer w);
     pingCount := S (pingCount w);
     pings := <[pingCount w := length (promises w)]> (pings w);
     promises := promises w ++ [{| start := clock w; settled := None;
                                   reactions := [DeathPingThen] |}];
     microtasks := microtasks w;
     outbox := outbox w ++ [(peerId (connection w),
                             MsgPing (connId (connection w)) (pingCount w))];
     emitted := emitted w; calls := calls w |}.
Proof.
  unfold deathPing, ping, then_, setTimeout, broadcast. cbn.
  rewrite list_lookup_middle by reflexivity. cbn.
  unfold set_promises. cbn. f_equal.
  replace (length (promises w)) with (length (promises w) + 0)%nat at 1 by lia.
  now rewrite insert_app_r.
Qed.

Lemma or_num_set (t now : Z) : t <> 0 -> JS.or_num (Some t) now = t.
Proof. intros H. unfold JS.or_num. now destruct (Z.eqb_spec t 0). Qed.

(** ** The timeout supervisor *)

Lemma timeoutPeer_lastFailure (delay : Z) (message : option string) (w : World) :
  lastFailure (connection (timeoutPeer delay message w))
  = Some (JS.or_num (lastFailure (connection w)) (clock w)).
Proof.
  unfold timeoutPeer, setTimeout. cbn.
  destruct (JS.truthy_str message), (timeout (connection w)); reflexivity.
Qed.

Lemma timeoutPeer_timeoutEnd (delay : Z) (message : option string) (w : World) :
  timeoutEnd (connection (timeoutPeer delay message w))
  = Some (clock w + Z.max 0 (Z.max (JS.or_num (timeoutEnd (connection w)) 0
                                     - clock w) delay)).
Proof.
  unfold timeoutPeer, setTimeout. cbn.
  destruct (JS.truthy_str message), (timeout (connection w)); reflexivity.
Qed.

Lemma timeoutPeer_timeout (delay : Z) (message : option string) (w : World) :
  timeout (connection (timeoutPeer delay message w)) = Some (nextTimer w).
Proof.
  unfold timeoutPeer, setTimeout. cbn.
  destruct (JS.truthy_str message), (timeout (connection w)); reflexivity.
Qed.

Lemma timeoutPeer_timers (delay : Z) (message : option string) (w : World) :
  timers (timeoutPeer delay message w)
  = <[nextTimer w :=
        {| fireAt := clock w + Z.max 0 (Z.max (JS.or_num (timeoutEnd (connection w)) 0
                                               - clock w) delay);
           action := DeadlineFired |}]>
      (withoutDeadline w).
Proof.
  unfold timeoutPeer, setTimeout, withoutDeadline. cbn.
  destruct (JS.truthy_str message), (timeout (connection w)); reflexivity.
Qed.

Lemma timeoutPeer_frame (delay : Z) (message : option string) (w : World) :
  let w' := timeoutPeer delay message w in
  clock w' = clock w /\ swarm w' = swarm w /\ heap w' = heap w /\
  pc (connection w') = pc (connection w) /\
  peerId (connection w') = peerId (connection w) /\
  connId (connection w') = connId (connection w) /\
  outbox w' = outbox w /\ emitted w' = emitted w /\ calls w' = calls w /\
  microtasks w' = microtasks w /\ promises w' = promises w /\
  nextTimer w' = S (nextTimer w).
Proof.
  unfold timeoutPeer, setTimeout. cbn.
  destruct (JS.truthy_str message), (timeout (connection w)); cbn;
    repeat split; reflexivity.
Qed.

(** C3. On a Connection with an armed deadline (its [timeout] handle is a
    pending timer due at [timeoutEnd]), a call to [timeoutPeer] with any
    requested delay cancels that timer and arms one whose delay is
    max(0, remaining time, requested delay); the new firing time is never
    earlier than the one armed before. *)
Theorem timeoutPeer_never_earlier (w : World) (delay : Z)
    (message : option string) (t : TimerId) (due : Z) :
  timeout (connection w) = Some t ->
  timers w !! t = Some {| fireAt := due; action := DeadlineFired |} ->
  timeoutEnd (connection w) = Some due ->
  (t < nextTimer w)%nat ->
  let w' := timeoutPeer delay message w in
  let newDelay := Z.max 0 (Z.max (due - clock w) delay) in
  timeout (connection w') = Some (nextTimer w) /\
  timers w' !! nextTimer w
    = Some {| fireAt := clock w + newDelay; action := DeadlineFired |} /\
  timeoutEnd (connection w') = Some (clock w + newDelay) /\
  timers w' !! t = None /\
  due <= clock w + newDelay.
Proof.
  intros Ht Htm Hend Hlt w' newDelay. subst w'.
  assert (Hor : JS.or_num (timeoutEnd (connection w)) 0 = due).
  { rewrite Hend. cbn. destruct (Z.eqb_spec due 0); congruence. }
  rewrite timeoutPeer_timeout, timeoutPeer_timeoutEnd, timeoutPeer_timers.
  unfold withoutDeadline. rewrite Hor, Ht. fold newDelay.
  repeat split.
  - apply lookup_insert_eq.
  - rewrite lookup_insert_ne by lia. apply lookup_delete_eq.
  - subst newDelay. lia.
Qed.

Lemma timeoutPeer_never_earlier_witness :
  let w := advance 1000 (connectPeer worldB) in
  timeout (connection w) = Some 2%nat /\
  timers w !! 2%nat = Some {| fireAt := 7000; action := DeadlineFired |} /\
  timeoutEnd (connection w) = Some 7000 /\
  let w' := timeoutPeer 2000 None w in
  timeout (connection w') = Some 3%nat /\
  timers w' !! 3%nat = Some {| fireAt := 7000; action := DeadlineFired |} /\
  timeoutEnd (connection w') = Some 7000 /\
  timers w' !! 2%nat = None /\
  7000 <= 7000.
Proof.
  intros w.
  assert (H1 : timeout (connection w) = Some 2%nat) by reflexivity.
  assert (H2 : timers w !! 2%nat
               = Some {| fireAt := 7000; action := DeadlineFired |})
    by reflexivity.
  assert (H3 : timeoutEnd (connection w) = Some 7000) by reflexivity.
  assert (H4 : (2 < nextTimer w)%nat) by (unfold w; vm_compute; lia).
  repeat (split; [assumption|]).
  exact (timeoutPeer_never_earlier w 2000 None 2%nat 7000 H1 H2 H3 H4).
Defined.

Lemma stopTimeout_eq (w : World) :
  stopTimeout w =
  set_timers (withoutDeadline w) (nextTimer w)
    (set_connection
       {| peerId := peerId (connection w); connId := connId (connection w);
          lastFailure := lastFailure (connection w); pc := pc (connection w);
          timeout := None; timeoutEnd := Some 0;
          timeoutMessage := Some ""%string |} w).
Proof.
  unfold stopTimeout, withoutDeadline, clearTimeout.
  destruct (timeout (connection w)); reflexivity.
Qed.

(** A handle that is not in the table fires nothing. *)
Lemma fireTimer_cleared (t : TimerId) (w : World) :
  timers w !! t = None -> fireTimer t w = w.
Proof. intros H. unfold fireTimer. now rewrite H. Qed.

(** C9. In any state of the Connection, [handlePeerSuccess] resets
    [lastFailure] to unset and clears the deadline: the handle is dropped,
    the remaining-time bookkeeping ([timeoutEnd]) is 0, the message is
    empty, and the timer that was armed is out of the timer table, so its
    firing is cancelled; every other timer stays. *)
Theorem handlePeerSuccess_clears (w : World) :
  let w' := handlePeerSuccess w in
  lastFailure (connection w') = None /\
  timeout (connection w') = None /\
  timeoutEnd (connection w') = Some 0 /\
  timeoutMessage (connection w') = Some ""%string /\
  timers w' = withoutDeadline w /\
  (forall t : TimerId,
     timers w' !! t
     = if decide (timeout (connection w) = Some t) then None
       else timers w !! t) /\
  pc (connection w') = pc (connection w).
Proof.
  unfold handlePeerSuccess. rewrite stopTimeout_eq. cbn.
  unfold withoutDeadline. cbn.
  repeat split.
  intros t. destruct (timeout (connection w)) as [t0|] eqn:E.
  - destruct (decide (Some t0 = Some t)) as [[= ->]|Hne].
    + apply lookup_delete_eq.
    + apply lookup_delete_ne. congruence.
  - now destruct (decide (None = Some t)).
Qed.

(** ** Transport teardown and creation *)

Lemma retire_frame (old : option PeerRef) (w : World) :
  let w' := retire old w in
  connection w' = connection w /\ clock w' = clock w /\ swarm w' = swarm w /\
  timers w' = timers w /\ nextTimer w' = nextTimer w /\
  pingCount w' = pingCount w /\ pings w' = pings w /\
  promises w' = promises w /\ microtasks w' = microtasks w /\
  outbox w' = outbox w /\ emitted w' = emitted w /\
  length (heap w') = length (heap w).
Proof.
  destruct old as [r|]; cbn; repeat split; try reflexivity.
  now rewrite !length_alter.
Qed.

Lemma retire_heap (old : option PeerRef) (w : World) :
  heap (retire old w)
  = match old with
    | Some r => alter (set_destroyed true) r (alter (set_garbage true) r (heap w))
    | None => heap w
    end.
Proof. destruct old; reflexivity. Qed.

(** [destroy()] is always called on an instance already marked garbage. *)
Lemma retire_calls (old : option PeerRef) (w : World) :
  match old with Some r => (r < length (heap w))%nat | None => True end ->
  calls (retire old w)
  = calls w ++ match old with
               | Some r => [CallDestroy r true]
               | None => []
               end.
Proof.
  destruct old as [r|]; intros H; [|cbn; now rewrite app_nil_r].
  destruct (lookup_lt_is_Some_2 (heap w) r H) as [p Hp].
  unfold retire, destroy, updPeer, record, peerGarbage.
  change (heap (set_heap ?h _)) with h.
  rewrite list_lookup_alter_eq, Hp. reflexivity.
Qed.

(** What the retired instance looks like afterwards. *)
Lemma retire_lookup (r : PeerRef) (p : Peer) (w : World) :
  heap w !! r = Some p ->
  heap (retire (Some r) w) !! r
  = Some (set_destroyed true (set_garbage true p)).
Proof.
  intros H. rewrite retire_heap, !list_lookup_alter_eq, H. reflexivity.
Qed.

Lemma newPeer_ext (i : bool) (w1 w2 : World) :
  swarm w1 = swarm w2 -> clock w1 = clock w2 ->
  peerId (connection w1) = peerId (connection w2) ->
  connId (connection w1) = connId (connection w2) ->
  newPeer i w1 = newPeer i w2.
Proof. intros H1 H2 H3 H4. unfold newPeer. now rewrite H1, H2, H3, H4. Qed.

Lemma createPeer_eq (i : bool) (w : World) :
  createPeer i w
  = (length (heap w),
     updConn (set_pc (Some (length (heap w))))
       (set_heap (heap (retire (pc (connection w)) w) ++ [newPeer i w])
                 (retire (pc (connection w)) w))).
Proof.
  unfold createPeer. fold (retire (pc (connection w)) w).
  destruct (retire_frame (pc (connection w)) w)
    as (Hc & Hk & Hs & _ & _ & _ & _ & _ & _ & _ & _ & Hl).
  cbv zeta in *. rewrite Hl.
  rewrite (newPeer_ext i _ w) by (cbn; congruence).
  reflexivity.
Qed.

Lemma activeIn_ext (w1 w2 : World) :
  swarm w1 = swarm w2 ->
  peerId (connection w1) = peerId (connection w2) ->
  connId (connection w1) = connId (connection w2) ->
  activeIn w1 = activeIn w2.
Proof. intros H1 H2 H3. unfold activeIn. now rewrite H1, H2, H3. Qed.

Lemma armed_frame (w : World) :
  let w1 := armed w in
  clock w1 = clock w /\ swarm w1 = swarm w /\ heap w1 = heap w /\
  pc (connection w1) = pc (connection w) /\
  peerId (connection w1) = peerId (connection w) /\
  connId (connection w1) = connId (connection w) /\
  emitted w1 = emitted w /\ calls w1 = calls w /\
  microtasks w1 = microtasks w /\
  outbox w1 = outbox w ++ [(peerId (connection w),
                            MsgPing (connId (connection w)) (pingCount w))] /\
  lastFailure (connection w1)
  = Some (JS.or_num (lastFailure (connection w)) (clock w)).
Proof.
  unfold armed.
  pose proof (timeoutPeer_frame MAX_CONNECT_TIME None (deathPing w)) as H.
  cbv zeta in *.
  destruct H as (H1 & H2 & H3 & H4 & H5 & H6 & H7 & H8 & H9 & H10 & _).
  rewrite timeoutPeer_lastFailure.
  rewrite H1, H2, H3, H4, H5, H6, H7, H8, H9, H10.
  rewrite deathPing_eq. cbn. repeat split; reflexivity.
Qed.

Lemma broadcast_connection (target : string) (m : Message) (w : World) :
  connection (broadcast target m w) = connection w.
Proof. reflexivity. Qed.

Lemma connectPeer_eq (w : World) :
  connectPeer w
  = if activeIn w then snd (createPeer true (armed w))
    else retire (pc (connection w))
           (broadcast (peerId (connection w))
              (MsgSignal (connId (connection w))
                 (Some {| state := sharedState (swarm w);
                          time := sharedStateTime (swarm w) |})
                 youStartData) (armed w)).
Proof.
  unfold connectPeer. fold (armed w).
  destruct (armed_frame w) as (_ & Hs & _ & Hp & Hi & Hc & _).
  cbv zeta in *.
  rewrite (activeIn_ext (armed w) w Hs Hi Hc).
  destruct (activeIn w); [reflexivity|].
  rewrite Hs, Hi, Hc.
  rewrite broadcast_connection, Hp. reflexivity.
Qed.

(** The two branches of [connectPeer], entered from any world [w1]. *)
Lemma branch_connection (w w1 : World) (b : bool) (m : Message) :
  let w' := if b then snd (createPeer true w1)
            else retire (pc (connection w))
                   (broadcast (peerId (connection w)) m w1) in
  lastFailure (connection w') = lastFailure (connection w1) /\
  emitted w' = emitted w1 /\ clock w' = clock w1 /\
  microtasks w' = microtasks w1.
Proof.
  destruct b; cbv zeta.
  - rewrite createPeer_eq. cbn [snd].
    pose proof (retire_frame (pc (connection w1)) w1) as H. cbv zeta in H.
    destruct H as (Hc & Hk & _ & _ & _ & _ & _ & _ & Hm & _ & He & _).
    unfold updConn, set_heap.
    cbn [connection set_connection lastFailure set_pc emitted clock microtasks].
    now rewrite Hc, Hk, He, Hm.
  - pose proof (retire_frame (pc (connection w))
                  (broadcast (peerId (connection w)) m w1)) as H.
    cbv zeta in H.
    destruct H as (Hc & Hk & _ & _ & _ & _ & _ & _ & Hm & _ & He & _).
    now rewrite Hc, Hk, He, Hm.
Qed.

Lemma connectPeer_frame (w : World) :
  lastFailure (connection (connectPeer w))
  = Some (JS.or_num (lastFailure (connection w)) (clock w)) /\
  emitted (connectPeer w) = emitted w /\
  clock (connectPeer w) = clock w /\
  microtasks (connectPeer w) = microtasks w.
Proof.
  rewrite connectPeer_eq.
  pose proof (armed_frame w) as H. cbv zeta in H.
  destruct H as (Hk & _ & _ & _ & _ & _ & He & _ & Hm & _ & Hl).
  rewrite <- Hl, <- He, <- Hk, <- Hm. apply branch_connection.
Qed.

Lemma branch_roles (w w1 : World) :
  pcValid w ->
  clock w1 = clock w -> swarm w1 = swarm w -> heap w1 = heap w ->
  pc (connection w1) = pc (connection w) ->
  peerId (connection w1) = peerId (connection w) ->
  connId (connection w1) = connId (connection w) ->
  forall m : Message,
  let w' := if activeIn w then snd (createPeer true w1)
            else retire (pc (connection w))
                   (broadcast (peerId (connection w)) m w1) in
  let old := pc (connection w) in
  let retired :=
    match old with
    | Some r => alter (set_destroyed true) r (alter (set_garbage true) r (heap w))
    | None => heap w
    end in
  calls w' = calls w1 ++ match old with
                         | Some r => [CallDestroy r true]
                         | None => []
                         end /\
  if activeIn w then
    heap w' = retired ++ [newPeer true w] /\
    pc (connection w') = Some (length (heap w)) /\
    outbox w' = outbox w1
  else
    heap w' = retired /\
    length (heap w') = length (heap w) /\
    pc (connection w') = old /\
    outbox w' = outbox w1 ++ [(peerId (connection w), m)].
Proof.
  intros Hv Hk Hs Hh Hp Hi Hc m. unfold pcValid in Hv. cbv zeta.
  destruct (activeIn w).
  - rewrite createPeer_eq. cbn [snd].
    unfold updConn, set_heap, set_connection.
    cbn [calls heap connection pc set_pc outbox].
    pose proof (retire_frame (pc (connection w1)) w1) as H. cbv zeta in H.
    destruct H as (_ & _ & _ & _ & _ & _ & _ & _ & _ & Ho & _).
    rewrite retire_calls, retire_heap, Ho, Hp, Hh
      by (rewrite Hp, Hh; exact Hv).
    rewrite (newPeer_ext true w1 w Hs Hk Hi Hc).
    repeat split; reflexivity.
  - pose proof (retire_frame (pc (connection w))
                  (broadcast (peerId (connection w)) m w1)) as H.
    cbv zeta in H.
    destruct H as (Hconn & _ & _ & _ & _ & _ & _ & _ & _ & Ho & _ & Hlen).
    rewrite Hlen, retire_calls, retire_heap, Hconn, Ho
      by (unfold broadcast, set_outbox; cbn [heap]; rewrite Hh; exact Hv).
    unfold broadcast, set_outbox. cbn [heap calls connection outbox].
    rewrite Hh, Hp. repeat split; reflexivity.
Qed.

(** C6. [connectPeer] on a Connection whose [pc], if any, is an instance
    of the heap.  Active side: the existing instance is marked garbage
    and then destroyed, and a new initiator instance is appended and
    stored in [pc]; nothing but the probe goes to the relay.  Passive
    side: the relay gets the probe and then a [signal] carrying
    [{youStart: true}] with the shared-state snapshot, the existing
    instance is marked garbage and then destroyed, the heap gains no
    instance and [pc] keeps its reference. *)
Theorem connectPeer_roles (w : World) :
  pcValid w ->
  let w' := connectPeer w in
  let old := pc (connection w) in
  let retired :=
    match old with
    | Some r => alter (set_destroyed true) r (alter (set_garbage true) r (heap w))
    | None => heap w
    end in
  let probe := (peerId (connection w),
                MsgPing (connId (connection w)) (pingCount w)) in
  calls w' = calls w ++ match old with
                        | Some r => [CallDestroy r true]
                        | None => []
                        end /\
  if activeIn w then
    heap w' = retired ++ [newPeer true w] /\
    initiator (newPeer true w) = true /\
    pc (connection w') = Some (length (heap w)) /\
    outbox w' = outbox w ++ [probe]
  else
    heap w' = retired /\
    length (heap w') = length (heap w) /\
    pc (connection w') = old /\
    outbox w' = outbox w ++
      [probe;
       (peerId (connection w),
        MsgSignal (connId (connection w))
          (Some {| state := sharedState (swarm w);
                   time := sharedStateTime (swarm w) |})
          youStartData)].
Proof.
  intros Hv. cbv zeta. rewrite connectPeer_eq.
  pose proof (armed_frame w) as H. cbv zeta in H.
  destruct H as (Hk & Hs & Hh & Hp & Hi & Hc & He & Hcalls & Hm & Ho & Hl).
  pose proof (branch_roles w (armed w) Hv Hk Hs Hh Hp Hi Hc
                (MsgSignal (connId (connection w))
                   (Some {| state := sharedState (swarm w);
                            time := sharedStateTime (swarm w) |})
                   youStartData)) as B.
  cbv zeta in B. rewrite Hcalls, Ho in B.
  destruct B as [B1 B2]. split; [exact B1|].
  destruct (activeIn w).
  - destruct B2 as (B2 & B3 & B4). repeat split; assumption.
  - destruct B2 as (B2 & B3 & B4 & B5). rewrite <- app_assoc in B5.
    repeat split; assumption.
Qed.

Lemma connectPeer_roles_witness :
  pcValid (connectPeer worldB) /\
  activeIn (connectPeer worldB) = true /\
  calls worldB_retried = [CallDestroy 0%nat true] /\
  pc (connection worldB_retried) = Some 1%nat.
Proof.
  assert (Hv : pcValid (connectPeer worldB)) by (vm_compute; lia).
  split; [exact Hv|].
  pose proof (connectPeer_roles (connectPeer worldB) Hv) as H.
  vm_compute in H. destruct H as (H1 & _ & _ & H2 & _).
  split; [vm_compute; reflexivity|]. split; [exact H1 | exact H2].
Defined.

(** The scenario of the specification: both sides call [connectPeer] at
    the same instant.  b, the greater identity, creates an initiator at
    once; a sends [{youStart: true}] and creates nothing; when b's first
    signal reaches a, a creates a receiver for it. *)
Example simultaneous_connect :
  let b := connectPeer worldB in
  let a := connectPeer worldA in
  let a' := handleSignal (signalFrom "b0" true) a in
  initiator <$> heap b !! 0%nat = Some true /\
  pc (connection b) = Some 0%nat /\
  heap a = [] /\ pc (connection a) = None /\
  outbox a = [("b"%string, MsgPing "1" 0);
              ("b"%string,
               MsgSignal "1" (Some {| state := "room"; time := 7 |})
                 youStartData)] /\
  initiator <$> heap a' !! 0%nat = Some false /\
  peer_from <$> heap a' !! 0%nat = Some (Some "b0"%string) /\
  pc (connection a') = Some 0%nat.
Proof. vm_compute. repeat split; reflexivity. Qed.

(** ** The failure policy *)

Lemma or_num_idem (x : option Z) (now : Z) :
  JS.or_num (Some (JS.or_num x now)) now = JS.or_num x now.
Proof.
  unfold JS.or_num. destruct x as [v|].
  - destruct (Z.eqb_spec v 0) as [->|Hv].
    + now destruct (Z.eqb_spec now 0).
    + now destruct (Z.eqb_spec v 0).
  - now destruct (Z.eqb_spec now 0).
Qed.

Lemma failing_frame (forcedFail : bool) (w : World) :
  let w1 := failing forcedFail w in
  connection w1
  = {| peerId := peerId (connection w); connId := connId (connection w);
       lastFailure := Some (JS.or_num (lastFailure (connection w)) (clock w));
       pc := pc (connection w); timeout := None; timeoutEnd := Some 0;
       timeoutMessage := Some ""%string |} /\
  timers w1 = withoutDeadline w /\ clock w1 = clock w /\
  emitted w1 = emitted w /\ calls w1 = calls w ++ [CallFail forcedFail] /\
  heap w1 = heap w /\ outbox w1 = outbox w /\ microtasks w1 = microtasks w.
Proof.
  unfold failing. rewrite stopTimeout_eq. cbn. repeat split; reflexivity.
Qed.

Lemma handlePeerFail_eq (forcedFail : bool) (w : World) :
  handlePeerFail forcedFail w
  = if forcedFail
       || (clock w - JS.or_num (lastFailure (connection w)) (clock w)
           >? MAX_FAIL_TIME)
    then emit FailedConnection (failing forcedFail w)
    else connectPeer (failing forcedFail w).
Proof.
  unfold handlePeerFail, failing. rewrite stopTimeout_eq. reflexivity.
Qed.

(** C5. [handlePeerFail(connection, forced)] first clears the armed
    deadline and opens the failure window if it was not open.  When
    [forced] is true or the time elapsed since [lastFailure] exceeds
    20000 ms it emits 'failedConnection' and stops there, [lastFailure]
    still set; otherwise it runs [connectPeer] on the same Connection.
    In both cases [lastFailure] afterwards is the start of the window it
    had before the call, so the failure duration accumulates over
    consecutive retries. *)
Theorem handlePeerFail_policy (forcedFail : bool) (w : World) :
  let since := JS.or_num (lastFailure (connection w)) (clock w) in
  let w1 := failing forcedFail w in
  let w' := handlePeerFail forcedFail w in
  timeout (connection w1) = None /\
  timeoutEnd (connection w1) = Some 0 /\
  timers w1 = withoutDeadline w /\
  (forall t : Z, lastFailure (connection w) = Some t -> t <> 0 -> since = t) /\
  lastFailure (connection w') = Some since /\
  if forcedFail || (clock w - since >? MAX_FAIL_TIME)
  then w' = emit FailedConnection w1 /\
       emitted w' = emitted w ++ [FailedConnection] /\
       timeout (connection w') = None
  else w' = connectPeer w1 /\ emitted w' = emitted w.
Proof.
  cbv zeta. rewrite handlePeerFail_eq.
  pose proof (failing_frame forcedFail w) as F. cbv zeta in F.
  destruct F as (Fc & Ft & Fk & Fe & _).
  pose proof (connectPeer_frame (failing forcedFail w)) as C.
  destruct C as (Cl & Ce & _).
  rewrite Fc, Fk in Cl. cbn [lastFailure] in Cl. rewrite or_num_idem in Cl.
  rewrite Fe in Ce.
  split; [now rewrite Fc|]. split; [now rewrite Fc|]. split; [exact Ft|].
  split; [intros t Ht Hne; rewrite Ht; now apply or_num_set|].
  destruct (forcedFail || _).
  - unfold emit, set_emitted. cbn [connection emitted].
    rewrite Fc, Fe. repeat split; reflexivity.
  - repeat split; [exact Cl | exact Ce].
Qed.

(** The scenario of the specification: the window opens at connect time
    (1000); transport closes 3000 ms apart are retried in place; a close
    21000 ms into the window is terminal. *)
Example closes_retry_then_fail :
  let w1 := onClose 0%nat (advance 3000 (connectPeer worldB)) in
  let w2 := onClose 1%nat (advance 3000 w1) in
  let w3 := onClose 2%nat (advance 3000 w2) in
  let w4 := onClose 3%nat (advance 12000 w3) in
  emitted w3 = [] /\
  calls w3 = [CallFail false; CallDestroy 0%nat true;
              CallFail false; CallDestroy 1%nat true;
              CallFail false; CallDestroy 2%nat true] /\
  lastFailure (connection w3) = Some 1000 /\
  pc (connection w3) = Some 3%nat /\
  clock w4 = 22000 /\
  emitted w4 = [FailedConnection] /\
  lastFailure (connection w4) = Some 1000 /\
  timeout (connection w4) = None.
Proof. vm_compute. repeat split; reflexivity. Qed.

Lemma advance_frame (ms : Z) (w : World) :
  connection (advance ms w) = connection w /\
  clock (advance ms w) = clock w + ms /\
  emitted (advance ms w) = emitted w.
Proof. repeat split; reflexivity. Qed.

Lemma handlePeerFail_emitted (forcedFail : bool) (w : World) :
  emitted (handlePeerFail forcedFail w)
  = emitted w ++
    if forcedFail
       || (clock w - JS.or_num (lastFailure (connection w)) (clock w)
           >? MAX_FAIL_TIME)
    then [FailedConnection] else [].
Proof.
  rewrite handlePeerFail_eq.
  pose proof (failing_frame forcedFail w) as F. cbv zeta in F.
  destruct F as (_ & _ & _ & Fe & _).
  destruct (forcedFail || _).
  - unfold emit, set_emitted. cbn [emitted]. now rewrite Fe.
  - destruct (connectPeer_frame (failing forcedFail w)) as (_ & Ce & _).
    now rewrite Ce, Fe, app_nil_r.
Qed.

(** C10. On a Connection whose [lastFailure] is unset, [timeoutPeer] sets
    [lastFailure] to the current time whatever the delay and message, and
    so does [connectPeer], which arms the connect deadline through it.
    The 20000 ms test of a later [handlePeerFail] therefore measures from
    connect time: [ms] after [connectPeer] it is terminal exactly when it
    is forced or [ms] exceeds 20000. *)
Theorem timeoutPeer_opens_failure_window (w : World) (delay : Z)
    (message : option string) :
  lastFailure (connection w) = None ->
  lastFailure (connection (timeoutPeer delay message w)) = Some (clock w) /\
  lastFailure (connection (connectPeer w)) = Some (clock w) /\
  (clock w <> 0 ->
   forall (ms : Z) (forcedFail : bool),
     emitted (handlePeerFail forcedFail (advance ms (connectPeer w)))
     = emitted w ++
       if forcedFail || (ms >? MAX_FAIL_TIME) then [FailedConnection] else []).
Proof.
  intros Hunset.
  destruct (connectPeer_frame w) as (Cl & Ce & Ck & _).
  rewrite Hunset in Cl. cbn [JS.or_num] in Cl.
  split; [rewrite timeoutPeer_lastFailure, Hunset; reflexivity|].
  split; [exact Cl|].
  intros Hclock ms forcedFail.
  rewrite handlePeerFail_emitted.
  destruct (advance_frame ms (connectPeer w)) as (Ac & Ak & Ae).
  rewrite Ac, Ak, Ae, Cl, Ce, Ck, (or_num_set _ _ Hclock).
  replace (clock w + ms - clock w) with ms by lia. reflexivity.
Qed.

Lemma timeoutPeer_opens_failure_window_witness :
  lastFailure (connection worldB) = None /\
  lastFailure (connection (timeoutPeer 6000 None worldB)) = Some 1000 /\
  lastFailure (connection (connectPeer worldB)) = Some 1000.
Proof.
  assert (H : lastFailure (connection worldB) = None) by reflexivity.
  split; [exact H|].
  destruct (timeoutPeer_opens_failure_window worldB 6000 None H)
    as (H1 & H2 & _).
  split; [exact H1 | exact H2].
Defined.

(** ** Inbound signals *)

(** C7. On an inbound signal whose payload has [youStart] set,
    [handleSignal] creates an initiator instance exactly when the
    Connection holds no instance: then the new instance is appended to the
    heap and stored in [pc] and nothing else changes; when [pc] holds an
    instance, live or destroyed, the world is left as it was. *)
Theorem handleSignal_youStart (data : SignalData) (w : World) :
  youStart data = true ->
  let w' := handleSignal data w in
  match pc (connection w) with
  | None =>
      w' = updConn (set_pc (Some (length (heap w))))
             (set_heap (heap w ++ [newPeer true w]) w) /\
      initiator (newPeer true w) = true
  | Some _ => w' = w
  end /\
  (length (heap w') = S (length (heap w)) <-> pc (connection w) = None).
Proof.
  intros Hy. cbv zeta. unfold handleSignal. rewrite Hy.
  destruct (pc (connection w)) as [r|] eqn:Hpc.
  - split; [reflexivity|]. split; [lia | discriminate].
  - rewrite createPeer_eq, Hpc. cbn [snd retire].
    split; [split; reflexivity|].
    unfold updConn, set_heap, set_connection. cbn [heap].
    rewrite length_app. cbn [length]. split; [reflexivity | lia].
Qed.

Lemma handleSignal_youStart_witness :
  youStart youStartData = true /\
  pc (connection (handleSignal youStartData worldA)) = Some 0%nat /\
  handleSignal youStartData (handleSignal youStartData worldA)
  = handleSignal youStartData worldA.
Proof.
  assert (H : youStart youStartData = true) by reflexivity.
  split; [exact H|].
  pose proof (handleSignal_youStart youStartData worldA H) as [H1 _].
  pose proof (handleSignal_youStart youStartData
                (handleSignal youStartData worldA) H) as [H2 _].
  split.
  - destruct H1 as [H1 _]. rewrite H1. reflexivity.
  - exact H2.
Defined.

(** C8, as the code has it.  An inbound signal that is not [youStart] and
    does not take the receiver-creation path (it is not a [first] signal
    seen by the non-active side), arriving while [pc] is a live instance
    whose recorded [from] is a non-empty identifier different from the
    payload's [from], is discarded: the world after [handleSignal] is the
    world before, so nothing is forwarded into the transport, no metadata
    is applied, no deadline moves, and no field of the Connection or of
    its instance changes. *)
Theorem handleSignal_wrong_instance (data : SignalData) (w : World)
    (r : nat) (p : Peer) (recorded : string) :
  youStart data = false ->
  first data && negb (activeIn w) = false ->
  pc (connection w) = Some r ->
  heap w !! r = Some p ->
  destroyed p = false ->
  peer_from p = Some recorded ->
  recorded <> ""%string ->
  from data <> Some recorded ->
  handleSignal data w = w.
Proof.
  intros Hy Hf Hpc Hp Hd Hfrom Hne Hdiff.
  unfold handleSignal. rewrite Hy, Hf, Hpc, Hp, Hd, Hfrom.
  assert (Ht : JS.truthy_str (Some recorded) = true).
  { cbn. now destruct (String.eqb_spec recorded ""). }
  rewrite Ht. cbn [negb].
  assert (Hs : JS.sne (Some recorded) (from data) = true).
  { unfold JS.sne. destruct (from data) as [f|]; [|reflexivity].
    destruct (String.eqb_spec recorded f); [congruence | reflexivity]. }
  now rewrite Hs.
Qed.

Lemma handleSignal_wrong_instance_witness :
  let w := worldA_receiving in
  let data := signalFrom "X" false in
  youStart data = false /\
  pc (connection w) = Some 0%nat /\
  peer_from <$> heap w !! 0%nat = Some (Some "Y"%string) /\
  from data = Some "X"%string /\
  handleSignal data w = w.
Proof.
  intros w data.
  assert (Hp : heap w !! 0%nat
               = Some (set_peer_from (Some "Y"%string)
                         (push_signalled (signalFrom "Y" true)
                            (set_peer_remoteStreamIds
                               (Some [("audio"%string, "s1"%string)])
                               (set_peer_from (Some "Y"%string)
                                  (newPeer false worldA))))))
    by reflexivity.
  repeat (split; [reflexivity|]).
  refine (handleSignal_wrong_instance data w 0%nat _ "Y"%string
            _ _ _ Hp _ _ _ _);
    try reflexivity; discriminate.
Defined.

(** The claim as first stated fails: a live instance recorded from "Y",
    a [first] signal of instance "X" on the non-active side.  The old
    instance is marked garbage and destroyed, a new receiver takes its
    place in [pc], and the payload is forwarded into it. *)
Lemma handleSignal_first_replaces_instance :
  let w := worldA_receiving in
  let data := signalFrom "X" true in
  let w' := handleSignal data w in
  youStart data = false /\
  pc (connection w) = Some 0%nat /\
  peer_from <$> heap w !! 0%nat = Some (Some "Y"%string) /\
  destroyed <$> heap w !! 0%nat = Some false /\
  from data = Some "X"%string /\
  pc (connection w') = Some 1%nat /\
  garbage <$> heap w' !! 0%nat = Some true /\
  destroyed <$> heap w' !! 0%nat = Some true /\
  signalled <$> heap w' !! 1%nat = Some [data] /\
  peer_remoteStreamIds <$> heap w' !! 1%nat
  = Some (Some [("audio"%string, "s1"%string)]).
Proof. vm_compute. repeat split; reflexivity. Qed.

(** ** Callbacks of a retired instance *)

(** The two callbacks that test the flag.  Once an instance is marked
    garbage, its [error] and [close] callbacks do nothing: the world
    after is the world before, so neither [handlePeerSuccess] nor
    [handlePeerFail] runs.  The [connect] and [iceStateChange] callbacks
    do not read the flag: [connect], and [iceStateChange] to "connected"
    or "completed", run [handlePeerSuccess] whatever the flag says. *)
Theorem garbage_silences_error_and_close (r : nat) (w : World) :
  peerGarbage r w = true ->
  onError r w = w /\
  onClose r w = w /\
  onConnect r w = handlePeerSuccess w /\
  onIceStateChange r "connected" w = handlePeerSuccess w /\
  onIceStateChange r "completed" w = handlePeerSuccess w.
Proof.
  intros Hg. unfold onError, onClose. rewrite Hg.
  repeat split; reflexivity.
Qed.

Lemma garbage_silences_error_and_close_witness :
  peerGarbage 0%nat worldB_retried = true /\
  onError 0%nat worldB_retried = worldB_retried /\
  onClose 0%nat worldB_retried = worldB_retried.
Proof.
  assert (H : peerGarbage 0%nat worldB_retried = true) by reflexivity.
  split; [exact H|].
  destruct (garbage_silences_error_and_close 0%nat worldB_retried H)
    as (H1 & H2 & _).
  split; [exact H1 | exact H2].
Defined.

(** C2 fails on the code.  [createPeer] tests [peer.garbage] in the
    [error] and [close] callbacks and leaves the test out of [connect]
    and [iceStateChange].  b has retried once: instance 0 is garbage and
    destroyed, instance 1 is the current attempt, its deadline is armed
    and the failure window is open.  When instance 0 fires [connect], or
    [iceStateChange] to "connected" or "completed", [handlePeerSuccess]
    runs: the window closes and the deadline of the new attempt is
    cleared.  When instance 1 has connected and instance 0 then fires
    [iceStateChange] to "disconnected", a probe is sent, the window
    opens and a 2000 ms deadline is armed; when that deadline fires,
    [handlePeerFail] runs and its retry destroys the connected
    instance 1. *)
Theorem garbage_instance_reaches_connection :
  let w := worldB_retried in
  peerGarbage 0%nat w = true /\
  pc (connection w) = Some 1%nat /\
  lastFailure (connection w) = Some 1000 /\
  timeout (connection w) = Some 4%nat /\
  calls (onConnect 0%nat w) = calls w ++ [CallSuccess] /\
  lastFailure (connection (onConnect 0%nat w)) = None /\
  timeout (connection (onConnect 0%nat w)) = None /\
  timers (onConnect 0%nat w) !! 4%nat = None /\
  calls (onIceStateChange 0%nat "connected" w) = calls w ++ [CallSuccess] /\
  calls (onIceStateChange 0%nat "completed" w) = calls w ++ [CallSuccess] /\
  (let w1 := react (PeerConnect 1) w in
   let w2 := onIceStateChange 0%nat "disconnected" w1 in
   lastFailure (connection w1) = None /\
   timeout (connection w1) = None /\
   lastFailure (connection w2) = Some 1000 /\
   timeout (connection w2) = Some 6%nat /\
   timers w2 !! 6%nat = Some {| fireAt := 3000; action := DeadlineFired |} /\
   outbox w2 = outbox w1 ++ [("a"%string, MsgPing "2" 2)]) /\
  (let w3 := run [PeerConnect 1; PeerIceState 0 "disconnected";
                  Elapse 2000; TimerDue 6] w in
   calls w3 = calls w ++ [CallSuccess; CallFail false; CallDestroy 1 true] /\
   pc (connection w3) = Some 2%nat /\
   garbage <$> heap w3 !! 1%nat = Some true).
Proof. vm_compute. repeat split; reflexivity. Qed.

(** A live instance's [close] does reach the failure policy. *)
Lemma live_close_reports_failure (r : nat) (w : World) :
  peerGarbage r w = false -> onClose r w = handlePeerFail false w.
Proof. intros H. unfold onClose. now rewrite H. Qed.

(** ** Liveness probes *)

Lemma handlePeerFail_forced (w : World) :
  handlePeerFail true w = emit FailedConnection (failing true w).
Proof. now rewrite handlePeerFail_eq. Qed.

Lemma runReaction_microtasks (job : Reaction * option Z) (w : World) :
  microtasks (runReaction job w) = microtasks w.
Proof.
  destruct job as [[] ms]. unfold runReaction.
  destruct (JS.truthy_num ms); [reflexivity|].
  rewrite handlePeerFail_forced.
  pose proof (failing_frame true w) as F. cbv zeta in F.
  destruct F as (_ & _ & _ & _ & _ & _ & _ & Fm).
  unfold emit, set_emitted. cbn [microtasks]. exact Fm.
Qed.

(** The checkpoint terminates with an empty queue: no reaction of this
    module queues another. *)
Lemma drain_empties_queue (w : World) : microtasks (drain w) = [].
Proof.
  unfold drain.
  assert (H : forall jobs w0, microtasks (runJobs jobs w0) = microtasks w0).
  { induction jobs as [|job rest IH]; intros w0; [reflexivity|].
    cbn [runJobs]. now rewrite IH, runReaction_microtasks. }
  now rewrite H.
Qed.

Lemma resolve_pending (p : nat) (pr : Promise) (v : option Z) (w : World) :
  promises w !! p = Some pr -> settled pr = None ->
  resolve p v w
  = set_microtasks (microtasks w ++ map (fun r => (r, v)) (reactions pr))
      (set_promises (<[p := set_settled (Some v) pr]> (promises w)) w).
Proof. intros Hp Hs. unfold resolve. now rewrite Hp, Hs. Qed.

Lemma resolve_settled (p : nat) (pr : Promise) (v v0 : option Z) (w : World) :
  promises w !! p = Some pr -> settled pr = Some v0 -> resolve p v w = w.
Proof. intros Hp Hs. unfold resolve. now rewrite Hp, Hs. Qed.

(** A matching pong on a pending probe: the promise is settled with
    [now - start]; the reaction then treats a round trip of 0 like a
    probe that was never answered. *)
Lemma pong_turn (id p : nat) (pr : Promise) (w : World) :
  microtasks w = [] ->
  pings w !! id = Some p ->
  promises w !! p = Some pr ->
  settled pr = None ->
  reactions pr = [DeathPingThen] ->
  let rtt := clock w - start pr in
  let w1 := set_pings (delete id (pings w)) (pingCount w)
              (set_promises
                 (<[p := set_settled (Some (Some rtt)) pr]> (promises w)) w) in
  turn (handlePong id) w = if rtt =? 0 then handlePeerFail true w1 else w1.
Proof.
  intros Hm Hi Hp Hs Hr. cbv zeta.
  unfold turn, drain, handlePong. rewrite Hi, Hp.
  rewrite (resolve_pending p pr _ w Hp Hs), Hr, Hm.
  cbn [map app]. unfold set_pings, set_microtasks, set_promises.
  cbn [microtasks pings pingCount clock swarm connection heap timers
       nextTimer promises outbox emitted calls runJobs runReaction
       JS.truthy_num].
  rewrite Hm. now destruct (clock w - start pr =? 0).
Qed.

(** The expiry timer of a pending probe resolves it with [undefined],
    which the reaction turns into a forced failure. *)
Lemma expiry_turn (t id p : nat) (due : Z) (pr : Promise) (w : World) :
  microtasks w = [] ->
  timers w !! t = Some {| fireAt := due; action := PingExpired id p |} ->
  due <= clock w ->
  promises w !! p = Some pr ->
  settled pr = None ->
  reactions pr = [DeathPingThen] ->
  turn (fireTimer t) w
  = handlePeerFail true
      (set_pings (delete id (pings w)) (pingCount w)
         (set_promises (<[p := set_settled (Some None) pr]> (promises w))
            (set_timers (delete t (timers w)) (nextTimer w) w))).
Proof.
  intros Hm Ht Hdue Hp Hs Hr.
  unfold turn, drain, fireTimer. rewrite Ht. cbn [fireAt action].
  destruct (Z.leb_spec due (clock w)) as [_|]; [|lia].
  unfold runTimer.
  rewrite (resolve_pending p pr None
             (set_timers (delete t (timers w)) (nextTimer w) w) Hp Hs), Hr.
  unfold set_pings, set_microtasks, set_promises, set_timers.
  cbn [microtasks pings pingCount clock swarm connection heap timers
       nextTimer promises outbox emitted calls runJobs runReaction
       JS.truthy_num map app].
  rewrite Hm. reflexivity.
Qed.

(** Once the pong has settled the probe, its expiry timer changes
    nothing but the bookkeeping: no failure follows. *)
Lemma expiry_after_pong (t id p : nat) (due : Z) (pr : Promise)
    (v : option Z) (w : World) :
  microtasks w = [] ->
  timers w !! t = Some {| fireAt := due; action := PingExpired id p |} ->
  due <= clock w ->
  promises w !! p = Some pr ->
  settled pr = Some v ->
  turn (fireTimer t) w
  = set_pings (delete id (pings w)) (pingCount w)
      (set_timers (delete t (timers w)) (nextTimer w) w).
Proof.
  intros Hm Ht Hdue Hp Hs.
  unfold turn, drain, fireTimer. rewrite Ht. cbn [fireAt action].
  destruct (Z.leb_spec due (clock w)) as [_|]; [|lia].
  unfold runTimer.
  rewrite (resolve_settled p pr None v
             (set_timers (delete t (timers w)) (nextTimer w) w) Hp Hs).
  unfold set_pings, set_microtasks, set_timers.
  cbn [microtasks pings pingCount clock swarm connection heap timers
       nextTimer promises outbox emitted calls runJobs].
  rewrite Hm. reflexivity.
Qed.

(** The scenarios of the specification: a pong 40 ms after the ping
    resolves the probe with 40 and nothing fails; no pong within 5000 ms
    resolves it as timed out and forces the failure. *)
Example pong_after_40ms :
  let w := turn (handlePong 0) (advance 40 (connectPeer worldB)) in
  settled <$> promises w !! 0%nat = Some (Some (Some 40)) /\
  calls w = [] /\ emitted w = [] /\ pings w !! 0%nat = None.
Proof. vm_compute. repeat split; reflexivity. Qed.

Example no_pong_within_5000ms :
  let w := turn (fireTimer 1) (advance 5000 (connectPeer worldB)) in
  settled <$> promises w !! 0%nat = Some (Some None) /\
  calls w = [CallFail true] /\ emitted w = [FailedConnection].
Proof. vm_compute. repeat split; reflexivity. Qed.

(** C4 fails on the code at a round trip of 0 ms.  b sends the probe of
    its connection attempt and the matching pong is handled while
    [Date.now()] still reads the same millisecond: the probe resolves
    with the measured round trip 0, well before the 5000 ms expiry, and
    the reaction of [deathPing] calls [handlePeerFail(connection, true)],
    which emits 'failedConnection'. *)
Theorem pong_in_same_millisecond_forces_failure :
  let w0 := connectPeer worldB in
  let w := turn (handlePong 0) w0 in
  pings w0 !! 0%nat = Some 0%nat /\
  timers w0 !! 1%nat
  = Some {| fireAt := 6000; action := PingExpired 0 0 |} /\
  clock w = 1000 /\
  settled <$> promises w !! 0%nat = Some (Some (Some 0)) /\
  calls w = [CallFail true] /\
  emitted w = [FailedConnection].
Proof. vm_compute. repeat split; reflexivity. Qed.

(** ** What holds between any two turns *)

Section Invariant.

(** A step that leaves the timer table and the connection's deadline
    fields alone, and keeps [pc] inside the heap. *)
Lemma sound_frame (w w' : World) :
  timers w' = timers w -> nextTimer w' = nextTimer w ->
  timeout (connection w') = timeout (connection w) ->
  pcValid w' -> sound w -> sound w'.
Proof.
  intros Ht Hn Hc Hv [_ [Hb1 Hb2]]. split; [exact Hv|].
  split; rewrite ?Ht, ?Hn, ?Hc; assumption.
Qed.

Lemma armed_frame_gen (w w' : World) :
  timers w' = timers w ->
  timeout (connection w') = timeout (connection w) ->
  timeoutEnd (connection w') = timeoutEnd (connection w) ->
  deadlineArmed w -> deadlineArmed w'.
Proof. intros Ht Hc He H. unfold deadlineArmed in *. now rewrite Ht, Hc, He. Qed.

Lemma pcValid_frame (w w' : World) :
  pc (connection w') = pc (connection w) ->
  (length (heap w) <= length (heap w'))%nat -> pcValid w -> pcValid w'.
Proof.
  intros Hp Hl Hv. unfold pcValid in *. rewrite Hp.
  destruct (pc (connection w)); [lia | exact I].
Qed.

Lemma settled_frame (w w' : World) :
  timers w' = timers w -> nextTimer w' = nextTimer w ->
  timeout (connection w') = timeout (connection w) ->
  timeoutEnd (connection w') = timeoutEnd (connection w) ->
  pcValid w' -> settledWorld w -> settledWorld w'.
Proof.
  intros Ht Hn Hc He Hv [Hs Ha]. split.
  - now apply (sound_frame w w').
  - now apply (armed_frame_gen w w').
Qed.

Lemma stopTimeout_settled (w : World) : sound w -> settledWorld (stopTimeout w).
Proof.
  intros [Hv [Hb1 Hb2]]. rewrite stopTimeout_eq.
  split; [split; [exact Hv | split]|].
  - intros t tm. cbn [timers nextTimer set_timers]. unfold withoutDeadline.
    destruct (timeout (connection w)) as [t0|]; [|apply Hb1].
    intros H. apply lookup_delete_Some in H as [_ H]. eapply Hb1, H.
  - intros t. cbn. discriminate.
  - exact I.
Qed.

Lemma timeoutPeer_settled (delay : Z) (message : option string) (w : World) :
  sound w -> settledWorld (timeoutPeer delay message w).
Proof.
  intros [Hv [Hb1 Hb2]].
  pose proof (timeoutPeer_frame delay message w) as F. cbv zeta in F.
  destruct F as (_ & _ & Hh & Hp & _ & _ & _ & _ & _ & _ & _ & Hn).
  split; [split; [|split]|].
  - unfold pcValid in *. rewrite Hp, Hh. exact Hv.
  - intros t tm. rewrite timeoutPeer_timers, Hn.
    destruct (decide (t = nextTimer w)) as [->|Hne]; [lia|].
    rewrite lookup_insert_ne by congruence. unfold withoutDeadline.
    destruct (timeout (connection w)) as [t0|].
    + intros H. apply lookup_delete_Some in H as [_ H].
      apply Hb1 in H. lia.
    + intros H. apply Hb1 in H. lia.
  - intros t. rewrite timeoutPeer_timeout, Hn. intros [= <-]. lia.
  - unfold deadlineArmed.
    rewrite timeoutPeer_timeout, timeoutPeer_timers, timeoutPeer_timeoutEnd.
    eexists. split; [apply lookup_insert_eq | reflexivity].
Qed.

Lemma deathPing_settled (w : World) :
  settledWorld w -> settledWorld (deathPing w).
Proof.
  intros [[Hv [Hb1 Hb2]] Ha]. rewrite deathPing_eq.
  split; [split; [exact Hv | split]|].
  - intros t tm. cbn [timers nextTimer].
    destruct (decide (t = nextTimer w)) as [->|Hne]; [lia|].
    rewrite lookup_insert_ne by congruence. intros H. apply Hb1 in H. lia.
  - intros t. cbn [connection nextTimer]. intros H. apply Hb2 in H. lia.
  - unfold deadlineArmed in *. cbn [connection timers].
    destruct (timeout (connection w)) as [t|] eqn:E; [|exact I].
    destruct Ha as (due & H1 & H2). exists due. split; [|exact H2].
    rewrite lookup_insert_ne; [exact H1|]. specialize (Hb2 t eq_refl). lia.
Qed.

Lemma deathPing_sound (w : World) : sound w -> sound (deathPing w).
Proof.
  intros [Hv [Hb1 Hb2]]. rewrite deathPing_eq.
  split; [exact Hv | split].
  - intros t tm. cbn [timers nextTimer].
    destruct (decide (t = nextTimer w)) as [->|Hne]; [lia|].
    rewrite lookup_insert_ne by congruence. intros H. apply Hb1 in H. lia.
  - intros t. cbn [connection nextTimer]. intros H. apply Hb2 in H. lia.
Qed.

Lemma retire_settled (old : option nat) (w : World) :
  settledWorld w -> settledWorld (retire old w).
Proof.
  pose proof (retire_frame old w) as F. cbv zeta in F.
  destruct F as (Hc & _ & _ & Ht & Hn & _ & _ & _ & _ & _ & _ & Hl).
  intros H. apply (settled_frame w); try (now rewrite ?Hc); try assumption.
  apply (pcValid_frame w); [now rewrite Hc | lia | apply H].
Qed.

Lemma createPeer_settled (i : bool) (w : World) :
  settledWorld w -> settledWorld (snd (createPeer i w)).
Proof.
  intros H. apply (retire_settled (pc (connection w))) in H.
  rewrite createPeer_eq. cbn [snd].
  pose proof (retire_frame (pc (connection w)) w) as F. cbv zeta in F.
  destruct F as (_ & _ & _ & _ & _ & _ & _ & _ & _ & _ & _ & Hl).
  apply (settled_frame (retire (pc (connection w)) w)); try reflexivity;
    [|exact H].
  unfold pcValid, updConn, set_heap, set_connection.
  cbn [connection pc set_pc heap]. rewrite length_app, Hl. cbn [length]. lia.
Qed.

Lemma broadcast_settled (target : string) (m : Message) (w : World) :
  settledWorld w -> settledWorld (broadcast target m w).
Proof.
  intros H. apply (settled_frame w); try reflexivity; [apply H | exact H].
Qed.

Lemma connectPeer_settled (w : World) : sound w -> settledWorld (connectPeer w).
Proof.
  intros H. rewrite connectPeer_eq.
  assert (Ha : settledWorld (armed w))
    by (apply timeoutPeer_settled, deathPing_sound, H).
  destruct (activeIn w); [now apply createPeer_settled|].
  now apply retire_settled, broadcast_settled.
Qed.

Lemma quiet_settled (w w' : World) :
  connection w' = connection w -> timers w' = timers w ->
  nextTimer w' = nextTimer w -> length (heap w') = length (heap w) ->
  settledWorld w -> settledWorld w'.
Proof.
  intros Hc Ht Hn Hl H.
  apply (settled_frame w); try (now rewrite ?Hc); try assumption.
  apply (pcValid_frame w); [now rewrite Hc | lia | apply H].
Qed.

Lemma quiet_sound (w w' : World) :
  connection w' = connection w -> timers w' = timers w ->
  nextTimer w' = nextTimer w -> length (heap w') = length (heap w) ->
  sound w -> sound w'.
Proof.
  intros Hc Ht Hn Hl H.
  apply (sound_frame w); try (now rewrite ?Hc); try assumption.
  apply (pcValid_frame w); [now rewrite Hc | lia | apply H].
Qed.

Lemma updPeer_settled (r : nat) (f : Peer -> Peer) (w : World) :
  settledWorld w -> settledWorld (updPeer r f w).
Proof.
  apply quiet_settled; try reflexivity.
  unfold updPeer, set_heap. cbn [heap]. apply length_alter.
Qed.

Lemma resolve_settled_world (p : nat) (v : option Z) (w : World) :
  settledWorld w -> settledWorld (resolve p v w).
Proof.
  unfold resolve. destruct (promises w !! p) as [pr|]; [|easy].
  destruct (settled pr); [easy|].
  apply quiet_settled; reflexivity.
Qed.

Lemma failing_settled (forcedFail : bool) (w : World) :
  sound w -> settledWorld (failing forcedFail w).
Proof.
  intros H. unfold failing.
  assert (H1 : sound (record (CallFail forcedFail) w))
    by (revert H; apply quiet_sound; reflexivity).
  apply stopTimeout_settled in H1.
  apply (settled_frame (stopTimeout (record (CallFail forcedFail) w)));
    try reflexivity; [apply H1 | exact H1].
Qed.

Lemma handlePeerFail_settled (forcedFail : bool) (w : World) :
  sound w -> settledWorld (handlePeerFail forcedFail w).
Proof.
  intros H. rewrite handlePeerFail_eq.
  apply (failing_settled forcedFail) in H.
  destruct (forcedFail || _).
  - revert H. apply quiet_settled; reflexivity.
  - apply connectPeer_settled, H.
Qed.

Lemma handlePeerSuccess_settled (w : World) :
  sound w -> settledWorld (handlePeerSuccess w).
Proof.
  intros H. unfold handlePeerSuccess. apply stopTimeout_settled.
  apply (sound_frame w); try reflexivity; [apply H | exact H].
Qed.

Lemma addToTimeout_settled (delay : Z) (w : World) :
  settledWorld w -> settledWorld (addToTimeout delay w).
Proof.
  intros H. unfold addToTimeout.
  destruct (timeout (connection w)); [|exact H].
  apply timeoutPeer_settled, H.
Qed.

Lemma deliver_settled (data : SignalData) (extend : bool)
    (peer : option nat) (w : World) :
  settledWorld w -> settledWorld (deliver data extend peer w).
Proof.
  intros H. unfold deliver.
  destruct peer as [r|]; [|apply connectPeer_settled, H].
  destruct (heap w !! r) as [p|]; [|apply connectPeer_settled, H].
  destruct (destroyed p); [apply connectPeer_settled, H|].
  cbv zeta.
  set (w1 := if negb (JS.truthy_str (peer_from p)) then _ else w).
  assert (H1 : settledWorld w1).
  { subst w1. destruct (negb _); [now apply updPeer_settled | exact H]. }
  clearbody w1.
  destruct (JS.sne _ (from data)); [exact H1|].
  assert (H2 : settledWorld (addPeerMetaData r (meta data) w1)).
  { unfold addPeerMetaData. destruct (meta data);
      [now apply updPeer_settled | exact H1]. }
  apply (updPeer_settled r (push_signalled data)) in H2.
  destruct extend; [now apply addToTimeout_settled | exact H2].
Qed.

Lemma handleSignal_eq (data : SignalData) (w : World) :
  handleSignal data w
  = if youStart data then
      match pc (connection w) with
      | None => snd (createPeer true w)
      | Some _ => w
      end
    else if first data && negb (activeIn w) then
      deliver data false (Some (fst (createPeer false w)))
        (updPeer (fst (createPeer false w)) (set_peer_from (from data))
           (snd (createPeer false w)))
    else deliver data true (pc (connection w)) w.
Proof.
  unfold handleSignal. destruct (youStart data); [reflexivity|].
  destruct (first data && negb (activeIn w)).
  - destruct (createPeer false w) as [r w1]. reflexivity.
  - reflexivity.
Qed.

Lemma handleSignal_settled (data : SignalData) (w : World) :
  settledWorld w -> settledWorld (handleSignal data w).
Proof.
  intros H. rewrite handleSignal_eq.
  destruct (youStart data).
  - destruct (pc (connection w)); [exact H | now apply createPeer_settled].
  - destruct (first data && negb (activeIn w)).
    + now apply deliver_settled, updPeer_settled, createPeer_settled.
    + now apply deliver_settled.
Qed.

Lemma onIceStateChange_settled (r : nat) (state0 : string) (w : World) :
  settledWorld w -> settledWorld (onIceStateChange r state0 w).
Proof.
  intros H. unfold onIceStateChange.
  set (w1 := if String.eqb state0 "disconnected" then _ else w).
  assert (H1 : settledWorld w1).
  { subst w1. destruct (String.eqb state0 "disconnected"); [|exact H].
    apply timeoutPeer_settled, deathPing_sound, H. }
  clearbody w1.
  destruct (_ || _); [apply handlePeerSuccess_settled, H1 | exact H1].
Qed.

Lemma onClose_settled (r : nat) (w : World) :
  settledWorld w -> settledWorld (onClose r w).
Proof.
  intros H. unfold onClose.
  destruct (peerGarbage r w); [exact H | apply handlePeerFail_settled, H].
Qed.

Lemma handlePong_settled (id : nat) (w : World) :
  settledWorld w -> settledWorld (handlePong id w).
Proof.
  intros H. unfold handlePong.
  set (w1 := match pings w !! id with Some _ => _ | None => w end).
  assert (H1 : settledWorld w1).
  { subst w1. destruct (pings w !! id) as [p|]; [|exact H].
    destruct (promises w !! p); [now apply resolve_settled_world | exact H]. }
  clearbody w1. revert H1. apply quiet_settled; reflexivity.
Qed.

Lemma runJobs_settled (jobs : list (Reaction * option Z)) (w : World) :
  settledWorld w -> settledWorld (runJobs jobs w).
Proof.
  revert w. induction jobs as [|[[] ms] rest IH]; intros w H; [exact H|].
  cbn [runJobs]. apply IH. unfold runReaction.
  destruct (JS.truthy_num ms); [exact H | apply handlePeerFail_settled, H].
Qed.

Lemma turn_settled (handler : World -> World) (w : World) :
  settledWorld (handler w) -> settledWorld (turn handler w).
Proof.
  intros H. unfold turn, drain. apply runJobs_settled.
  revert H. apply quiet_settled; reflexivity.
Qed.

(** A timer that fires has left the table before its callback runs; the
    deadline callback re-establishes the deadline fields itself. *)
Lemma fireTimer_settled (t : nat) (w : World) :
  settledWorld w -> settledWorld (fireTimer t w).
Proof.
  intros H. unfold fireTimer.
  destruct (timers w !! t) as [tm|] eqn:Et; [|exact H].
  destruct (fireAt tm <=? clock w); [|exact H].
  set (w1 := set_timers (delete t (timers w)) (nextTimer w) w).
  assert (Hs : sound w1).
  { destruct H as [[Hv [Hb1 Hb2]] _]. split; [exact Hv | split].
    - intros t0 tm0 H0. cbn in H0. apply lookup_delete_Some in H0 as [_ H0].
      eapply Hb1, H0.
    - exact Hb2. }
  destruct (action tm) as [|id p] eqn:Ea; cbn [runTimer].
  - apply handlePeerFail_settled, Hs.
  - assert (H1 : settledWorld w1).
    { split; [exact Hs|]. destruct H as [_ Ha]. unfold deadlineArmed in *.
      cbn [w1 connection timers set_timers].
      destruct (timeout (connection w)) as [t0|]; [|exact I].
      destruct Ha as (due & Ha & He). exists due. split; [|exact He].
      rewrite lookup_delete_ne; [exact Ha|].
      intros ->. rewrite Et in Ha. injection Ha as ->. cbn in Ea. discriminate. }
    clearbody w1.
    apply (quiet_settled (resolve p None w1)); try reflexivity.
    now apply resolve_settled_world.
Qed.

Lemma onSignal_settled (r : nat) (selfId : string) (data : SignalData)
    (w : World) :
  settledWorld w -> settledWorld (onSignal r selfId data w).
Proof.
  intros H. unfold onSignal. destruct (heap w !! r) as [p|]; [|exact H].
  destruct (didSignal p).
  - now apply broadcast_settled.
  - now apply broadcast_settled, updPeer_settled.
Qed.

Lemma addStreamToPeer_settled (stream : option string) (name : string)
    (outcome : AddOutcome) (w : World) :
  settledWorld w -> settledWorld (snd (addStreamToPeer stream name outcome w)).
Proof.
  intros H. unfold addStreamToPeer.
  destruct (pc (connection w)) as [r|]; [|exact H].
  destruct (heap w !! r) as [p|]; [|exact H].
  destruct (destroyed p); [exact H|].
  destruct (match _ with Some old => _ | None => false end); [exact H|].
  destruct stream as [s|]; [destruct outcome|]; cbn [snd];
    repeat apply updPeer_settled; exact H.
Qed.

Lemma react_settled (i : Input) (w : World) :
  settledWorld w -> settledWorld (react i w).
Proof.
  intros H. destruct i; cbn [react].
  - apply turn_settled, connectPeer_settled, H.
  - now apply turn_settled, handleSignal_settled.
  - apply turn_settled. revert H. apply quiet_settled; reflexivity.
  - now apply turn_settled, handlePong_settled.
  - now apply turn_settled, fireTimer_settled.
  - apply turn_settled, handlePeerSuccess_settled, H.
  - apply turn_settled. unfold onError. now destruct (peerGarbage r w).
  - now apply turn_settled, onIceStateChange_settled.
  - now apply turn_settled, onClose_settled.
  - revert H. apply quiet_settled; reflexivity.
  - now apply turn_settled, onSignal_settled.
  - now apply turn_settled, addStreamToPeer_settled.
  - now apply updPeer_settled.
Qed.

(** Whatever the environment does to a fresh Connection, [pc] points
    into the heap, handles are below the allocator, and a held timer
    handle is a pending deadline due at [timeoutEnd]. *)
Lemma run_settled (inputs : list Input) (now : Z) (sw : Swarm)
    (peer conn : string) :
  settledWorld (run inputs (freshWorld now sw (newConnection peer conn))).
Proof.
  assert (H0 : settledWorld (freshWorld now sw (newConnection peer conn))).
  { split; [split; [exact I | split]|exact I].
    - intros t tm H. cbn in H. now rewrite lookup_empty in H.
    - intros t H. discriminate. }
  revert H0. generalize (freshWorld now sw (newConnection peer conn)).
  induction inputs as [|i rest IH]; intros w H; [exact H|].
  cbn [run]. now apply IH, react_settled.
Qed.

(** The hypotheses the deadline and teardown theorems ask for hold in
    every such world. *)
Lemma settled_deadline (w : World) (t : nat) :
  settledWorld w -> timeout (connection w) = Some t ->
  exists due : Z,
    timers w !! t = Some {| fireAt := due; action := DeadlineFired |}
    /\ timeoutEnd (connection w) = Some due /\ (t < nextTimer w)%nat.
Proof.
  intros [[_ [_ Hb]] Ha] Ht. unfold deadlineArmed in Ha. rewrite Ht in Ha.
  destruct Ha as (due & H1 & H2). exists due. repeat split; auto.
Qed.

End Invariant.

(** ** Properties kept by every step are kept by every turn *)

Section Closure.

Variables Pw Ps : World -> Prop.
Hypothesis closed : Closed Pw Ps.

Lemma keeps_set_peer_from (v : option string) : keepsIdentity (set_peer_from v).
Proof. intros p. repeat split; try reflexivity; intros H; exact H. Qed.

Lemma keeps_set_peer_remoteStreamIds (v : option (list (string * string))) :
  keepsIdentity (set_peer_remoteStreamIds v).
Proof. intros p. repeat split; try reflexivity; intros H; exact H. Qed.

Lemma keeps_push_signalled (d : SignalData) : keepsIdentity (push_signalled d).
Proof. intros p. repeat split; try reflexivity; intros H; exact H. Qed.

Lemma keeps_set_didSignal (v : bool) : keepsIdentity (set_didSignal v).
Proof. intros p. repeat split; try reflexivity; intros H; exact H. Qed.

Lemma keeps_assign (name : string) (v : option string) :
  keepsIdentity (fun q => set_streams (assignStream name v (streams q)) q).
Proof. intros p. repeat split; try reflexivity; intros H; exact H. Qed.

Lemma keeps_set_destroyed : keepsIdentity (set_destroyed true).
Proof. intros p. repeat split; reflexivity. Qed.

(** [connectPeer] written on the world in which it decides. *)
Lemma connectPeer_armed (w : World) :
  connectPeer w
  = if activeIn (armed w) then snd (createPeer true (armed w))
    else retire (pc (connection (armed w)))
           (broadcast (peerId (connection (armed w)))
              (MsgSignal (connId (connection (armed w)))
                 (Some {| state := sharedState (swarm (armed w));
                          time := sharedStateTime (swarm (armed w)) |})
                 youStartData) (armed w)).
Proof.
  unfold connectPeer. fold (armed w). cbv zeta.
  destruct (activeIn (armed w)); [reflexivity|].
  unfold retire. now rewrite broadcast_connection.
Qed.

Lemma closed_connectPeer (w : World) : Ps w -> Ps (connectPeer w).
Proof using closed.
  intros H. rewrite connectPeer_armed.
  assert (Ha : Ps (armed w))
    by (apply (cl_timeoutPeer _ _ closed), (cl_deathPing _ _ closed), H).
  generalize dependent (armed w). intros w1 H1.
  destruct (activeIn w1).
  - apply (cl_createPeer _ _ closed); [discriminate | exact H1].
  - apply (cl_youStart _ _ closed) in H1.
    apply (cl_retire _ _ closed) in H1. exact H1.
Qed.

Lemma failing_window (forcedFail : bool) (w : World) :
  failing forcedFail w
  = updConn (set_lastFailure
               (Some (JS.or_num
                        (lastFailure
                           (connection
                              (stopTimeout (record (CallFail forcedFail) w))))
                        (clock (stopTimeout (record (CallFail forcedFail) w))))))
      (stopTimeout (record (CallFail forcedFail) w)).
Proof. unfold failing. rewrite stopTimeout_eq. reflexivity. Qed.

Lemma closed_handlePeerFail (forcedFail : bool) (w : World) :
  Pw w -> Ps (handlePeerFail forcedFail w).
Proof using closed.
  intros H. rewrite handlePeerFail_eq.
  assert (Hf : Ps (failing forcedFail w)).
  { apply (cl_record _ _ closed (CallFail forcedFail)) in H.
    apply (cl_stopTimeout _ _ closed) in H.
    apply (cl_window _ _ closed) in H.
    rewrite failing_window. exact H. }
  destruct (forcedFail || _).
  - now apply (cl_emit _ _ closed).
  - now apply closed_connectPeer.
Qed.

Lemma closed_deliver (data : SignalData) (extend : bool) (peer : option nat)
    (w : World) :
  Ps w -> Ps (deliver data extend peer w).
Proof using closed.
  intros H. unfold deliver.
  destruct peer as [r|]; [|now apply closed_connectPeer].
  destruct (heap w !! r) as [p|]; [|now apply closed_connectPeer].
  destruct (destroyed p); [now apply closed_connectPeer|].
  cbv zeta.
  assert (H1 : Ps (if negb (JS.truthy_str (peer_from p))
                   then updPeer r (set_peer_from (from data)) w else w)).
  { destruct (negb _); [|exact H].
    apply (cl_updPeer _ _ closed); [apply keeps_set_peer_from | exact H]. }
  generalize dependent (if negb (JS.truthy_str (peer_from p))
                        then updPeer r (set_peer_from (from data)) w else w).
  intros w1 H1.
  destruct (JS.sne _ (from data)); [exact H1|].
  assert (H2 : Ps (addPeerMetaData r (meta data) w1)).
  { unfold addPeerMetaData. destruct (meta data); [|exact H1].
    apply (cl_updPeer _ _ closed);
      [apply keeps_set_peer_remoteStreamIds | exact H1]. }
  apply (cl_updPeer _ _ closed r (push_signalled data)) in H2;
    [|apply keeps_push_signalled].
  destruct extend; [|exact H2].
  unfold addToTimeout. destruct (timeout (connection _)); [|exact H2].
  now apply (cl_timeoutPeer _ _ closed).
Qed.

Lemma closed_handleSignal (data : SignalData) (w : World) :
  Ps w -> Ps (handleSignal data w).
Proof using closed.
  intros H. rewrite handleSignal_eq.
  destruct (youStart data).
  - destruct (pc (connection w)); [exact H|].
    apply (cl_createPeer _ _ closed); [discriminate | exact H].
  - destruct (first data && negb (activeIn w)) eqn:E.
    + apply closed_deliver, (cl_updPeer _ _ closed);
        [apply keeps_set_peer_from|].
      apply (cl_createPeer _ _ closed); [|exact H].
      intros _. apply andb_true_iff in E as [_ E].
      now apply negb_true_iff in E.
    + now apply closed_deliver.
Qed.

Lemma closed_runJobs (jobs : list (Reaction * option Z)) (w : World) :
  Ps w -> Ps (runJobs jobs w).
Proof using closed.
  revert w. induction jobs as [|[[] ms] rest IH]; intros w H; [exact H|].
  cbn [runJobs]. apply IH. unfold runReaction.
  destruct (JS.truthy_num ms); [exact H|].
  apply closed_handlePeerFail, (cl_weaken _ _ closed), H.
Qed.

Lemma closed_turn (handler : World -> World) (w : World) :
  Ps (handler w) -> Ps (turn handler w).
Proof using closed.
  intros H. unfold turn, drain.
  apply closed_runJobs, (cl_checkpoint _ _ closed), H.
Qed.

Lemma closed_fireTimer (t : nat) (w : World) : Ps w -> Ps (fireTimer t w).
Proof using closed.
  intros H. unfold fireTimer.
  destruct (timers w !! t) as [tm|] eqn:Et; [|exact H].
  destruct (fireAt tm <=? clock w); [|exact H].
  destruct (action tm) as [|id p] eqn:Ea.
  - cbn [runTimer]. apply closed_handlePeerFail.
    now apply (cl_deadline _ _ closed t tm).
  - now apply (cl_expire _ _ closed t tm).
Qed.

Lemma closed_addStreamToPeer (stream : option string) (name : string)
    (outcome : AddOutcome) (w : World) :
  Ps w -> Ps (snd (addStreamToPeer stream name outcome w)).
Proof using closed.
  intros H. unfold addStreamToPeer.
  destruct (pc (connection w)) as [r|]; [|exact H].
  destruct (heap w !! r) as [p|]; [|exact H].
  destruct (destroyed p); [exact H|].
  destruct (match _ with Some old => _ | None => false end); [exact H|].
  destruct stream as [s|]; [destruct outcome|]; cbn [snd];
    repeat (apply (cl_updPeer _ _ closed); [apply keeps_assign|]); exact H.
Qed.

(** Every input but a reported success. *)
Lemma closed_react_quiet (i : Input) (w : World) :
  reportsSuccess i = false -> Ps w -> Ps (react i w).
Proof using closed.
  intros Hi H. destruct i; cbn [react]; try apply closed_turn.
  - now apply closed_connectPeer.
  - now apply closed_handleSignal.
  - now apply (cl_handlePing _ _ closed).
  - now apply (cl_handlePong _ _ closed).
  - now apply closed_fireTimer.
  - discriminate.
  - unfold onError. now destruct (peerGarbage r w).
  - unfold onIceStateChange. cbn [reportsSuccess] in Hi. rewrite Hi.
    destruct (String.eqb state0 "disconnected"); [|exact H].
    apply (cl_timeoutPeer _ _ closed), (cl_deathPing _ _ closed), H.
  - unfold onClose. destruct (peerGarbage r w); [exact H|].
    apply closed_handlePeerFail, (cl_weaken _ _ closed), H.
  - now apply (cl_advance _ _ closed).
  - now apply (cl_onSignal _ _ closed).
  - now apply closed_addStreamToPeer.
  - apply (cl_updPeer _ _ closed); [apply keeps_set_destroyed | exact H].
Qed.

Hypothesis success : forall w, Ps w -> Ps (handlePeerSuccess w).

Lemma closed_react (i : Input) (w : World) : Ps w -> Ps (react i w).
Proof using closed success.
  intros H. destruct (reportsSuccess i) eqn:Hi;
    [|now apply closed_react_quiet].
  destruct i; try discriminate; cbn [react]; apply closed_turn.
  - now apply success.
  - unfold onIceStateChange. cbn [reportsSuccess] in Hi. rewrite Hi.
    apply success.
    destruct (String.eqb state0 "disconnected"); [|exact H].
    apply (cl_timeoutPeer _ _ closed), (cl_deathPing _ _ closed), H.
Qed.

Lemma closed_run (inputs : list Input) (w : World) :
  Ps w -> Ps (run inputs w).
Proof using closed success.
  revert w. induction inputs as [|i rest IH]; intros w H; [exact H|].
  cbn [run]. now apply IH, closed_react.
Qed.

End Closure.

(** * Further properties *)

(** ** Footprints *)

Lemma createPeer_footprint (i : bool) (w : World) :
  let w' := snd (createPeer i w) in
  timers w' = timers w /\ nextTimer w' = nextTimer w /\
  pings w' = pings w /\ pingCount w' = pingCount w /\
  promises w' = promises w /\ microtasks w' = microtasks w /\
  outbox w' = outbox w /\ emitted w' = emitted w /\
  clock w' = clock w /\ swarm w' = swarm w /\
  connection w' = set_pc (Some (length (heap w))) (connection w) /\
  heap w' = heap (retire (pc (connection w)) w) ++ [newPeer i w].
Proof.
  cbv zeta. rewrite createPeer_eq. cbn [snd].
  pose proof (retire_frame (pc (connection w)) w) as F. cbv zeta in F.
  destruct F as (Hc & Hk & Hs & Ht & Hn & Hpc & Hp & Hpr & Hm & Ho & He & _).
  unfold updConn, set_heap, set_connection.
  cbn [timers nextTimer pings pingCount promises microtasks outbox emitted
       clock swarm connection heap].
  rewrite Hc, Hk, Hs, Ht, Hn, Hpc, Hp, Hpr, Hm, Ho, He.
  repeat split; reflexivity.
Qed.

Lemma handlePong_footprint (id : nat) (w : World) :
  let w' := handlePong id w in
  timers w' = timers w /\ nextTimer w' = nextTimer w /\
  connection w' = connection w /\ heap w' = heap w /\
  outbox w' = outbox w /\ emitted w' = emitted w /\
  clock w' = clock w /\ swarm w' = swarm w /\ calls w' = calls w /\
  pingCount w' = pingCount w /\ pings w' = delete id (pings w).
Proof.
  cbv zeta. unfold handlePong.
  destruct (pings w !! id) as [p|]; [|repeat split; reflexivity].
  destruct (promises w !! p) as [pr|] eqn:Ep; [|repeat split; reflexivity].
  unfold resolve. rewrite Ep.
  destruct (settled pr); repeat split; reflexivity.
Qed.

Lemma expire_footprint (t id p : nat) (w : World) :
  let w' := runTimer (PingExpired id p)
              (set_timers (delete t (timers w)) (nextTimer w) w) in
  timers w' = delete t (timers w) /\ nextTimer w' = nextTimer w /\
  connection w' = connection w /\ heap w' = heap w /\
  outbox w' = outbox w /\ emitted w' = emitted w /\
  clock w' = clock w /\ swarm w' = swarm w /\ calls w' = calls w /\
  pingCount w' = pingCount w /\ pings w' = delete id (pings w).
Proof.
  cbv zeta. unfold runTimer, resolve. cbn [promises set_timers].
  destruct (promises w !! p) as [pr|]; [|repeat split; reflexivity].
  destruct (settled pr); repeat split; reflexivity.
Qed.

Lemma onSignal_footprint (r : nat) (selfId : string) (data : SignalData)
    (w : World) :
  let w' := onSignal r selfId data w in
  timers w' = timers w /\ nextTimer w' = nextTimer w /\
  connection w' = connection w /\
  length (heap w') = length (heap w) /\
  emitted w' = emitted w /\ clock w' = clock w /\ swarm w' = swarm w /\
  calls w' = calls w /\ pingCount w' = pingCount w /\ pings w' = pings w /\
  promises w' = promises w /\ microtasks w' = microtasks w.
Proof.
  cbv zeta. unfold onSignal.
  destruct (heap w !! r) as [p|]; [|repeat split; reflexivity].
  destruct (didSignal p); repeat split; try reflexivity.
  unfold broadcast, updPeer, set_outbox, set_heap. cbn [heap].
  apply length_alter.
Qed.

Lemma handlePeerSuccess_eq (w : World) :
  handlePeerSuccess w
  = stopTimeout (updConn (set_lastFailure None) (record CallSuccess w)).
Proof. reflexivity. Qed.

(** ** One deadline at a time *)

Lemma oneDeadline_quiet (w w' : World) :
  timers w' = timers w ->
  timeout (connection w') = timeout (connection w) ->
  oneDeadline w -> oneDeadline w'.
Proof. intros Ht Hc H t tm. rewrite Ht, Hc. apply H. Qed.

Lemma oneDeadline_cleared (w : World) (t : nat) (tm : Timer) :
  oneDeadline w -> withoutDeadline w !! t = Some tm ->
  action tm <> DeadlineFired.
Proof.
  intros H Ht Ha. unfold withoutDeadline in Ht.
  destruct (timeout (connection w)) as [t0|] eqn:E.
  - apply lookup_delete_Some in Ht as [Hne Ht].
    specialize (H t tm Ht Ha). congruence.
  - specialize (H t tm Ht Ha). congruence.
Qed.

Lemma oneDeadline_delete (t : nat) (w : World) :
  oneDeadline w ->
  oneDeadline (set_timers (delete t (timers w)) (nextTimer w) w).
Proof.
  intros H t0 tm Ht. cbn in Ht. apply lookup_delete_Some in Ht as [_ Ht].
  apply (H t0 tm Ht).
Qed.

Lemma oneDeadline_stopTimeout (w : World) :
  oneDeadline w -> oneDeadline (stopTimeout w).
Proof.
  intros H t tm Ht Ha. rewrite stopTimeout_eq in Ht. cbn in Ht.
  now apply (oneDeadline_cleared w t tm H) in Ht.
Qed.

Lemma oneDeadline_closed : Closed oneDeadline oneDeadline.
Proof.
  constructor.
  - auto.
  - intros c w. apply oneDeadline_quiet; reflexivity.
  - apply oneDeadline_stopTimeout.
  - intros w. apply oneDeadline_quiet; reflexivity.
  - intros w. apply oneDeadline_quiet; reflexivity.
  - intros w H t tm. rewrite deathPing_eq. cbn [timers connection].
    destruct (decide (t = nextTimer w)) as [->|Hne].
    + rewrite lookup_insert_eq. intros [= <-]. discriminate.
    + rewrite lookup_insert_ne by congruence. apply H.
  - intros delay message w H t tm.
    rewrite timeoutPeer_timers, timeoutPeer_timeout.
    destruct (decide (t = nextTimer w)) as [->|Hne]; [reflexivity|].
    rewrite lookup_insert_ne by congruence. intros Ht Ha.
    now apply (oneDeadline_cleared w t tm H) in Ht.
  - intros w. apply oneDeadline_quiet; reflexivity.
  - intros w. pose proof (retire_frame (pc (connection w)) w) as F.
    cbv zeta in F. destruct F as (Hc & _ & _ & Ht & _).
    apply oneDeadline_quiet; [exact Ht | now rewrite Hc].
  - intros i w _. pose proof (createPeer_footprint i w) as F.
    cbv zeta in F. destruct F as (Ht & _ & _ & _ & _ & _ & _ & _ & _ & _ & Hc & _).
    apply oneDeadline_quiet; [exact Ht | now rewrite Hc].
  - intros r f w _. apply oneDeadline_quiet; reflexivity.
  - intros id w. pose proof (handlePong_footprint id w) as F.
    cbv zeta in F. destruct F as (Ht & _ & Hc & _).
    apply oneDeadline_quiet; [exact Ht | now rewrite Hc].
  - intros t tm id p w _ _ H. pose proof (expire_footprint t id p w) as F.
    cbv zeta in F. destruct F as (Ht & _ & Hc & _).
    apply (oneDeadline_quiet (set_timers (delete t (timers w)) (nextTimer w) w));
      [exact Ht | now rewrite Hc | now apply oneDeadline_delete].
  - intros t tm w _ _. apply oneDeadline_delete.
  - intros w. apply oneDeadline_quiet; reflexivity.
  - intros ms w. apply oneDeadline_quiet; reflexivity.
  - intros sender senderConn id w. apply oneDeadline_quiet; reflexivity.
  - intros r selfId data w. pose proof (onSignal_footprint r selfId data w) as F.
    cbv zeta in F. destruct F as (Ht & _ & Hc & _).
    apply oneDeadline_quiet; [exact Ht | now rewrite Hc].
Qed.

Lemma oneDeadline_success (w : World) :
  oneDeadline w -> oneDeadline (handlePeerSuccess w).
Proof.
  intros H. rewrite handlePeerSuccess_eq. apply oneDeadline_stopTimeout.
  revert H. apply oneDeadline_quiet; reflexivity.
Qed.

(** Whatever the environment does to a fresh Connection, the timer table
    never holds a deadline timer other than the one whose handle the
    Connection keeps: there are never two, and a deadline that was
    replaced or cleared cannot fire. *)
Theorem run_oneDeadline (inputs : list Input) (now : Z) (sw : Swarm)
    (peer conn : string) :
  oneDeadline (run inputs (freshWorld now sw (newConnection peer conn))).
Proof.
  apply (closed_run _ _ oneDeadline_closed oneDeadline_success).
  intros t tm Ht. cbn in Ht. now rewrite lookup_empty in Ht.
Qed.

(** ** One live instance *)

Lemma oneLive_quiet (w w' : World) :
  heap w' = heap w -> pc (connection w') = pc (connection w) ->
  oneLive w -> oneLive w'.
Proof. intros Hh Hc H r p. rewrite Hh, Hc. apply H. Qed.

Lemma oneLive_updPeer (r : nat) (f : Peer -> Peer) (w : World) :
  keepsIdentity f -> oneLive w -> oneLive (updPeer r f w).
Proof.
  intros Hf H r0 p0. unfold updPeer, set_heap. cbn [heap connection].
  rewrite list_lookup_alter.
  destruct (decide (r = r0)) as [->|Hne]; [|apply H].
  destruct (heap w !! r0) as [p|] eqn:E; cbn; [|intros [=]].
  intros [= <-]. destruct (Hf p) as (_ & Hg & Hd & _).
  destruct (H r0 p E) as [H1 H2]. rewrite Hg. split; [|exact H2].
  intros G. apply Hd, H1, G.
Qed.

(** After the teardown every instance of the heap is retired. *)
Lemma retire_all_retired (w : World) (r : nat) (p : Peer) :
  oneLive w -> heap (retire (pc (connection w)) w) !! r = Some p ->
  garbage p = true /\ destroyed p = true.
Proof.
  intros H. rewrite retire_heap.
  destruct (pc (connection w)) as [old|] eqn:Epc.
  - destruct (decide (old = r)) as [->|Hne].
    + rewrite !list_lookup_alter_eq.
      destruct (heap w !! r); cbn; [|intros [=]].
      intros [= Heq]. subst p. split; reflexivity.
    + rewrite !list_lookup_alter_ne by exact Hne.
      intros Hp. destruct (H r p Hp) as [Hg Hpc].
      destruct (garbage p); [split; [reflexivity | now apply Hg]|].
      specialize (Hpc eq_refl). congruence.
  - intros Hp. destruct (H r p Hp) as [Hg Hpc].
    destruct (garbage p); [split; [reflexivity | now apply Hg]|].
    specialize (Hpc eq_refl). congruence.
Qed.

Lemma oneLive_retire (w : World) :
  oneLive w -> oneLive (retire (pc (connection w)) w).
Proof.
  intros H r p Hp. destruct (retire_all_retired w r p H Hp) as [Hg Hd].
  rewrite Hg, Hd. split; [reflexivity | discriminate].
Qed.

Lemma oneLive_createPeer (i : bool) (w : World) :
  oneLive w -> oneLive (snd (createPeer i w)).
Proof.
  intros H r p. pose proof (createPeer_footprint i w) as F. cbv zeta in F.
  destruct F as (_ & _ & _ & _ & _ & _ & _ & _ & _ & _ & Hc & Hh).
  rewrite Hh, Hc. cbn [pc set_pc].
  pose proof (retire_frame (pc (connection w)) w) as R. cbv zeta in R.
  destruct R as (_ & _ & _ & _ & _ & _ & _ & _ & _ & _ & _ & Hl).
  intros Hp. apply lookup_app_Some in Hp as [Hp | [Hge Hp]].
  - destruct (retire_all_retired w r p H Hp) as [Hg Hd].
    rewrite Hg, Hd. split; [reflexivity | discriminate].
  - rewrite Hl in Hge, Hp.
    destruct (r - length (heap w))%nat as [|k] eqn:Ek; [|destruct k; discriminate].
    injection Hp as <-. cbn [newPeer garbage destroyed].
    split; [discriminate|]. intros _. f_equal. lia.
Qed.

Lemma oneLive_closed : Closed oneLive oneLive.
Proof.
  constructor.
  - auto.
  - intros c w. apply oneLive_quiet; reflexivity.
  - intros w. rewrite stopTimeout_eq. apply oneLive_quiet; reflexivity.
  - intros w. apply oneLive_quiet; reflexivity.
  - intros w. apply oneLive_quiet; reflexivity.
  - intros w. rewrite deathPing_eq. apply oneLive_quiet; reflexivity.
  - intros delay message w.
    pose proof (timeoutPeer_frame delay message w) as F. cbv zeta in F.
    destruct F as (_ & _ & Hh & Hp & _). now apply oneLive_quiet.
  - intros w. apply oneLive_quiet; reflexivity.
  - apply oneLive_retire.
  - intros i w _. apply oneLive_createPeer.
  - apply oneLive_updPeer.
  - intros id w. pose proof (handlePong_footprint id w) as F.
    cbv zeta in F. destruct F as (_ & _ & Hc & Hh & _).
    apply oneLive_quiet; [exact Hh | now rewrite Hc].
  - intros t tm id p w _ _. pose proof (expire_footprint t id p w) as F.
    cbv zeta in F. destruct F as (_ & _ & Hc & Hh & _).
    apply oneLive_quiet; [exact Hh | now rewrite Hc].
  - intros t tm w _ _. apply oneLive_quiet; reflexivity.
  - intros w. apply oneLive_quiet; reflexivity.
  - intros ms w. apply oneLive_quiet; reflexivity.
  - intros sender senderConn id w. apply oneLive_quiet; reflexivity.
  - intros r selfId data w H. unfold onSignal.
    destruct (heap w !! r) as [p|]; [|exact H].
    destruct (didSignal p).
    + revert H. apply oneLive_quiet; reflexivity.
    + apply (oneLive_quiet (updPeer r (set_didSignal true) w));
        [reflexivity | reflexivity|].
      apply oneLive_updPeer; [apply keeps_set_didSignal | exact H].
Qed.

Lemma oneLive_success (w : World) : oneLive w -> oneLive (handlePeerSuccess w).
Proof.
  rewrite handlePeerSuccess_eq, stopTimeout_eq.
  apply oneLive_quiet; reflexivity.
Qed.

(** Whatever the environment does to a fresh Connection, and whichever
    instances the transport destroys on its own, an instance the module
    has marked garbage has been destroyed, and every instance other than
    the one the Connection holds in [pc] is marked garbage: at most one
    instance is not destroyed at any time, and it is the one in [pc]. *)
Theorem run_oneLive (inputs : list Input) (now : Z) (sw : Swarm)
    (peer conn : string) :
  oneLive (run inputs (freshWorld now sw (newConnection peer conn))).
Proof.
  apply (closed_run _ _ oneLive_closed oneLive_success).
  intros r p Hp. cbn in Hp. discriminate.
Qed.

(** ** The active side holds initiators only *)

Lemma activeIn_same (w w' : World) :
  swarm w' = swarm w -> connection w' = connection w ->
  activeIn w' = activeIn w.
Proof. intros Hs Hc. unfold activeIn. now rewrite Hs, Hc. Qed.

Lemma initiatorsOnly_quiet (w w' : World) :
  activeIn w' = activeIn w -> heap w' = heap w ->
  initiatorsOnly w -> initiatorsOnly w'.
Proof. intros Ha Hh H. unfold initiatorsOnly. rewrite Ha, Hh. exact H. Qed.

Lemma initiatorsOnly_alter (r : nat) (f : Peer -> Peer) (w w' : World) :
  (forall p, initiator (f p) = initiator p) ->
  activeIn w' = activeIn w -> heap w' = alter f r (heap w) ->
  initiatorsOnly w -> initiatorsOnly w'.
Proof.
  intros Hf Ha Hh H. unfold initiatorsOnly. rewrite Ha, Hh.
  intros Hact r0 p0. destruct (decide (r = r0)) as [->|Hne].
  - rewrite list_lookup_alter_eq.
    destruct (heap w !! r0) as [p|] eqn:E; cbn; [|intros [=]].
    intros [= Heq]. subst p0. rewrite Hf. now apply (H Hact r0).
  - rewrite list_lookup_alter_ne by exact Hne. now apply H.
Qed.

Lemma initiatorsOnly_retire (old : option nat) (w : World) :
  initiatorsOnly w -> initiatorsOnly (retire old w).
Proof.
  intros H. destruct old as [r|]; [|exact H]. unfold retire, destroy.
  apply (initiatorsOnly_alter r (set_destroyed true)
           (record (CallDestroy r (peerGarbage r (updPeer r (set_garbage true) w)))
              (updPeer r (set_garbage true) w)));
    [reflexivity | reflexivity | reflexivity|].
  apply (initiatorsOnly_alter r (set_garbage true) w);
    [reflexivity | reflexivity | reflexivity | exact H].
Qed.

Lemma initiatorsOnly_createPeer (i : bool) (w : World) :
  (i = false -> activeIn w = false) ->
  initiatorsOnly w -> initiatorsOnly (snd (createPeer i w)).
Proof.
  intros Hi H. pose proof (createPeer_footprint i w) as F. cbv zeta in F.
  destruct F as (_ & _ & _ & _ & _ & _ & _ & _ & _ & Hs & Hc & Hh).
  assert (Ha : activeIn (snd (createPeer i w)) = activeIn w).
  { unfold activeIn. now rewrite Hs, Hc. }
  unfold initiatorsOnly. rewrite Ha, Hh. intros Hact r p Hp.
  apply lookup_app_Some in Hp as [Hp | [_ Hp]].
  - pose proof (retire_frame (pc (connection w)) w) as R. cbv zeta in R.
    destruct R as (Rc & _ & Rs & _).
    apply (initiatorsOnly_retire (pc (connection w)) w H) with (r := r);
      [|exact Hp].
    now rewrite (activeIn_same w _ Rs Rc).
  - destruct (r - _)%nat as [|k]; [|destruct k; discriminate].
    injection Hp as <-. cbn [newPeer initiator].
    destruct i; [reflexivity|]. rewrite Hi in Hact; [discriminate | reflexivity].
Qed.

Lemma initiatorsOnly_closed : Closed initiatorsOnly initiatorsOnly.
Proof.
  constructor.
  - auto.
  - intros c w. apply initiatorsOnly_quiet; reflexivity.
  - intros w. rewrite stopTimeout_eq. apply initiatorsOnly_quiet; reflexivity.
  - intros w. apply initiatorsOnly_quiet; reflexivity.
  - intros w. apply initiatorsOnly_quiet; reflexivity.
  - intros w. rewrite deathPing_eq. apply initiatorsOnly_quiet; reflexivity.
  - intros delay message w.
    pose proof (timeoutPeer_frame delay message w) as F. cbv zeta in F.
    destruct F as (_ & Hs & Hh & _ & Hi & Hc & _).
    apply initiatorsOnly_quiet; [|exact Hh].
    unfold activeIn. now rewrite Hs, Hi, Hc.
  - intros w. apply initiatorsOnly_quiet; reflexivity.
  - intros w. apply initiatorsOnly_retire.
  - apply initiatorsOnly_createPeer.
  - intros r f w Hf. apply (initiatorsOnly_alter r f);
      [intros p; apply Hf | reflexivity | reflexivity].
  - intros id w. pose proof (handlePong_footprint id w) as F.
    cbv zeta in F. destruct F as (_ & _ & Hc & Hh & _ & _ & _ & Hs & _).
    apply initiatorsOnly_quiet; [now apply activeIn_same | exact Hh].
  - intros t tm id p w _ _. pose proof (expire_footprint t id p w) as F.
    cbv zeta in F. destruct F as (_ & _ & Hc & Hh & _ & _ & _ & Hs & _).
    apply initiatorsOnly_quiet; [now apply activeIn_same | exact Hh].
  - intros t tm w _ _. apply initiatorsOnly_quiet; reflexivity.
  - intros w. apply initiatorsOnly_quiet; reflexivity.
  - intros ms w. apply initiatorsOnly_quiet; reflexivity.
  - intros sender senderConn id w. apply initiatorsOnly_quiet; reflexivity.
  - intros r selfId data w H. unfold onSignal.
    destruct (heap w !! r) as [p|]; [|exact H].
    destruct (didSignal p).
    + revert H. apply initiatorsOnly_quiet; reflexivity.
    + revert H. apply (initiatorsOnly_alter r (set_didSignal true));
        reflexivity.
Qed.

Lemma initiatorsOnly_success (w : World) :
  initiatorsOnly w -> initiatorsOnly (handlePeerSuccess w).
Proof.
  rewrite handlePeerSuccess_eq, stopTimeout_eq.
  apply initiatorsOnly_quiet; reflexivity.
Qed.

(** Whatever the environment does to a fresh Connection on the side the
    tie-break makes active, every instance it has ever created was
    created as an initiator: a receiver is only ever created by the side
    that is not active. *)
Theorem run_initiatorsOnly (inputs : list Input) (now : Z) (sw : Swarm)
    (peer conn : string) :
  initiatorsOnly (run inputs (freshWorld now sw (newConnection peer conn))).
Proof.
  apply (closed_run _ _ initiatorsOnly_closed initiatorsOnly_success).
  intros _ r p Hp. cbn in Hp. discriminate.
Qed.

(** ** Who the messages go to *)

Lemma toRemote_same (w w' : World) (entry : string * Message) :
  peerId (connection w') = peerId (connection w) ->
  connId (connection w') = connId (connection w) ->
  toRemote w entry -> toRemote w' entry.
Proof. intros Hi Hc. unfold toRemote. now rewrite Hi, Hc. Qed.

Lemma addressed_step (w w' : World) (extra : list (string * Message)) :
  peerId (connection w') = peerId (connection w) ->
  connId (connection w') = connId (connection w) ->
  (forall r p', heap w' !! r = Some p' ->
     exists p, (heap w !! r = Some p \/ p = newPeer (initiator p') w) /\
               peer_peerId p' = peer_peerId p /\
               peer_connId p' = peer_connId p) ->
  outbox w' = outbox w ++ extra -> Forall (toRemote w) extra ->
  addressed w -> addressed w'.
Proof.
  intros Hi Hc Hh Ho He [H1 H2]. split.
  - intros r p' Hp'. rewrite Hi, Hc.
    destruct (Hh r p' Hp') as (p & [Hp | ->] & E1 & E2); rewrite E1, E2.
    + now apply (H1 r).
    + split; reflexivity.
  - rewrite Ho. apply Forall_app. split.
    + eapply Forall_impl; [exact H2|]. intros e. now apply toRemote_same.
    + eapply Forall_impl; [exact He|]. intros e. now apply toRemote_same.
Qed.

Lemma addressed_quiet (w w' : World) :
  connection w' = connection w -> heap w' = heap w -> outbox w' = outbox w ->
  addressed w -> addressed w'.
Proof.
  intros Hc Hh Ho. apply (addressed_step w w' []); try (now rewrite Hc).
  - intros r p' Hp'. rewrite Hh in Hp'. exists p'. auto.
  - now rewrite app_nil_r.
  - constructor.
Qed.

Lemma addressed_alter (r : nat) (f : Peer -> Peer) (w w' : World) :
  (forall p, peer_peerId (f p) = peer_peerId p /\
             peer_connId (f p) = peer_connId p) ->
  connection w' = connection w -> heap w' = alter f r (heap w) ->
  outbox w' = outbox w -> addressed w -> addressed w'.
Proof.
  intros Hf Hc Hh Ho. apply (addressed_step w w' []); try (now rewrite Hc).
  - intros r0 p' Hp'. rewrite Hh in Hp'.
    destruct (decide (r = r0)) as [->|Hne].
    + rewrite list_lookup_alter_eq in Hp'.
      destruct (heap w !! r0) as [p|] eqn:E; cbn in Hp'; [|discriminate].
      injection Hp' as <-. exists p. destruct (Hf p). auto.
    + rewrite list_lookup_alter_ne in Hp' by exact Hne. exists p'. auto.
  - now rewrite app_nil_r.
  - constructor.
Qed.

Lemma addressed_send (w : World) (m : Message) :
  toRemote w (peerId (connection w), m) ->
  addressed w -> addressed (broadcast (peerId (connection w)) m w).
Proof.
  intros Hm. apply (addressed_step w _ [(peerId (connection w), m)]);
    try reflexivity.
  - intros r p' Hp'. exists p'. auto.
  - now constructor.
Qed.

Lemma addressed_retire (old : option nat) (w : World) :
  addressed w -> addressed (retire old w).
Proof.
  intros H. destruct old as [r|]; [|exact H]. unfold retire, destroy.
  apply (addressed_alter r (set_destroyed true)
           (record (CallDestroy r (peerGarbage r (updPeer r (set_garbage true) w)))
              (updPeer r (set_garbage true) w)));
    try reflexivity; [now split|].
  apply (addressed_alter r (set_garbage true) w); try reflexivity;
    [now split | exact H].
Qed.

Lemma addressed_createPeer (i : bool) (w : World) :
  addressed w -> addressed (snd (createPeer i w)).
Proof.
  intros H. pose proof (createPeer_footprint i w) as F. cbv zeta in F.
  destruct F as (_ & _ & _ & _ & _ & _ & Ho & _ & _ & _ & Hc & Hh).
  pose proof (retire_frame (pc (connection w)) w) as R. cbv zeta in R.
  destruct R as (Rc & Rk & Rs & _ & _ & _ & _ & _ & _ & Ro & _).
  apply (addressed_retire (pc (connection w))) in H.
  apply (addressed_step (retire (pc (connection w)) w) _ []);
    try (now rewrite Hc, Rc); [| now rewrite Ho, Ro, app_nil_r | constructor | exact H].
  intros r p' Hp'. rewrite Hh in Hp'.
  apply lookup_app_Some in Hp' as [Hp' | [_ Hp']]; [exists p'; auto|].
  destruct (r - _)%nat as [|k]; [|destruct k; discriminate].
  injection Hp' as <-. exists (newPeer i w). split; [right|split; reflexivity].
  cbn [newPeer initiator]. apply newPeer_ext; now rewrite ?Rc, ?Rk, ?Rs.
Qed.

Lemma addressed_closed : Closed addressed addressed.
Proof.
  constructor.
  - auto.
  - intros c w. apply addressed_quiet; reflexivity.
  - intros w. rewrite stopTimeout_eq.
    apply (addressed_step w _ []); try reflexivity;
      [intros r p' Hp'; exists p'; auto | now rewrite app_nil_r | constructor].
  - intros w. apply (addressed_step w _ []); try reflexivity;
      [intros r p' Hp'; exists p'; auto | now rewrite app_nil_r | constructor].
  - intros w. apply addressed_quiet; reflexivity.
  - intros w. rewrite deathPing_eq.
    apply (addressed_step w _
             [(peerId (connection w),
               MsgPing (connId (connection w)) (pingCount w))]);
      try reflexivity; [intros r p' Hp'; exists p'; auto|].
    constructor; [now split | constructor].
  - intros delay message w.
    pose proof (timeoutPeer_frame delay message w) as F. cbv zeta in F.
    destruct F as (_ & _ & Hh & _ & Hi & Hc & Ho & _).
    apply (addressed_step w _ []); try assumption;
      [|now rewrite app_nil_r | constructor].
    intros r p' Hp'. rewrite Hh in Hp'. exists p'. auto.
  - intros w. apply addressed_send. now split.
  - intros w. apply addressed_retire.
  - intros i w _. apply addressed_createPeer.
  - intros r f w Hf. apply (addressed_alter r f); try reflexivity.
    intros p. destruct (Hf p) as (_ & _ & _ & H1 & H2). now split.
  - intros id w. pose proof (handlePong_footprint id w) as F.
    cbv zeta in F. destruct F as (_ & _ & Hc & Hh & Ho & _).
    now apply addressed_quiet.
  - intros t tm id p w _ _. pose proof (expire_footprint t id p w) as F.
    cbv zeta in F. destruct F as (_ & _ & Hc & Hh & Ho & _).
    now apply addressed_quiet.
  - intros t tm w _ _. apply addressed_quiet; reflexivity.
  - intros w. apply addressed_quiet; reflexivity.
  - intros ms w. apply addressed_quiet; reflexivity.
  - intros sender senderConn id w.
    apply (addressed_step w _ [(sender, MsgPong senderConn id)]);
      try reflexivity; [intros r p' Hp'; exists p'; auto|].
    constructor; [exact I | constructor].
  - intros r selfId data w H. unfold onSignal.
    destruct (heap w !! r) as [p|] eqn:Ep; [|exact H].
    destruct H as [H1 H2]. destruct (H1 r p Ep) as [Ei Ec].
    rewrite Ei, Ec. destruct (didSignal p).
    + apply addressed_send; [now split | now split].
    + apply (addressed_send (updPeer r (set_didSignal true) w)); [now split|].
      apply (addressed_alter r (set_didSignal true) w); try reflexivity;
        [now split | now split].
Qed.

Lemma addressed_success (w : World) :
  addressed w -> addressed (handlePeerSuccess w).
Proof.
  rewrite handlePeerSuccess_eq, stopTimeout_eq.
  apply (addressed_step w _ []); try reflexivity;
    [intros r p' Hp'; exists p'; auto | now rewrite app_nil_r | constructor].
Qed.

Lemma sameParties_step (w0 w w' : World) :
  swarm w' = swarm w -> peerId (connection w') = peerId (connection w) ->
  connId (connection w') = connId (connection w) ->
  sameParties w0 w -> sameParties w0 w'.
Proof. intros Hs Hi Hc. unfold sameParties. now rewrite Hs, Hi, Hc. Qed.

Lemma sameParties_closed (w0 : World) :
  Closed (sameParties w0) (sameParties w0).
Proof.
  constructor.
  - auto.
  - intros c w. apply sameParties_step; reflexivity.
  - intros w. rewrite stopTimeout_eq. apply sameParties_step; reflexivity.
  - intros w. apply sameParties_step; reflexivity.
  - intros w. apply sameParties_step; reflexivity.
  - intros w. rewrite deathPing_eq. apply sameParties_step; reflexivity.
  - intros delay message w.
    pose proof (timeoutPeer_frame delay message w) as F. cbv zeta in F.
    destruct F as (_ & Hs & _ & _ & Hi & Hc & _).
    now apply sameParties_step.
  - intros w. apply sameParties_step; reflexivity.
  - intros w. pose proof (retire_frame (pc (connection w)) w) as R.
    cbv zeta in R. destruct R as (Rc & _ & Rs & _).
    apply sameParties_step; now rewrite ?Rc.
  - intros i w _. pose proof (createPeer_footprint i w) as F. cbv zeta in F.
    destruct F as (_ & _ & _ & _ & _ & _ & _ & _ & _ & Hs & Hc & _).
    apply sameParties_step; now rewrite ?Hc.
  - intros r f w _. apply sameParties_step; reflexivity.
  - intros id w. pose proof (handlePong_footprint id w) as F.
    cbv zeta in F. destruct F as (_ & _ & Hc & _ & _ & _ & _ & Hs & _).
    apply sameParties_step; now rewrite ?Hc.
  - intros t tm id p w _ _. pose proof (expire_footprint t id p w) as F.
    cbv zeta in F. destruct F as (_ & _ & Hc & _ & _ & _ & _ & Hs & _).
    apply sameParties_step; now rewrite ?Hc.
  - intros t tm w _ _. apply sameParties_step; reflexivity.
  - intros w. apply sameParties_step; reflexivity.
  - intros ms w. apply sameParties_step; reflexivity.
  - intros sender senderConn id w. apply sameParties_step; reflexivity.
  - intros r selfId data w. pose proof (onSignal_footprint r selfId data w) as F.
    cbv zeta in F. destruct F as (_ & _ & Hc & _ & _ & _ & Hs & _).
    apply sameParties_step; now rewrite ?Hc.
Qed.

Lemma sameParties_success (w0 w : World) :
  sameParties w0 w -> sameParties w0 (handlePeerSuccess w).
Proof.
  rewrite handlePeerSuccess_eq, stopTimeout_eq.
  apply sameParties_step; reflexivity.
Qed.

(** Whatever the environment does to a fresh Connection, its swarm
    identity, remote peer and attempt id stay what they were, every
    transport instance ever created carries that remote peer and that
    attempt id, and every ping and signal message handed to the relay is
    addressed to that remote peer and carries that attempt id; only a
    pong goes elsewhere, back to whoever sent the ping. *)
Theorem run_addressed (inputs : list Input) (now : Z) (sw : Swarm)
    (peer conn : string) :
  let w := run inputs (freshWorld now sw (newConnection peer conn)) in
  swarm w = sw /\ peerId (connection w) = peer /\
  connId (connection w) = conn /\
  (forall (r : nat) (p : Peer),
     heap w !! r = Some p -> peer_peerId p = peer /\ peer_connId p = conn) /\
  Forall (fun entry =>
            match snd entry with
            | MsgPong _ _ => True
            | MsgSignal yourConnId _ _ | MsgPing yourConnId _ =>
                fst entry = peer /\ yourConnId = conn
            end)
    (outbox w).
Proof.
  cbv zeta. set (w0 := freshWorld now sw (newConnection peer conn)).
  assert (Hs : sameParties w0 (run inputs w0)).
  { apply (closed_run _ _ (sameParties_closed w0) (sameParties_success w0)).
    repeat split. }
  assert (Ha : addressed (run inputs w0)).
  { apply (closed_run _ _ addressed_closed addressed_success).
    split; [intros r p Hp; cbn in Hp; discriminate | constructor]. }
  destruct Hs as (H1 & H2 & H3). destruct Ha as [Hh Ho].
  split; [exact H1|]. split; [exact H2|]. split; [exact H3|].
  split.
  { intros r p Hp. destruct (Hh r p Hp) as [E1 E2].
    split; [rewrite E1; exact H2 | rewrite E2; exact H3]. }
  eapply Forall_impl; [exact Ho|]. intros e. unfold toRemote.
  now rewrite H2, H3.
Qed.

(** ** The failure window stays open until a success *)

Lemma failingSince_quiet (t : Z) (w w' : World) :
  lastFailure (connection w') = lastFailure (connection w) ->
  failingSince t w -> failingSince t w'.
Proof. intros Hc. unfold failingSince. now rewrite Hc. Qed.

Lemma failingSince_closed (t : Z) : Closed (failingSince t) (failingSince t).
Proof.
  constructor.
  - auto.
  - intros c w. apply failingSince_quiet; reflexivity.
  - intros w. rewrite stopTimeout_eq. apply failingSince_quiet; reflexivity.
  - intros w [Ht H]. split; [exact Ht|]. cbn. rewrite H.
    now rewrite (or_num_set t _ Ht).
  - intros w. apply failingSince_quiet; reflexivity.
  - intros w. rewrite deathPing_eq. apply failingSince_quiet; reflexivity.
  - intros delay message w [Ht H]. split; [exact Ht|].
    rewrite timeoutPeer_lastFailure, H. now rewrite (or_num_set t _ Ht).
  - intros w. apply failingSince_quiet; reflexivity.
  - intros w. pose proof (retire_frame (pc (connection w)) w) as R.
    cbv zeta in R. destruct R as (Rc & _).
    apply failingSince_quiet; now rewrite Rc.
  - intros i w _. pose proof (createPeer_footprint i w) as F. cbv zeta in F.
    destruct F as (_ & _ & _ & _ & _ & _ & _ & _ & _ & _ & Hc & _).
    apply failingSince_quiet; now rewrite Hc.
  - intros r f w _. apply failingSince_quiet; reflexivity.
  - intros id w. pose proof (handlePong_footprint id w) as F.
    cbv zeta in F. destruct F as (_ & _ & Hc & _).
    apply failingSince_quiet; now rewrite Hc.
  - intros t0 tm id p w _ _. pose proof (expire_footprint t0 id p w) as F.
    cbv zeta in F. destruct F as (_ & _ & Hc & _).
    apply failingSince_quiet; now rewrite Hc.
  - intros t0 tm w _ _. apply failingSince_quiet; reflexivity.
  - intros w. apply failingSince_quiet; reflexivity.
  - intros ms w. apply failingSince_quiet; reflexivity.
  - intros sender senderConn id w. apply failingSince_quiet; reflexivity.
  - intros r selfId data w. pose proof (onSignal_footprint r selfId data w) as F.
    cbv zeta in F. destruct F as (_ & _ & Hc & _).
    apply failingSince_quiet; now rewrite Hc.
Qed.

(** A failure window that is open stays open, with the same start,
    through every input that is not a reported success: retries, signals,
    probes, timers, closes and stream changes never restart the clock of
    the 20000 ms test. *)
Theorem window_survives (inputs : list Input) (w : World) (t : Z) :
  t <> 0 ->
  lastFailure (connection w) = Some t ->
  forallb (fun i => negb (reportsSuccess i)) inputs = true ->
  lastFailure (connection (run inputs w)) = Some t.
Proof.
  intros Ht H Hq.
  assert (G : failingSince t (run inputs w)); [|apply G].
  revert w H Hq. induction inputs as [|i rest IH]; intros w H Hq;
    [now split|].
  cbn [forallb] in Hq. apply andb_true_iff in Hq as [Hi Hrest].
  apply negb_true_iff in Hi. cbn [run].
  destruct (closed_react_quiet _ _ (failingSince_closed t) i w Hi) as [_ E];
    [now split|].
  now apply IH.
Qed.

Lemma window_survives_witness :
  let inputs := [Elapse 3000; PeerClose 0%nat; Signal (signalFrom "a0" false);
                 Elapse 3000; TimerDue 1%nat] in
  lastFailure (connection (connectPeer worldB)) = Some 1000 /\
  lastFailure (connection (run inputs (connectPeer worldB))) = Some 1000.
Proof.
  intros inputs.
  assert (H : lastFailure (connection (connectPeer worldB)) = Some 1000)
    by reflexivity.
  split; [exact H|].
  apply (window_survives inputs (connectPeer worldB) 1000);
    [discriminate | exact H | reflexivity].
Defined.

(** ** The registry of probes *)

Lemma probesTracked_quiet (w w' : World) :
  timers w' = timers w -> nextTimer w' = nextTimer w ->
  timeout (connection w') = timeout (connection w) ->
  pings w' = pings w -> pingCount w' = pingCount w ->
  promises w' = promises w ->
  probesTracked w -> probesTracked w'.
Proof.
  intros Ht Hn Hc Hp Hk Hr [[H1 H1'] H2 H3 H4 H5].
  constructor; unfold handlesBelow, probePair in *;
    rewrite ?Ht, ?Hn, ?Hc, ?Hp, ?Hk, ?Hr; auto.
Qed.

(** Pairs only ever disappear when timers and registry entries do. *)
Lemma probePair_mono (w w' : World) (id p : nat) :
  (forall i q, pings w' !! i = Some q -> pings w !! i = Some q) ->
  (forall t tm, timers w' !! t = Some tm -> timers w !! t = Some tm) ->
  probePair w' id p -> probePair w id p.
Proof.
  intros Hp Ht [H | (t & due & H)]; [left; auto | right; eauto].
Qed.

Lemma probesTracked_shrink (w w' : World) :
  (forall i q, pings w' !! i = Some q -> pings w !! i = Some q) ->
  (forall t tm, timers w' !! t = Some tm -> timers w !! t = Some tm) ->
  nextTimer w' = nextTimer w -> pingCount w' = pingCount w ->
  length (promises w') = length (promises w) ->
  timeout (connection w') = timeout (connection w)
    \/ timeout (connection w') = None ->
  (forall id p, pings w' !! id = Some p ->
     (exists pr, promises w' !! p = Some pr /\ settled pr = None
                 /\ reactions pr = [DeathPingThen])
     /\ exists t due,
          timers w' !! t = Some {| fireAt := due; action := PingExpired id p |}) ->
  probesTracked w -> probesTracked w'.
Proof.
  intros Hp Ht Hn Hk Hl Hc H5' [[H1 H1'] H2 H3 H4 H5].
  constructor.
  - split.
    + intros t tm H. rewrite Hn. eauto.
    + intros t H. rewrite Hn. destruct Hc as [Hc|Hc]; rewrite Hc in H;
        [auto | discriminate].
  - intros t tm H Htm. destruct Hc as [Hc|Hc]; rewrite Hc in H;
      [eauto | discriminate].
  - intros id p H. rewrite Hk, Hl. apply H3.
    now apply (probePair_mono w w').
  - intros id p id' p' Ha Hb.
    apply H4; now apply (probePair_mono w w').
  - exact H5'.
Qed.

Lemma probesTracked_stopTimeout (w : World) :
  probesTracked w -> probesTracked (stopTimeout w).
Proof.
  intros H. rewrite stopTimeout_eq.
  assert (Hsub : forall t tm, withoutDeadline w !! t = Some tm ->
                              timers w !! t = Some tm).
  { intros t tm. unfold withoutDeadline.
    destruct (timeout (connection w)); [|auto].
    intros Ht. now apply lookup_delete_Some in Ht as [_ Ht]. }
  apply (probesTracked_shrink w); try reflexivity; auto.
  intros id p Hp. destruct (pt_pending w H id p Hp) as [Hpr (t & due & Ht)].
  split; [exact Hpr|]. exists t, due. cbn [timers set_timers].
  unfold withoutDeadline.
  destruct (timeout (connection w)) as [t0|] eqn:E; [|exact Ht].
  rewrite lookup_delete_ne; [exact Ht|]. intros ->.
  pose proof (pt_own w H t _ E Ht) as Ha. discriminate.
Qed.

Lemma probesTracked_delete (t : nat) (tm : Timer) (w : World) :
  timers w !! t = Some tm -> action tm = DeadlineFired ->
  probesTracked w ->
  probesTracked (set_timers (delete t (timers w)) (nextTimer w) w).
Proof.
  intros Ht Ha H.
  apply (probesTracked_shrink w); try reflexivity; auto.
  - intros t0 tm0 H0. cbn in H0. now apply lookup_delete_Some in H0 as [_ H0].
  - intros id p Hp. destruct (pt_pending w H id p Hp) as [Hpr (t1 & due & Ht1)].
    split; [exact Hpr|]. exists t1, due. cbn [timers set_timers].
    rewrite lookup_delete_ne; [exact Ht1|]. intros ->.
    rewrite Ht in Ht1. injection Ht1 as ->. discriminate.
Qed.

Lemma probesTracked_timeoutPeer (delay : Z) (message : option string)
    (w : World) :
  probesTracked w -> probesTracked (timeoutPeer delay message w).
Proof.
  intros H. pose proof (stopTimeout_eq w) as _.
  pose proof (timeoutPeer_frame delay message w) as F. cbv zeta in F.
  destruct F as (_ & _ & _ & _ & _ & _ & _ & _ & _ & _ & Hr & Hn).
  assert (Hpk : pings (timeoutPeer delay message w) = pings w
                /\ pingCount (timeoutPeer delay message w) = pingCount w).
  { unfold timeoutPeer, setTimeout. cbn.
    destruct (JS.truthy_str message), (timeout (connection w)); split; reflexivity. }
  destruct Hpk as [Hp Hk].
  destruct H as [[H1 H1'] H2 H3 H4 H5].
  assert (Hold : forall t tm, withoutDeadline w !! t = Some tm ->
                              timers w !! t = Some tm /\ (t < nextTimer w)%nat).
  { intros t tm. unfold withoutDeadline.
    destruct (timeout (connection w)).
    - intros Ht. apply lookup_delete_Some in Ht as [_ Ht]. eauto.
    - eauto. }
  assert (Hpair : forall id p, probePair (timeoutPeer delay message w) id p ->
                               probePair w id p).
  { intros id p [Hx | (t & due & Hx)]; [left; now rewrite Hp in Hx|].
    right. rewrite timeoutPeer_timers in Hx.
    destruct (decide (t = nextTimer w)) as [->|Hne].
    - rewrite lookup_insert_eq in Hx. discriminate.
    - rewrite lookup_insert_ne in Hx by congruence.
      apply Hold in Hx as [Hx _]. eauto. }
  constructor.
  - split.
    + intros t tm. rewrite timeoutPeer_timers, Hn.
      destruct (decide (t = nextTimer w)) as [->|Hne]; [lia|].
      rewrite lookup_insert_ne by congruence. intros Hx.
      apply Hold in Hx as [_ Hx]. lia.
    + intros t. rewrite timeoutPeer_timeout, Hn. intros [= <-]. lia.
  - intros t tm. rewrite timeoutPeer_timeout, timeoutPeer_timers.
    intros [= <-]. rewrite lookup_insert_eq. now intros [= <-].
  - intros id p Hx. rewrite Hk, Hr. now apply H3, Hpair.
  - intros id p id' p' Ha Hb. apply H4; now apply Hpair.
  - intros id p. rewrite Hp, Hr. intros Hx.
    destruct (H5 id p Hx) as [Hpr (t & due & Ht)].
    split; [exact Hpr|]. exists t, due. rewrite timeoutPeer_timers.
    rewrite lookup_insert_ne by (apply H1 in Ht; lia).
    unfold withoutDeadline.
    destruct (timeout (connection w)) as [t0|] eqn:E; [|exact Ht].
    rewrite lookup_delete_ne; [exact Ht|]. intros ->.
    pose proof (H2 t _ eq_refl Ht) as Ha. discriminate.
Qed.

Lemma probesTracked_deathPing (w : World) :
  probesTracked w -> probesTracked (deathPing w).
Proof.
  intros [[H1 H1'] H2 H3 H4 H5]. rewrite deathPing_eq.
  set (newPromise := {| start := clock w; settled := None;
                        reactions := [DeathPingThen] |}).
  set (newTimer := {| fireAt := clock w + MAX_PING_TIME;
                      action := PingExpired (pingCount w)
                                  (length (promises w)) |}).
  set (w' := {| clock := clock w; swarm := swarm w; connection := connection w;
                heap := heap w;
                timers := <[nextTimer w := newTimer]> (timers w);
                nextTimer := S (nextTimer w); pingCount := S (pingCount w);
                pings := <[pingCount w := length (promises w)]> (pings w);
                promises := promises w ++ [newPromise];
                microtasks := microtasks w;
                outbox := outbox w ++ [(peerId (connection w),
                             MsgPing (connId (connection w)) (pingCount w))];
                emitted := emitted w; calls := calls w |}).
  assert (Hpair : forall id p, probePair w' id p ->
            (id = pingCount w /\ p = length (promises w)) \/ probePair w id p).
  { intros id p [Hx | (t & due & Hx)]; cbn in Hx.
    - destruct (decide (id = pingCount w)) as [->|Hne].
      + rewrite lookup_insert_eq in Hx. injection Hx as <-. now left.
      + rewrite lookup_insert_ne in Hx by congruence. right. now left.
    - destruct (decide (t = nextTimer w)) as [->|Hne].
      + rewrite lookup_insert_eq in Hx. injection Hx as _ <- <-. now left.
      + rewrite lookup_insert_ne in Hx by congruence. right. right. eauto. }
  constructor.
  - split.
    + intros t tm. cbn [timers nextTimer w'].
      destruct (decide (t = nextTimer w)) as [->|Hne]; [lia|].
      rewrite lookup_insert_ne by congruence. intros Hx. apply H1 in Hx. lia.
    + intros t Hx. cbn in Hx. apply H1' in Hx. cbn. lia.
  - intros t tm Hc. cbn [connection w'] in Hc. cbn [timers w'].
    rewrite lookup_insert_ne by (apply H1' in Hc; lia). now apply H2.
  - intros id p Hx. cbn [pingCount promises w']. rewrite length_app. cbn [length].
    destruct (Hpair id p Hx) as [[-> ->] | Hold]; [lia|].
    apply H3 in Hold. lia.
  - intros id p id' p' Ha Hb.
    destruct (Hpair id p Ha) as [[-> ->] | Ha'];
      destruct (Hpair id' p' Hb) as [[-> ->] | Hb'].
    + tauto.
    + apply H3 in Hb'. split; intros; lia.
    + apply H3 in Ha'. split; intros; lia.
    + now apply H4.
  - intros id p Hx. cbn [pings w'] in Hx. cbn [promises timers w'].
    destruct (decide (id = pingCount w)) as [->|Hne].
    + rewrite lookup_insert_eq in Hx. injection Hx as <-. split.
      * exists newPromise. rewrite list_lookup_middle by reflexivity. auto.
      * exists (nextTimer w), (clock w + MAX_PING_TIME). apply lookup_insert_eq.
    + rewrite lookup_insert_ne in Hx by congruence.
      destruct (H5 id p Hx) as [(pr & Hpr & Hs & Hr) (t & due & Ht)]. split.
      * exists pr. rewrite lookup_app_l by (now apply lookup_lt_Some in Hpr). auto.
      * exists t, due. rewrite lookup_insert_ne by (apply H1 in Ht; lia).
        exact Ht.
Qed.

Lemma resolve_promises (p : nat) (v : option Z) (w : World) :
  promises (resolve p v w) = promises w
  \/ exists pr, promises w !! p = Some pr
                /\ promises (resolve p v w)
                   = <[p := set_settled (Some v) pr]> (promises w).
Proof.
  unfold resolve. destruct (promises w !! p) as [pr|] eqn:E; [|now left].
  destruct (settled pr); [now left|]. right. exists pr. auto.
Qed.

Lemma handlePong_promises (id : nat) (w : World) :
  promises (handlePong id w) = promises w
  \/ exists p pr v, pings w !! id = Some p /\ promises w !! p = Some pr
       /\ promises (handlePong id w) = <[p := set_settled v pr]> (promises w).
Proof.
  unfold handlePong. destruct (pings w !! id) as [p|] eqn:E; [|now left].
  destruct (promises w !! p) as [pr|] eqn:Ep; [|now left].
  cbn [promises set_pings].
  destruct (resolve_promises p (Some (clock w - start pr)) w) as [H | (pr' & H1 & H2)].
  - now left.
  - right. exists p, pr', (Some (Some (clock w - start pr))). auto.
Qed.

Lemma probesTracked_handlePong (id : nat) (w : World) :
  probesTracked w -> probesTracked (handlePong id w).
Proof.
  intros H. pose proof (handlePong_footprint id w) as F. cbv zeta in F.
  destruct F as (Ht & Hn & Hc & _ & _ & _ & _ & _ & _ & Hk & Hp).
  assert (Hl : length (promises (handlePong id w)) = length (promises w)).
  { destruct (handlePong_promises id w) as [-> | (p & pr & v & _ & _ & ->)];
      [reflexivity | apply length_insert]. }
  apply (probesTracked_shrink w); auto.
  - intros i q. rewrite Hp. intros Hx.
    now apply lookup_delete_Some in Hx as [_ Hx].
  - intros t tm. now rewrite Ht.
  - left. now rewrite Hc.
  - intros id' p'. rewrite Hp, Ht. intros Hx.
    apply lookup_delete_Some in Hx as [Hne Hx].
    destruct (pt_pending w H id' p' Hx) as [(pr' & Hpr & Hs & Hr) Htm].
    split; [|exact Htm]. exists pr'.
    destruct (handlePong_promises id w) as [-> | (p & pr & v & Hi & _ & ->)];
      [auto|].
    rewrite list_lookup_insert_ne; [auto|]. intros ->.
    apply Hne. symmetry.
    now apply (proj2 (pt_pair w H id' p' id p' (or_introl Hx) (or_introl Hi))).
Qed.

Lemma probesTracked_expire (t : nat) (tm : Timer) (id p : nat) (w : World) :
  timers w !! t = Some tm -> action tm = PingExpired id p ->
  probesTracked w ->
  probesTracked (runTimer (PingExpired id p)
                   (set_timers (delete t (timers w)) (nextTimer w) w)).
Proof.
  intros Htm Ha H. pose proof (expire_footprint t id p w) as F. cbv zeta in F.
  destruct F as (Ht & Hn & Hc & _ & _ & _ & _ & _ & _ & Hk & Hp).
  set (w1 := set_timers (delete t (timers w)) (nextTimer w) w) in *.
  assert (Hpr : promises (runTimer (PingExpired id p) w1) = promises w
                \/ exists pr, promises w !! p = Some pr
                     /\ promises (runTimer (PingExpired id p) w1)
                        = <[p := set_settled (Some None) pr]> (promises w)).
  { unfold runTimer. cbn [promises set_pings].
    apply (resolve_promises p None w1). }
  assert (Hl : length (promises (runTimer (PingExpired id p) w1))
               = length (promises w)).
  { destruct Hpr as [-> | (pr & _ & ->)]; [reflexivity | apply length_insert]. }
  assert (Hold : probePair w id p).
  { right. exists t, (fireAt tm). destruct tm as [due a]. cbn in Ha. now subst a. }
  apply (probesTracked_shrink w); auto.
  - intros i q. rewrite Hp. intros Hx.
    now apply lookup_delete_Some in Hx as [_ Hx].
  - intros t0 tm0. rewrite Ht. intros Hx.
    now apply lookup_delete_Some in Hx as [_ Hx].
  - left. now rewrite Hc.
  - intros id' p'. rewrite Hp, Ht. intros Hx.
    apply lookup_delete_Some in Hx as [Hne Hx].
    destruct (pt_pending w H id' p' Hx) as [(pr' & Hpr' & Hs & Hr) (t1 & due & Ht1)].
    split.
    + exists pr'. destruct Hpr as [-> | (pr & _ & ->)]; [auto|].
      rewrite list_lookup_insert_ne; [auto|]. intros ->.
      apply Hne. symmetry.
      now apply (proj2 (pt_pair w H id' p' id p' (or_introl Hx) Hold)).
    + exists t1, due. rewrite lookup_delete_ne; [exact Ht1|]. intros ->.
      rewrite Htm in Ht1. injection Ht1 as ->. cbn in Ha.
      injection Ha as -> _. now apply Hne.
Qed.

Lemma probesTracked_closed : Closed probesTracked probesTracked.
Proof.
  constructor.
  - auto.
  - intros c w. apply probesTracked_quiet; reflexivity.
  - apply probesTracked_stopTimeout.
  - intros w. apply probesTracked_quiet; reflexivity.
  - intros w. apply probesTracked_quiet; reflexivity.
  - apply probesTracked_deathPing.
  - apply probesTracked_timeoutPeer.
  - intros w. apply probesTracked_quiet; reflexivity.
  - intros w. pose proof (retire_frame (pc (connection w)) w) as R.
    cbv zeta in R.
    destruct R as (Rc & _ & _ & Rt & Rn & Rk & Rp & Rr & _).
    apply probesTracked_quiet; now rewrite ?Rc.
  - intros i w _. pose proof (createPeer_footprint i w) as F. cbv zeta in F.
    destruct F as (Ht & Hn & Hp & Hk & Hr & _ & _ & _ & _ & _ & Hc & _).
    apply probesTracked_quiet; now rewrite ?Hc.
  - intros r f w _. apply probesTracked_quiet; reflexivity.
  - apply probesTracked_handlePong.
  - intros t tm id p w. apply probesTracked_expire.
  - intros t tm w. apply probesTracked_delete.
  - intros w. apply probesTracked_quiet; reflexivity.
  - intros ms w. apply probesTracked_quiet; reflexivity.
  - intros sender senderConn id w. apply probesTracked_quiet; reflexivity.
  - intros r selfId data w. pose proof (onSignal_footprint r selfId data w) as F.
    cbv zeta in F.
    destruct F as (Ht & Hn & Hc & _ & _ & _ & _ & _ & Hk & Hp & Hr & _).
    apply probesTracked_quiet; now rewrite ?Hc.
Qed.

Lemma probesTracked_success (w : World) :
  probesTracked w -> probesTracked (handlePeerSuccess w).
Proof.
  intros H. rewrite handlePeerSuccess_eq. apply probesTracked_stopTimeout.
  revert H. apply probesTracked_quiet; reflexivity.
Qed.

Lemma reachable_probesTracked (inputs : list Input) (now : Z) (sw : Swarm)
    (peer conn : string) :
  probesTracked (run inputs (freshWorld now sw (newConnection peer conn))).
Proof.
  apply (closed_run _ _ probesTracked_closed probesTracked_success).
  constructor.
  - split; [intros t tm H; cbn in H; now rewrite lookup_empty in H|].
    intros t H. discriminate.
  - intros t tm H. discriminate.
  - intros id p [H | (t & due & H)]; cbn in H; now rewrite lookup_empty in H.
  - intros id p id' p' [H | (t & due & H)]; cbn in H;
      now rewrite lookup_empty in H.
  - intros id p H. cbn in H. now rewrite lookup_empty in H.
Qed.

(** Whatever the environment does to a fresh Connection, the registry
    holds exactly probes that are still unanswered: each registered id is
    below the counter, its promise is pending with the reaction of
    [deathPing] attached, and its expiry timer is still in the timer
    table; ids and promises pair one to one, so a pong or an expiry
    settles the probe it belongs to and no other. *)
Theorem run_probesTracked (inputs : list Input) (now : Z) (sw : Swarm)
    (peer conn : string) :
  probesTracked (run inputs (freshWorld now sw (newConnection peer conn))).
Proof. exact (reachable_probesTracked inputs now sw peer conn). Qed.

(** ** Signals that are delivered *)

Lemma sne_same (x : option string) : JS.sne x x = false.
Proof. destruct x as [s|]; cbn; [now rewrite String.eqb_refl | reflexivity]. Qed.


Lemma addPeerMetaData_lookup (r : nat) (data : SignalData) (q : Peer)
    (w : World) :
  heap w !! r = Some q ->
  heap (addPeerMetaData r (meta data) w) !! r
  = Some (set_peer_remoteStreamIds (metaIds data (peer_remoteStreamIds q)) q).
Proof.
  intros H. unfold addPeerMetaData, metaIds.
  destruct (meta data) as [m|].
  - unfold updPeer, set_heap. cbn [heap]. now rewrite list_lookup_alter_eq, H.
  - rewrite H. now destruct q.
Qed.

Lemma addPeerMetaData_frame (r : nat) (data : SignalData) (w : World) :
  let w' := addPeerMetaData r (meta data) w in
  connection w' = connection w /\ timers w' = timers w /\
  nextTimer w' = nextTimer w /\ outbox w' = outbox w /\
  emitted w' = emitted w /\ calls w' = calls w /\ clock w' = clock w /\
  length (heap w') = length (heap w) /\
  forall r0, r0 <> r -> heap w' !! r0 = heap w !! r0.
Proof.
  cbv zeta. unfold addPeerMetaData. destruct (meta data) as [m|].
  - unfold updPeer, set_heap. cbn [connection timers nextTimer outbox emitted
                                   calls clock heap].
    rewrite length_alter. repeat split; try reflexivity.
    intros r0 Hne. now rewrite list_lookup_alter_ne.
  - repeat split; reflexivity.
Qed.

(** The delivery itself, for an instance that passes the checks. *)
Lemma deliver_forwards (data : SignalData) (extend : bool) (r : nat)
    (q : Peer) (w : World) :
  heap w !! r = Some q -> destroyed q = false ->
  JS.truthy_str (peer_from q) = true -> peer_from q = from data ->
  deliver data extend (Some r) w
  = let w1 := updPeer r (push_signalled data)
                (addPeerMetaData r (meta data) w) in
    if extend then addToTimeout MIN_MAX_CONNECT_TIME_AFTER_SIGNAL w1 else w1.
Proof.
  intros Hq Hd Ht Hf. unfold deliver. rewrite Hq, Hd, Ht. cbn [negb].
  now rewrite Hf, sne_same.
Qed.

Lemma deliver_adopts (data : SignalData) (extend : bool) (r : nat)
    (q : Peer) (w : World) :
  heap w !! r = Some q -> destroyed q = false ->
  JS.truthy_str (peer_from q) = false ->
  deliver data extend (Some r) w
  = let w1 := updPeer r (push_signalled data)
                (addPeerMetaData r (meta data)
                   (updPeer r (set_peer_from (from data)) w)) in
    if extend then addToTimeout MIN_MAX_CONNECT_TIME_AFTER_SIGNAL w1 else w1.
Proof.
  intros Hq Hd Ht. unfold deliver. rewrite Hq, Hd, Ht. cbn [negb].
  now rewrite sne_same.
Qed.

Lemma forwarded_facts (data : SignalData) (r : nat) (q : Peer) (w : World) :
  heap w !! r = Some q ->
  let w1 := updPeer r (push_signalled data)
              (addPeerMetaData r (meta data) w) in
  heap w1 !! r
  = Some (push_signalled data
            (set_peer_remoteStreamIds
               (metaIds data (peer_remoteStreamIds q)) q)) /\
  (forall r0, r0 <> r -> heap w1 !! r0 = heap w !! r0) /\
  length (heap w1) = length (heap w) /\
  connection w1 = connection w /\ timers w1 = timers w /\
  nextTimer w1 = nextTimer w /\ outbox w1 = outbox w /\
  emitted w1 = emitted w /\ calls w1 = calls w /\ clock w1 = clock w.
Proof.
  intros Hq. cbv zeta.
  pose proof (addPeerMetaData_frame r data w) as F. cbv zeta in F.
  destruct F as (Hc & Ht & Hn & Ho & He & Hcl & Hk & Hl & Hother).
  unfold updPeer at 1 2 3 4 5 6 7 8 9 10. unfold set_heap.
  cbn [heap connection timers nextTimer outbox emitted calls clock].
  rewrite list_lookup_alter_eq, (addPeerMetaData_lookup r data q w Hq).
  rewrite length_alter.
  repeat split; try assumption.
  intros r0 Hne. rewrite list_lookup_alter_ne by congruence. now apply Hother.
Qed.



(** ** First signals on the passive side *)

Lemma receiver_world (data : SignalData) (w : World) :
  let r := length (heap w) in
  let w2 := updPeer (fst (createPeer false w)) (set_peer_from (from data))
              (snd (createPeer false w)) in
  fst (createPeer false w) = r /\
  heap w2 !! r = Some (set_peer_from (from data) (newPeer false w)) /\
  (forall r0, (r0 < r)%nat ->
     heap w2 !! r0 = heap (retire (pc (connection w)) w) !! r0) /\
  length (heap w2) = S r /\
  connection w2 = set_pc (Some r) (connection w) /\
  timers w2 = timers w /\ nextTimer w2 = nextTimer w /\
  outbox w2 = outbox w /\ emitted w2 = emitted w /\ clock w2 = clock w.
Proof.
  cbv zeta. rewrite createPeer_eq. cbn [fst].
  pose proof (createPeer_footprint false w) as F. cbv zeta in F.
  rewrite createPeer_eq in F. cbn [snd] in F.
  destruct F as (Ht & Hn & _ & _ & _ & _ & Ho & He & Hk & _ & Hc & Hh).
  pose proof (retire_frame (pc (connection w)) w) as R. cbv zeta in R.
  destruct R as (_ & _ & _ & _ & _ & _ & _ & _ & _ & _ & _ & Hl).
  cbn [snd].
  generalize dependent (updConn (set_pc (Some (length (heap w))))
    (set_heap (heap (retire (pc (connection w)) w) ++ [newPeer false w])
       (retire (pc (connection w)) w))).
  intros w1 Ht Hn Ho He Hk Hc Hh.
  unfold updPeer, set_heap.
  cbn [heap connection timers nextTimer outbox emitted clock].
  rewrite Hh, length_alter, length_app, Hl. cbn [length].
  split; [reflexivity|]. split.
  - rewrite list_lookup_alter_eq, list_lookup_middle by (now rewrite Hl).
    reflexivity.
  - split; [|repeat split; auto; lia].
    intros r0 Hlt. rewrite list_lookup_alter_ne by lia.
    apply lookup_app_l. lia.
Qed.

Lemma first_signal_receiver (data : SignalData) (w : World) :
  youStart data = false -> first data = true -> activeIn w = false ->
  let w' := handleSignal data w in
  let r := length (heap w) in
  pc (connection w') = Some r /\
  heap w' !! r
  = Some (push_signalled data
            (set_peer_remoteStreamIds (metaIds data None)
               (set_peer_from (from data) (newPeer false w)))) /\
  (forall r0, (r0 < r)%nat ->
     heap w' !! r0 = heap (retire (pc (connection w)) w) !! r0) /\
  timers w' = timers w /\
  timeout (connection w') = timeout (connection w) /\
  timeoutEnd (connection w') = timeoutEnd (connection w) /\
  lastFailure (connection w') = lastFailure (connection w) /\
  outbox w' = outbox w /\ emitted w' = emitted w.
Proof.
  intros Hy Hf Ha. cbv zeta. rewrite handleSignal_eq, Hy, Hf, Ha.
  cbn [andb negb].
  pose proof (receiver_world data w) as W. cbv zeta in W.
  destruct W as (Wr & Wq & Wold & _ & Wc & Wt & _ & Wo & We & _).
  generalize dependent (updPeer (fst (createPeer false w))
                          (set_peer_from (from data))
                          (snd (createPeer false w))).
  intros w2 Wq Wold Wc Wt Wo We. rewrite Wr.
  set (q0 := set_peer_from (from data) (newPeer false w)) in *.
  assert (Hd : destroyed q0 = false) by reflexivity.
  assert (Hfrom : peer_from q0 = from data) by reflexivity.
  destruct (JS.truthy_str (peer_from q0)) eqn:Et.
  - rewrite (deliver_forwards data false _ q0 w2 Wq Hd Et Hfrom). cbv zeta.
    pose proof (forwarded_facts data _ q0 w2 Wq) as F. cbv zeta in F.
    destruct F as (F1 & F2 & _ & Fc & Ft & _ & Fo & Fe & _).
    rewrite F1, Fc, Ft, Fo, Fe, Wc, Wt, Wo, We.
    repeat split; auto.
    intros r0 Hlt. rewrite F2 by lia. now apply Wold.
  - rewrite (deliver_adopts data false _ q0 w2 Wq Hd Et). cbv zeta.
    assert (Wq' : heap (updPeer (length (heap w)) (set_peer_from (from data)) w2)
                  !! length (heap w) = Some q0).
    { unfold updPeer, set_heap. cbn [heap].
      now rewrite list_lookup_alter_eq, Wq. }
    pose proof (forwarded_facts data _ q0 _ Wq') as F. cbv zeta in F.
    destruct F as (F1 & F2 & _ & Fc & Ft & _ & Fo & Fe & _).
    rewrite F1, Fc, Ft, Fo, Fe. cbn [updPeer set_heap connection timers outbox emitted].
    rewrite Wc, Wt, Wo, We.
    repeat split; auto.
    intros r0 Hlt. rewrite F2 by lia.
    unfold updPeer, set_heap. cbn [heap].
    rewrite list_lookup_alter_ne by lia. now apply Wold.
Qed.

(** A first signal on the side that is not active always gets a fresh
    receiver.  Whatever the Connection held before is retired, a new
    receiver is appended and stored in [pc], bound to the payload's
    [from]; the payload is the first thing fed to it and its metadata is
    applied; the deadline, the failure window and the relay are left as
    they were. *)
Theorem first_signal_creates_receiver (data : SignalData) (w : World) :
  youStart data = false -> first data = true -> activeIn w = false ->
  let w' := handleSignal data w in
  let r := length (heap w) in
  pc (connection w') = Some r /\
  heap w' !! r
  = Some (push_signalled data
            (set_peer_remoteStreamIds (metaIds data None)
               (set_peer_from (from data) (newPeer false w)))) /\
  (forall r0, (r0 < r)%nat ->
     heap w' !! r0 = heap (retire (pc (connection w)) w) !! r0) /\
  timers w' = timers w /\
  timeout (connection w') = timeout (connection w) /\
  timeoutEnd (connection w') = timeoutEnd (connection w) /\
  lastFailure (connection w') = lastFailure (connection w) /\
  outbox w' = outbox w /\ emitted w' = emitted w.
Proof. exact (first_signal_receiver data w). Qed.

Lemma first_signal_creates_receiver_witness :
  let data := signalFrom "X" true in
  activeIn worldA_receiving = false /\
  pc (connection (handleSignal data worldA_receiving)) = Some 1%nat /\
  peer_from <$> heap (handleSignal data worldA_receiving) !! 1%nat
  = Some (Some "X"%string).
Proof.
  intros data.
  pose proof (first_signal_creates_receiver data worldA_receiving
                eq_refl eq_refl eq_refl) as H.
  cbv zeta in H. destruct H as (H1 & H2 & _).
  split; [reflexivity|]. split; [exact H1|].
  exact (f_equal (fmap peer_from) H2).
Defined.

(** ** Local signals *)

Lemma onSignal_first (r : nat) (selfId : string) (d : SignalData) (p : Peer)
    (w : World) :
  heap w !! r = Some p -> didSignal p = false ->
  onSignal r selfId d w
  = broadcast (peer_peerId p)
      (MsgSignal (peer_connId p)
         (Some {| state := sharedState (swarm w);
                  time := sharedStateTime (swarm w) |})
         (outgoing p selfId true d))
      (updPeer r (set_didSignal true) w).
Proof. intros Hp Hd. unfold onSignal. now rewrite Hp, Hd. Qed.

Lemma onSignal_later (r : nat) (selfId : string) (d : SignalData) (p : Peer)
    (w : World) :
  heap w !! r = Some p -> didSignal p = true ->
  onSignal r selfId d w
  = broadcast (peer_peerId p)
      (MsgSignal (peer_connId p) None (outgoing p selfId (first d) d)) w.
Proof. intros Hp Hd. unfold onSignal. now rewrite Hp, Hd. Qed.

Lemma localSignals_later (r : nat) (selfId : string) (ds : list SignalData)
    (p : Peer) (w : World) :
  heap w !! r = Some p -> didSignal p = true ->
  outbox (localSignals r selfId ds w)
  = outbox w
    ++ map (fun d => (peer_peerId p,
                      MsgSignal (peer_connId p) None
                        (outgoing p selfId (first d) d))) ds.
Proof.
  revert w. induction ds as [|d rest IH]; intros w Hp Hd; cbn [localSignals map].
  - now rewrite app_nil_r.
  - rewrite (onSignal_later r selfId d p w Hp Hd).
    rewrite IH by assumption. cbn [outbox broadcast set_outbox].
    now rewrite <- app_assoc.
Qed.

(** The first local signal of an instance, and only the first, is marked
    [first] and carries the shared-state snapshot; every signal carries
    the instance's own identifier as [from] and the names and ids of the
    streams the instance holds. *)
Theorem first_flag_once (r : nat) (selfId : string) (d : SignalData)
    (rest : list SignalData) (p : Peer) (w : World) :
  heap w !! r = Some p -> didSignal p = false ->
  outbox (localSignals r selfId (d :: rest) w)
  = outbox w
    ++ (peer_peerId p,
        MsgSignal (peer_connId p)
          (Some {| state := sharedState (swarm w);
                   time := sharedStateTime (swarm w) |})
          (outgoing p selfId true d))
       :: map (fun d' => (peer_peerId p,
                          MsgSignal (peer_connId p) None
                            (outgoing p selfId (first d') d'))) rest.
Proof.
  intros Hp Hd. cbn [localSignals].
  rewrite (onSignal_first r selfId d p w Hp Hd).
  rewrite (localSignals_later r selfId rest (set_didSignal true p)).
  - cbn [outbox broadcast set_outbox updPeer set_heap].
    now rewrite <- app_assoc.
  - cbn [heap broadcast set_outbox updPeer set_heap].
    now rewrite list_lookup_alter_eq, Hp.
  - reflexivity.
Qed.

Lemma first_flag_once_witness :
  let w := connectPeer worldB in
  let offer := signalFrom "" false in
  heap w !! 0%nat = Some (newPeer true (armed worldB)) /\
  map (fun entry => match snd entry with
                    | MsgSignal _ stamp data => (first data, stamp)
                    | _ => (false, None)
                    end)
      (skipn 1 (outbox (localSignals 0 "b0" [offer; offer; offer] w)))
  = [(true, Some {| state := "room"; time := 7 |});
     (false, None); (false, None)].
Proof.
  intros w offer.
  assert (Hp : heap w !! 0%nat = Some (newPeer true (armed worldB)))
    by (vm_compute; reflexivity).
  split; [exact Hp|].
  rewrite (first_flag_once 0 "b0" offer [offer; offer] _ w Hp eq_refl).
  vm_compute. reflexivity.
Defined.

(** ** Remote streams *)

Lemma findIndex_Some {A : Type} (test : A -> bool) (l : list A) (i : nat) :
  findIndex test l = Some i ->
  (exists x, l !! i = Some x /\ test x = true)
  /\ forall j y, (j < i)%nat -> l !! j = Some y -> test y = false.
Proof.
  revert i. induction l as [|x rest IH]; intros i; cbn [findIndex];
    [discriminate|].
  destruct (test x) eqn:Ex.
  - intros [= <-]. split; [exists x; auto | intros j y Hj; lia].
  - destruct (findIndex test rest) as [k|]; [|discriminate].
    intros [= <-]. destruct (IH k eq_refl) as [Hx Hbefore]. split; [exact Hx|].
    intros [|j] y Hj Hy; cbn in Hy.
    + now injection Hy as <-.
    + apply (Hbefore j); [lia | exact Hy].
Qed.

Lemma findIndex_None {A : Type} (test : A -> bool) (l : list A) :
  findIndex test l = None -> forall j y, l !! j = Some y -> test y = false.
Proof.
  induction l as [|x rest IH]; cbn [findIndex]; [intros _ j y; discriminate|].
  destruct (test x) eqn:Ex; [discriminate|].
  destruct (findIndex test rest); [discriminate|].
  intros _ [|j] y Hy; cbn in Hy; [now injection Hy as <- | eauto].
Qed.

Lemma findIndex_first {A : Type} (test : A -> bool) (l : list A) (i : nat)
    (x : A) :
  l !! i = Some x -> test x = true ->
  (forall j y, (j < i)%nat -> l !! j = Some y -> test y = false) ->
  findIndex test l = Some i.
Proof.
  revert i. induction l as [|h rest IH]; intros i Hi Hx Hbefore;
    [discriminate|].
  cbn [findIndex]. destruct i as [|i]; cbn in Hi.
  - injection Hi as ->. now rewrite Hx.
  - rewrite (Hbefore 0%nat h) by (lia || reflexivity).
    rewrite (IH i Hi Hx); [reflexivity|].
    intros j y Hj Hy. apply (Hbefore (S j)); [lia | exact Hy].
Qed.

Lemma sameSlot_key (peerId0 : string) (name : option string) (o : StreamObj) :
  sameSlot peerId0 name o = true <-> slotKey o = (peerId0, name).
Proof.
  unfold sameSlot, slotKey, JS.sne. split.
  - intros H. apply andb_true_iff in H as [H1 H2].
    apply String.eqb_eq in H1. apply negb_true_iff in H2.
    destruct (so_name o) as [a|], name as [b|]; try discriminate;
      [|now rewrite H1].
    apply negb_false_iff, String.eqb_eq in H2. now rewrite H1, H2.
  - intros [= -> <-]. rewrite String.eqb_refl.
    destruct (so_name o); cbn; [now rewrite String.eqb_refl | reflexivity].
Qed.

(** [onTrack] in terms of the slot it writes. *)
Lemma onTrack_eq (r : nat) (stream : string) (p : Peer) (w : World)
    (rs : list StreamObj) :
  heap w !! r = Some p ->
  onTrack r stream w rs
  = let obj := {| so_stream := stream; so_name := trackName p stream;
                  so_peerId := peer_peerId p |} in
    match findIndex (sameSlot (peer_peerId p) (trackName p stream)) rs with
    | Some i => <[i := obj]> rs
    | None => rs ++ [obj]
    end.
Proof. intros Hp. unfold onTrack. now rewrite Hp. Qed.

Lemma onTrack_keys (r : nat) (stream : string) (p : Peer) (w : World)
    (rs : list StreamObj) :
  heap w !! r = Some p ->
  map slotKey (onTrack r stream w rs)
  = match findIndex (sameSlot (peer_peerId p) (trackName p stream)) rs with
    | Some _ => map slotKey rs
    | None => map slotKey rs ++ [(peer_peerId p, trackName p stream)]
    end.
Proof.
  intros Hp. rewrite (onTrack_eq r stream p w rs Hp). cbv zeta.
  destruct (findIndex _ rs) as [i|] eqn:E.
  - destruct (findIndex_Some _ _ _ E) as [(x & Hx & Hsame) _].
    apply sameSlot_key in Hsame.
    change (map slotKey) with (fmap (M := list) slotKey).
    rewrite list_fmap_insert. apply list_insert_id.
    rewrite list_lookup_fmap, Hx. cbn. now rewrite Hsame.
  - now rewrite map_app.
Qed.

(** [swarm.remoteStreams] keeps one entry per remote peer and stream
    name: if no two entries share a slot before a track arrives, none do
    after, and the array grows only when the slot is new. *)
Theorem onTrack_one_per_slot (r : nat) (stream : string) (p : Peer)
    (w : World) (rs : list StreamObj) :
  heap w !! r = Some p ->
  NoDup (map slotKey rs) ->
  NoDup (map slotKey (onTrack r stream w rs))
  /\ length (onTrack r stream w rs)
     = (if decide ((peer_peerId p, trackName p stream) ∈ map slotKey rs)
        then length rs else S (length rs)).
Proof.
  intros Hp Hnd. split.
  - rewrite (onTrack_keys r stream p w rs Hp).
    destruct (findIndex _ rs) as [i|] eqn:E; [exact Hnd|].
    apply NoDup_app. split; [exact Hnd|]. split; [|apply NoDup_singleton].
    intros k Hk Hin. apply list_elem_of_singleton in Hin. subst k.
    apply list_elem_of_fmap in Hk as (o & Hkey & Ho).
    apply list_elem_of_lookup in Ho as [j Hj].
    pose proof (findIndex_None _ _ E j o Hj) as Hfalse.
    assert (Htrue : sameSlot (peer_peerId p) (trackName p stream) o = true)
      by (apply sameSlot_key; congruence).
    congruence.
  - rewrite (onTrack_eq r stream p w rs Hp). cbv zeta.
    destruct (findIndex _ rs) as [i|] eqn:E.
    + destruct (findIndex_Some _ _ _ E) as [(x & Hx & Hsame) _].
      rewrite length_insert.
      destruct (decide _) as [|Hnot]; [reflexivity|]. exfalso. apply Hnot.
      apply list_elem_of_fmap. exists x. split;
        [symmetry; now apply sameSlot_key | eapply list_elem_of_lookup_2, Hx].
    + rewrite length_app. cbn [length].
      destruct (decide _) as [Hin|]; [|lia]. exfalso.
      apply list_elem_of_fmap in Hin as (o & Hkey & Ho).
      apply list_elem_of_lookup in Ho as [j Hj].
      pose proof (findIndex_None _ _ E j o Hj) as Hfalse.
      assert (Htrue : sameSlot (peer_peerId p) (trackName p stream) o = true)
        by (apply sameSlot_key; congruence).
      congruence.
Qed.

Lemma onTrack_one_per_slot_witness :
  let rs := [{| so_stream := "old"; so_name := Some "audio"%string;
                so_peerId := "b" |};
             {| so_stream := "s9"; so_name := Some "audio"%string;
                so_peerId := "c" |}] in
  NoDup (map slotKey rs) /\
  length (onTrack 0 "s1" worldA_receiving rs) = 2%nat /\
  length (onTrack 0 "s2" worldA_receiving rs) = 3%nat.
Proof.
  intros rs.
  assert (Hp : heap worldA_receiving !! 0%nat
               = Some (push_signalled (signalFrom "Y" true)
                         (set_peer_remoteStreamIds
                            (metaIds (signalFrom "Y" true) None)
                            (set_peer_from (Some "Y"%string)
                               (newPeer false worldA)))))
    by (vm_compute; reflexivity).
  assert (Hnd : NoDup (map slotKey rs))
    by (apply (bool_decide_unpack _); vm_compute; exact I).
  split; [exact Hnd|]. split.
  - rewrite (proj2 (onTrack_one_per_slot 0 "s1" _ worldA_receiving rs Hp Hnd)).
    vm_compute. reflexivity.
  - rewrite (proj2 (onTrack_one_per_slot 0 "s2" _ worldA_receiving rs Hp Hnd)).
    vm_compute. reflexivity.
Defined.

Lemma findIndex_insert_same {A : Type} (test : A -> bool) (l : list A)
    (i : nat) (x : A) :
  findIndex test l = Some i -> test x = true ->
  findIndex test (<[i := x]> l) = Some i.
Proof.
  intros E Hx. destruct (findIndex_Some _ _ _ E) as [(y & Hy & _) Hbefore].
  apply (findIndex_first test _ i x).
  - apply list_lookup_insert_eq. eapply lookup_lt_Some, Hy.
  - exact Hx.
  - intros j z Hj Hz. rewrite list_lookup_insert_ne in Hz by lia.
    now apply (Hbefore j).
Qed.

Lemma findIndex_app_new {A : Type} (test : A -> bool) (l : list A) (x : A) :
  findIndex test l = None -> test x = true ->
  findIndex test (l ++ [x]) = Some (length l).
Proof.
  intros E Hx. apply (findIndex_first test _ _ x).
  - now apply list_lookup_middle.
  - exact Hx.
  - intros j z Hj Hz. rewrite lookup_app_l in Hz by exact Hj.
    now apply (findIndex_None _ _ E j).
Qed.

(** A second track of the same remote stream name overwrites the entry
    the first one left: the tracks of one stream, which all raise
    [track] with that stream, leave one entry, and a stream that replaces
    another under the same name takes its place. *)
Theorem onTrack_overwrites (r : nat) (s1 s2 : string) (p : Peer) (w : World)
    (rs : list StreamObj) :
  heap w !! r = Some p ->
  trackName p s1 = trackName p s2 ->
  onTrack r s2 w (onTrack r s1 w rs) = onTrack r s2 w rs.
Proof.
  intros Hp Hname.
  rewrite (onTrack_eq r s2 p w (onTrack r s1 w rs) Hp).
  rewrite (onTrack_eq r s1 p w rs Hp), (onTrack_eq r s2 p w rs Hp).
  cbv zeta. rewrite <- Hname.
  set (test := sameSlot (peer_peerId p) (trackName p s1)).
  set (obj1 := {| so_stream := s1; so_name := trackName p s1;
                  so_peerId := peer_peerId p |}).
  assert (H1 : test obj1 = true) by (now apply sameSlot_key).
  destruct (findIndex test rs) as [i|] eqn:E.
  - rewrite (findIndex_insert_same test rs i obj1 E H1).
    apply list_insert_insert_eq.
  - rewrite (findIndex_app_new test rs obj1 E H1).
    rewrite insert_app_r_alt by lia. now rewrite Nat.sub_diag.
Qed.

Lemma onTrack_overwrites_witness :
  let rs := [{| so_stream := "old"; so_name := Some "audio"%string;
                so_peerId := "c" |}] in
  onTrack 0 "s1" worldA_receiving (onTrack 0 "s1" worldA_receiving rs)
  = rs ++ [{| so_stream := "s1"; so_name := Some "audio"%string;
              so_peerId := "b" |}].
Proof.
  intros rs.
  assert (Hp : heap worldA_receiving !! 0%nat
               = Some (push_signalled (signalFrom "Y" true)
                         (set_peer_remoteStreamIds
                            (metaIds (signalFrom "Y" true) None)
                            (set_peer_from (Some "Y"%string)
                               (newPeer false worldA)))))
    by (vm_compute; reflexivity).
  rewrite (onTrack_overwrites 0 "s1" "s1" _ worldA_receiving rs Hp eq_refl).
  vm_compute. reflexivity.
Defined.

(** ** Stream names across the two pages *)

Lemma advertised_elem (obj : list (string * option string))
    (name id : string) :
  (name, id) ∈ advertised obj <-> (name, Some id) ∈ obj.
Proof.
  induction obj as [|[k [s|]] rest IH]; cbn [advertised].
  - split; intros H; inversion H.
  - rewrite !elem_of_cons, IH. split; (intros [H|H]; [left|now right]);
      congruence.
  - rewrite elem_of_cons, IH. split; [now right|].
    intros [H|H]; [discriminate | exact H].
Qed.

Lemma find_advertised (obj : list (string * option string))
    (name id : string) :
  NoDup (map snd (advertised obj)) ->
  (name, Some id) ∈ obj ->
  find (fun entry => String.eqb (snd entry) id) (advertised obj)
  = Some (name, id).
Proof.
  induction obj as [|[k [s|]] rest IH]; cbn [advertised map snd find];
    intros Hnd Hin.
  - inversion Hin.
  - apply NoDup_cons in Hnd as [Hfresh Hnd].
    apply elem_of_cons in Hin as [Heq|Hin].
    + injection Heq as -> ->. now rewrite String.eqb_refl.
    + destruct (String.eqb_spec s id) as [->|_]; [|now apply IH].
      exfalso. apply Hfresh. apply list_elem_of_fmap.
      exists (name, id). split; [reflexivity | now apply advertised_elem].
  - apply elem_of_cons in Hin as [Heq|Hin]; [discriminate | now apply IH].
Qed.

(** The name a page gives a stream reaches the other page with the
    stream.  The first local signal of an instance that holds [id] under
    [name] goes out with that pair; the page that receives it as a first
    signal on the passive side stores the pairs in its new receiver, and a
    track of the stream [id] arriving there is filed under [name] and the
    sender's peer id. *)
Theorem stream_names_travel (rs : nat) (p : Peer) (selfId : string)
    (d : SignalData) (sender w : World) (name id : string) :
  heap sender !! rs = Some p -> didSignal p = false ->
  youStart d = false -> activeIn w = false ->
  NoDup (map snd (advertised (streams p))) ->
  (name, Some id) ∈ streams p ->
  exists (stamp : option StateStamp) (sent : SignalData),
    outbox (onSignal rs selfId d sender)
    = outbox sender ++ [(peer_peerId p, MsgSignal (peer_connId p) stamp sent)]
    /\ let w' := handleSignal sent w in
       pc (connection w') = Some (length (heap w)) /\
       peer_from <$> heap w' !! length (heap w) = Some (Some selfId) /\
       onTrack (length (heap w)) id w' []
       = [{| so_stream := id; so_name := Some name;
             so_peerId := peerId (connection w) |}].
Proof.
  intros Hp Hd Hy Ha Hnd Hin.
  exists (Some {| state := sharedState (swarm sender);
                  time := sharedStateTime (swarm sender) |}),
         (outgoing p selfId true d).
  split.
  - now rewrite (onSignal_first rs selfId d p sender Hp Hd).
  - pose proof (first_signal_receiver (outgoing p selfId true d) w Hy eq_refl Ha)
      as R.
    cbv zeta in R |- *. destruct R as (Rpc & Rq & _).
    split; [exact Rpc|]. split; [now rewrite Rq|].
    rewrite (onTrack_eq _ id _ _ [] Rq). cbv zeta.
    unfold trackName.
    cbn [peer_remoteStreamIds push_signalled set_peer_remoteStreamIds
         set_peer_from metaIds meta outgoing remoteStreamIds peer_peerId
         newPeer findIndex app].
    now rewrite (find_advertised (streams p) name id Hnd Hin).
Qed.

Lemma stream_names_travel_witness :
  let sender := connectPeer worldB in
  let offer := {| youStart := false; first := false; from := None;
                  meta := None; type := "offer"; payload := "sdp" |} in
  activeIn worldA = false /\
  exists (stamp : option StateStamp) (sent : SignalData),
    outbox (onSignal 0 "b0" offer sender)
    = outbox sender ++ [("a"%string, MsgSignal "2" stamp sent)]
    /\ onTrack 0 "mic" (handleSignal sent worldA) []
       = [{| so_stream := "mic"; so_name := Some "audio"%string;
             so_peerId := "b" |}].
Proof.
  intros sender offer.
  assert (Hp : heap sender !! 0%nat = Some (newPeer true (armed worldB)))
    by (vm_compute; reflexivity).
  assert (Hnd : NoDup (map snd (advertised
                                  (streams (newPeer true (armed worldB))))))
    by (apply (bool_decide_unpack _); vm_compute; exact I).
  assert (Hin : ("audio"%string, Some "mic"%string)
                ∈ streams (newPeer true (armed worldB)))
    by (apply (bool_decide_unpack _); vm_compute; exact I).
  split; [reflexivity|].
  destruct (stream_names_travel 0 _ "b0" offer sender worldA "audio" "mic"
              Hp eq_refl eq_refl eq_refl Hnd Hin)
    as (stamp & sent & Hout & Hrest).
  cbv zeta in Hrest. destruct Hrest as (_ & _ & Htrack).
  exists stamp, sent. split; [exact Hout | exact Htrack].
Defined.

(** ** Local streams *)

Lemma lookup_assign_same (name : string) (v : option string)
    (obj : list (string * option string)) :
  lookupStream name (assignStream name v obj) = Some v.
Proof.
  induction obj as [|[k old] rest IH]; cbn [assignStream lookupStream].
  - now rewrite String.eqb_refl.
  - destruct (String.eqb k name) eqn:E; cbn [lookupStream]; now rewrite E.
Qed.

Lemma lookup_assign_other (name other : string) (v : option string)
    (obj : list (string * option string)) :
  other <> name ->
  lookupStream other (assignStream name v obj) = lookupStream other obj.
Proof.
  intros Hne. induction obj as [|[k old] rest IH];
    cbn [assignStream lookupStream].
  - destruct (String.eqb_spec name other); [congruence | reflexivity].
  - destruct (String.eqb_spec k name) as [->|Hk]; cbn [lookupStream].
    + destruct (String.eqb_spec name other); [congruence | reflexivity].
    + now rewrite IH.
Qed.

Lemma assign_assign (name : string) (v1 v2 : option string)
    (obj : list (string * option string)) :
  assignStream name v2 (assignStream name v1 obj) = assignStream name v2 obj.
Proof.
  induction obj as [|[k old] rest IH]; cbn [assignStream].
  - now rewrite String.eqb_refl.
  - destruct (String.eqb k name) eqn:E; cbn [assignStream]; rewrite E;
      [reflexivity | now rewrite IH].
Qed.

Lemma assign_keys (name : string) (v : option string)
    (obj : list (string * option string)) :
  NoDup (map fst obj) -> NoDup (map fst (assignStream name v obj)).
Proof.
  induction obj as [|[k old] rest IH]; cbn [assignStream map fst]; intros Hnd.
  - apply NoDup_singleton.
  - destruct (String.eqb_spec k name) as [->|Hk]; [exact Hnd|].
    cbn [map fst]. apply NoDup_cons in Hnd as [Hfresh Hnd].
    apply NoDup_cons. split; [|now apply IH].
    intros Hin. apply Hfresh. clear IH Hfresh Hnd.
    induction rest as [|[k' old'] rest IH]; cbn [assignStream map fst] in *.
    + apply list_elem_of_singleton in Hin. congruence.
    + destruct (String.eqb_spec k' name) as [->|Hk']; [exact Hin|].
      cbn [map fst] in Hin. apply elem_of_cons in Hin as [->|Hin];
        [now left | right; now apply IH].
Qed.

Lemma advertised_without (name : string)
    (obj : list (string * option string)) (n i : string) :
  NoDup (map fst obj) ->
  (n, i) ∈ advertised (assignStream name None obj)
  <-> (n, i) ∈ advertised obj /\ n <> name.
Proof.
  induction obj as [|[k old] rest IH]; cbn [assignStream map fst]; intros Hnd.
  - cbn [advertised]. split; [intros H; inversion H | intros [H _]; inversion H].
  - apply NoDup_cons in Hnd as [Hfresh Hnd].
    destruct (String.eqb_spec k name) as [->|Hk].
    + change (advertised ((name, None) :: rest)) with (advertised rest).
      assert (Hrest : (n, i) ∈ advertised rest -> n <> name).
      { intros Hin -> . apply Hfresh. apply advertised_elem in Hin.
        apply list_elem_of_fmap. now exists (name, Some i). }
      destruct old as [s|]; cbn [advertised].
      * rewrite elem_of_cons. split; [intros H; split; auto|].
        intros [[H|H] Hn]; [congruence | exact H].
      * split; [intros H; split; auto | now intros [H _]].
    + destruct old as [s|]; cbn [advertised].
      * rewrite !elem_of_cons, (IH Hnd). split.
        -- intros [H|[H Hn]]; [|split; auto].
           injection H as -> ->. split; [now left | exact Hk].
        -- intros [[H|H] Hn]; [now left | right; split; auto].
      * apply (IH Hnd).
Qed.

Lemma updPeer_lookup (r : nat) (f : Peer -> Peer) (p : Peer) (w : World) :
  heap w !! r = Some p -> heap (updPeer r f w) !! r = Some (f p).
Proof.
  intros Hp. unfold updPeer, set_heap. cbn [heap].
  now rewrite list_lookup_alter_eq, Hp.
Qed.

Lemma updPeer_fixed (r : nat) (f : Peer -> Peer) (p : Peer) (w : World) :
  heap w !! r = Some p -> f p = p -> updPeer r f w = w.
Proof.
  intros Hp Hf. unfold updPeer, set_heap.
  assert (Hh : alter f r (heap w) = heap w).
  { apply list_eq. intros i. destruct (decide (i = r)) as [->|Hne].
    - rewrite list_lookup_alter_eq, Hp. cbn. now rewrite Hf.
    - now rewrite list_lookup_alter_ne by congruence. }
  rewrite Hh. now destruct w.
Qed.

(** [addStreamToPeer] on a live instance, once the old stream under the
    name is known. *)
Lemma addStreamToPeer_live (stream : option string) (name : string)
    (outcome : AddOutcome) (r : nat) (p : Peer) (w : World) :
  pc (connection w) = Some r -> heap w !! r = Some p -> destroyed p = false ->
  addStreamToPeer stream name outcome w
  = let oldStream := match lookupStream name (streams p) with
                     | Some (Some old) => Some old
                     | _ => None
                     end in
    if match oldStream, stream with
       | Some old, Some s => String.eqb old s
       | _, _ => false
       end
    then (Returns, [], w)
    else
      let removed := match oldStream with
                     | Some old => [RemoveStream r old]
                     | None => []
                     end in
      let w1 := updPeer r (fun q => set_streams
                                      (assignStream name stream (streams q)) q)
                  w in
      match stream with
      | None => (Returns, removed, w1)
      | Some s =>
          match outcome with
          | AddOk => (Returns, removed ++ [AddStream r s], w1)
          | AddThrows withCode =>
              (if withCode then Throws else Returns,
               removed ++ [AddStream r s],
               updPeer r (fun q => set_streams
                                     (assignStream name None (streams q)) q)
                 w1)
          end
      end.
Proof. intros Hc Hp Hd. unfold addStreamToPeer. now rewrite Hc, Hp, Hd. Qed.

(** Calling [addStreamToPeer] again with the stream it has just added,
    or cleared, makes no call on the transport and changes nothing:
    a listener that fires twice is harmless. *)
Theorem addStreamToPeer_twice (stream : option string) (name : string)
    (outcome : AddOutcome) (w : World) :
  let w1 := snd (addStreamToPeer stream name AddOk w) in
  addStreamToPeer stream name outcome w1 = (Returns, [], w1).
Proof.
  cbv zeta.
  destruct (pc (connection w)) as [r|] eqn:Hc;
    [|unfold addStreamToPeer; rewrite Hc; cbn [snd]; now rewrite Hc].
  destruct (heap w !! r) as [p|] eqn:Hp;
    [|unfold addStreamToPeer; rewrite Hc, Hp; cbn [snd]; now rewrite Hc, Hp].
  destruct (destroyed p) eqn:Hd;
    [unfold addStreamToPeer; rewrite Hc, Hp, Hd; cbn [snd];
     now rewrite Hc, Hp, Hd|].
  rewrite (addStreamToPeer_live stream name AddOk r p w Hc Hp Hd). cbv zeta.
  destruct (match match lookupStream name (streams p) with
                  | Some (Some old) => Some old
                  | _ => None
                  end, stream with
            | Some old, Some s => String.eqb old s
            | _, _ => false
            end) eqn:Hsame.
  - cbn [snd]. rewrite (addStreamToPeer_live stream name outcome r p w Hc Hp Hd).
    cbv zeta. now rewrite Hsame.
  - set (f := fun q => set_streams (assignStream name stream (streams q)) q).
    assert (Hw : snd (match stream with
                      | Some s =>
                          (Returns,
                           match match lookupStream name (streams p) with
                                 | Some (Some old) => Some old
                                 | _ => None
                                 end with
                           | Some old => [RemoveStream r old]
                           | None => []
                           end ++ [AddStream r s], updPeer r f w)
                      | None =>
                          (Returns,
                           match match lookupStream name (streams p) with
                                 | Some (Some old) => Some old
                                 | _ => None
                                 end with
                           | Some old => [RemoveStream r old]
                           | None => []
                           end, updPeer r f w)
                      end) = updPeer r f w) by (now destruct stream).
    rewrite Hw. clear Hw.
    pose proof (updPeer_lookup r f p w Hp) as Hp1.
    rewrite (addStreamToPeer_live stream name outcome r (f p) (updPeer r f w)
               Hc Hp1 Hd).
    cbv zeta.
    assert (Hs1 : streams (f p) = assignStream name stream (streams p))
      by reflexivity.
    rewrite Hs1, lookup_assign_same.
    destruct stream as [s|]; [now rewrite String.eqb_refl|].
    f_equal. apply (updPeer_fixed r _ (f p)); [exact Hp1|].
    unfold f. cbn [streams set_streams]. now rewrite assign_assign.
Qed.

(** When the transport refuses a stream, the name is left holding
    [null]: the call throws exactly when the error has a code, the name
    is no longer announced in the instance's signals while the other
    names are, and a later call with the same stream is not taken for a
    repetition but asks the transport again. *)
Theorem failed_add_leaves_null (s name : string) (withCode : bool) (r : nat)
    (p : Peer) (w : World) :
  pc (connection w) = Some r -> heap w !! r = Some p -> destroyed p = false ->
  lookupStream name (streams p) <> Some (Some s) ->
  NoDup (map fst (streams p)) ->
  let res := addStreamToPeer (Some s) name (AddThrows withCode) w in
  fst (fst res) = (if withCode then Throws else Returns) /\
  (exists p' : Peer,
     heap (snd res) !! r = Some p' /\
     lookupStream name (streams p') = Some None /\
     (forall other : string,
        other <> name ->
        lookupStream other (streams p') = lookupStream other (streams p)) /\
     forall n i : string,
       (n, i) ∈ advertised (streams p')
       <-> (n, i) ∈ advertised (streams p) /\ n <> name) /\
  snd (fst (addStreamToPeer (Some s) name AddOk (snd res))) = [AddStream r s].
Proof.
  intros Hc Hp Hd Hnew Hnd. cbv zeta.
  rewrite (addStreamToPeer_live (Some s) name (AddThrows withCode) r p w
             Hc Hp Hd).
  cbv zeta.
  assert (Hsame : match match lookupStream name (streams p) with
                        | Some (Some old) => Some old
                        | _ => None
                        end with
                  | Some old => String.eqb old s
                  | None => false
                  end = false).
  { destruct (lookupStream name (streams p)) as [[old|]|]; try reflexivity.
    destruct (String.eqb_spec old s) as [->|]; [now elim Hnew | reflexivity]. }
  rewrite Hsame. cbn [fst snd].
  set (f := fun q => set_streams (assignStream name (Some s) (streams q)) q).
  set (g := fun q => set_streams (assignStream name None (streams q)) q).
  pose proof (updPeer_lookup r g (f p) _ (updPeer_lookup r f p w Hp)) as Hp2.
  assert (Hs2 : streams (g (f p)) = assignStream name None (streams p))
    by (unfold f, g; cbn [streams set_streams]; apply assign_assign).
  split; [reflexivity|]. split.
  - exists (g (f p)). split; [exact Hp2|]. rewrite Hs2.
    split; [apply lookup_assign_same|].
    split; [intros other Hne; now apply lookup_assign_other|].
    intros n i. now apply advertised_without.
  - rewrite (addStreamToPeer_live (Some s) name AddOk r (g (f p))
               (updPeer r g (updPeer r f w)) Hc Hp2 Hd).
    cbv zeta. rewrite Hs2, lookup_assign_same. reflexivity.
Qed.

Lemma failed_add_leaves_null_witness :
  let w := connectPeer worldB in
  let res := addStreamToPeer (Some "cam"%string) "audio" (AddThrows true) w in
  pc (connection w) = Some 0%nat /\
  fst (fst res) = Throws /\
  snd (fst res) = [RemoveStream 0 "mic"; AddStream 0 "cam"] /\
  snd (fst (addStreamToPeer (Some "cam"%string) "audio" AddOk (snd res)))
  = [AddStream 0 "cam"].
Proof.
  intros w res.
  assert (Hc : pc (connection w) = Some 0%nat) by (vm_compute; reflexivity).
  assert (Hp : heap w !! 0%nat = Some (newPeer true (armed worldB)))
    by (vm_compute; reflexivity).
  assert (Hnew : lookupStream "audio" (streams (newPeer true (armed worldB)))
                 <> Some (Some "cam"%string))
    by (vm_compute; intros [=]).
  assert (Hnd : NoDup (map fst (streams (newPeer true (armed worldB)))))
    by (apply (bool_decide_unpack _); vm_compute; exact I).
  pose proof (failed_add_leaves_null "cam" "audio" true 0 _ w
                Hc Hp eq_refl Hnew Hnd) as H.
  cbv zeta in H. destruct H as (H1 & _ & H3).
  split; [exact Hc|]. split; [exact H1|]. split; [|exact H3].
  vm_compute. reflexivity.
Defined.

(** ** Probes in reachable worlds *)

Lemma react_queue_empty (i : Input) (w : World) :
  microtasks w = [] -> microtasks (react i w) = [].
Proof.
  intros H. destruct i; cbn [react]; try apply drain_empties_queue;
    exact H.
Qed.

Lemma run_queue_empty (inputs : list Input) (w : World) :
  microtasks w = [] -> microtasks (run inputs w) = [].
Proof.
  revert w. induction inputs as [|i rest IH]; intros w H; [exact H|].
  cbn [run]. now apply IH, react_queue_empty.
Qed.

(** A pong for a registered probe, in any world a fresh Connection can
    reach: the probe's promise is pending, the pong settles it with the
    time since the ping and unregisters it, and the turn ends there
    unless that time is 0 ms, in which case the reaction of [deathPing]
    runs the forced failure. *)
Theorem probe_answered (inputs : list Input) (now : Z) (sw : Swarm)
    (peer conn : string) (id p : nat) :
  let w := run inputs (freshWorld now sw (newConnection peer conn)) in
  pings w !! id = Some p ->
  exists pr : Promise,
    promises w !! p = Some pr /\ settled pr = None /\
    let rtt := clock w - start pr in
    let w1 := set_pings (delete id (pings w)) (pingCount w)
                (set_promises
                   (<[p := set_settled (Some (Some rtt)) pr]> (promises w))
                   w) in
    react (Pong id) w = if rtt =? 0 then handlePeerFail true w1 else w1.
Proof.
  cbv zeta. intros Hi.
  pose proof (reachable_probesTracked inputs now sw peer conn) as T.
  pose proof (run_queue_empty inputs
                (freshWorld now sw (newConnection peer conn)) eq_refl) as Q.
  generalize dependent (run inputs (freshWorld now sw (newConnection peer conn))).
  intros w Hi T Q.
  destruct (pt_pending w T id p Hi) as [(pr & Hp & Hs & Hr) _].
  exists pr. split; [exact Hp|]. split; [exact Hs|].
  exact (pong_turn id p pr w Q Hi Hp Hs Hr).
Qed.

Lemma probe_answered_witness :
  let w := run [CallConnectPeer; Elapse 40]
             (freshWorld 1000 (swarmOf "b" "1") (newConnection "a" "2")) in
  pings w !! 0%nat = Some 0%nat /\
  exists pr : Promise,
    promises w !! 0%nat = Some pr /\
    emitted (react (Pong 0) w)
    = if clock w - start pr =? 0 then [FailedConnection] else [].
Proof.
  cbv zeta.
  assert (Hi : pings (run [CallConnectPeer; Elapse 40]
                        (freshWorld 1000 (swarmOf "b" "1")
                           (newConnection "a" "2"))) !! 0%nat
               = Some 0%nat) by (vm_compute; reflexivity).
  split; [exact Hi|].
  destruct (probe_answered [CallConnectPeer; Elapse 40] 1000 (swarmOf "b" "1")
              "a" "2" 0 0 Hi) as (pr & Hp & Hs & Hturn).
  exists pr. split; [exact Hp|].
  cbv zeta in Hturn. rewrite Hturn.
  destruct (_ =? 0); [|vm_compute; reflexivity].
  rewrite handlePeerFail_emitted. vm_compute. reflexivity.
Defined.

(** An unanswered probe fails the attempt when it expires, in any world
    a fresh Connection can reach: the turn of its expiry timer runs the
    forced failure, so 'failedConnection' is emitted without a retry,
    whatever the failure window says. *)
Theorem probe_expired (inputs : list Input) (now : Z) (sw : Swarm)
    (peer conn : string) (id p t : nat) (due : Z) :
  let w := run inputs (freshWorld now sw (newConnection peer conn)) in
  pings w !! id = Some p ->
  timers w !! t = Some {| fireAt := due; action := PingExpired id p |} ->
  due <= clock w ->
  emitted (react (TimerDue t) w) = emitted w ++ [FailedConnection] /\
  calls (react (TimerDue t) w) = calls w ++ [CallFail true].
Proof.
  cbv zeta. intros Hi Ht Hdue.
  pose proof (reachable_probesTracked inputs now sw peer conn) as T.
  pose proof (run_queue_empty inputs
                (freshWorld now sw (newConnection peer conn)) eq_refl) as Q.
  generalize dependent (run inputs (freshWorld now sw (newConnection peer conn))).
  intros w Hi Ht Hdue T Q.
  destruct (pt_pending w T id p Hi) as [(pr & Hp & Hs & Hr) _].
  cbn [react].
  rewrite (expiry_turn t id p due pr w Q Ht Hdue Hp Hs Hr).
  rewrite handlePeerFail_forced.
  pose proof (failing_frame true
    (set_pings (delete id (pings w)) (pingCount w)
       (set_promises (<[p := set_settled (Some None) pr]> (promises w))
          (set_timers (delete t (timers w)) (nextTimer w) w)))) as F.
  cbv zeta in F. destruct F as (_ & _ & _ & Fe & Fc & _).
  generalize dependent (failing true
    (set_pings (delete id (pings w)) (pingCount w)
       (set_promises (<[p := set_settled (Some None) pr]> (promises w))
          (set_timers (delete t (timers w)) (nextTimer w) w)))).
  intros w1 Fe Fc. unfold emit, set_emitted. cbn [emitted calls].
  rewrite Fe, Fc. split; reflexivity.
Qed.

Lemma probe_expired_witness :
  let w := run [CallConnectPeer; Elapse 5000]
             (freshWorld 1000 (swarmOf "b" "1") (newConnection "a" "2")) in
  pings w !! 0%nat = Some 0%nat /\
  timers w !! 1%nat = Some {| fireAt := 6000; action := PingExpired 0 0 |} /\
  clock w = 6000 /\
  emitted (react (TimerDue 1) w) = [FailedConnection].
Proof.
  cbv zeta.
  assert (Hi : pings (run [CallConnectPeer; Elapse 5000]
                        (freshWorld 1000 (swarmOf "b" "1")
                           (newConnection "a" "2"))) !! 0%nat
               = Some 0%nat) by (vm_compute; reflexivity).
  assert (Ht : timers (run [CallConnectPeer; Elapse 5000]
                         (freshWorld 1000 (swarmOf "b" "1")
                            (newConnection "a" "2"))) !! 1%nat
               = Some {| fireAt := 6000; action := PingExpired 0 0 |})
    by (vm_compute; reflexivity).
  assert (Hdue : 6000 <= clock (run [CallConnectPeer; Elapse 5000]
                                  (freshWorld 1000 (swarmOf "b" "1")
                                     (newConnection "a" "2"))))
    by (vm_compute; intros [=]).
  split; [exact Hi|]. split; [exact Ht|]. split; [vm_compute; reflexivity|].
  rewrite (proj1 (probe_expired [CallConnectPeer; Elapse 5000] 1000
                    (swarmOf "b" "1") "a" "2" 0 0 1 6000 Hi Ht Hdue)).
  vm_compute. reflexivity.
Defined.

Lemma settled_probe_expiry (id p t : nat) (due ms : Z) (pr : Promise)
    (w : World) :
  microtasks w = [] ->
  pings w !! id = Some p ->
  promises w !! p = Some pr ->
  settled pr = None -> reactions pr = [DeathPingThen] ->
  clock w <> start pr ->
  timers w !! t = Some {| fireAt := due; action := PingExpired id p |} ->
  due <= clock w + ms ->
  let w2 := run [Pong id; Elapse ms; TimerDue t] w in
  emitted w2 = emitted w /\ calls w2 = calls w /\
  connection w2 = connection w /\ heap w2 = heap w /\
  outbox w2 = outbox w /\
  timers w2 = delete t (timers w) /\ pings w2 !! id = None.
Proof.
  intros Q Hi Hp Hs Hr Hne Ht Hdue. cbv zeta. cbn [run react].
  rewrite (pong_turn id p pr w Q Hi Hp Hs Hr). cbv zeta.
  destruct (Z.eqb_spec (clock w - start pr) 0) as [|_]; [lia|].
  set (w1 := set_pings (delete id (pings w)) (pingCount w)
               (set_promises
                  (<[p := set_settled (Some (Some (clock w - start pr))) pr]>
                     (promises w)) w)).
  assert (Hp1 : promises (advance ms w1) !! p
                = Some (set_settled (Some (Some (clock w - start pr))) pr)).
  { unfold w1, advance, set_clock, set_pings, set_promises. cbn [promises].
    apply list_lookup_insert_eq. eapply lookup_lt_Some, Hp. }
  rewrite (expiry_after_pong t id p due _ (Some (clock w - start pr))
             (advance ms w1) Q Ht Hdue Hp1 eq_refl).
  repeat (split; [reflexivity|]).
  exact (lookup_delete_eq (pings w1) id).
Qed.

(** Once a probe has been answered with a round trip that is not 0 ms,
    its expiry timer is harmless: when it fires later it leaves the
    table and nothing else happens; no failure is reported, and the
    Connection, the instances and the relay are as the pong found
    them. *)
Theorem answered_probe_expiry_harmless (inputs : list Input) (now : Z)
    (sw : Swarm) (peer conn : string) (id p t : nat) (due ms : Z)
    (pr : Promise) :
  let w := run inputs (freshWorld now sw (newConnection peer conn)) in
  pings w !! id = Some p ->
  promises w !! p = Some pr ->
  clock w <> start pr ->
  timers w !! t = Some {| fireAt := due; action := PingExpired id p |} ->
  due <= clock w + ms ->
  let w2 := run [Pong id; Elapse ms; TimerDue t] w in
  emitted w2 = emitted w /\ calls w2 = calls w /\
  connection w2 = connection w /\ heap w2 = heap w /\
  outbox w2 = outbox w /\
  timers w2 = delete t (timers w) /\ pings w2 !! id = None.
Proof.
  cbv zeta. intros Hi Hp Hne Ht Hdue.
  pose proof (reachable_probesTracked inputs now sw peer conn) as T.
  pose proof (run_queue_empty inputs
                (freshWorld now sw (newConnection peer conn)) eq_refl) as Q.
  generalize dependent (run inputs (freshWorld now sw (newConnection peer conn))).
  intros w Hi Hp Hne Ht Hdue T Q.
  destruct (pt_pending w T id p Hi) as [(pr' & Hp' & Hs & Hr) _].
  assert (pr' = pr) by congruence. subst pr'.
  exact (settled_probe_expiry id p t due ms pr w Q Hi Hp Hs Hr Hne Ht Hdue).
Qed.

Lemma answered_probe_expiry_harmless_witness :
  let w := run [CallConnectPeer; Elapse 40]
             (freshWorld 1000 (swarmOf "b" "1") (newConnection "a" "2")) in
  let w2 := run [Pong 0; Elapse 4960; TimerDue 1] w in
  pings w !! 0%nat = Some 0%nat /\
  timers w !! 1%nat = Some {| fireAt := 6000; action := PingExpired 0 0 |} /\
  clock w2 = 6000 /\
  emitted w2 = [] /\ calls w2 = [] /\ timers w2 !! 1%nat = None.
Proof.
  cbv zeta.
  assert (Hi : pings (run [CallConnectPeer; Elapse 40]
                        (freshWorld 1000 (swarmOf "b" "1")
                           (newConnection "a" "2"))) !! 0%nat
               = Some 0%nat) by (vm_compute; reflexivity).
  assert (Hp : promises (run [CallConnectPeer; Elapse 40]
                           (freshWorld 1000 (swarmOf "b" "1")
                              (newConnection "a" "2"))) !! 0%nat
               = Some {| start := 1000; settled := None;
                         reactions := [DeathPingThen] |})
    by (vm_compute; reflexivity).
  assert (Ht : timers (run [CallConnectPeer; Elapse 40]
                         (freshWorld 1000 (swarmOf "b" "1")
                            (newConnection "a" "2"))) !! 1%nat
               = Some {| fireAt := 6000; action := PingExpired 0 0 |})
    by (vm_compute; reflexivity).
  pose proof (answered_probe_expiry_harmless [CallConnectPeer; Elapse 40] 1000
                (swarmOf "b" "1") "a" "2" 0 0 1 6000 4960 _ Hi Hp
                ltac:(vm_compute; intros [=]) Ht
                ltac:(vm_compute; intros [=])) as H.
  cbv zeta in H. destruct H as (He & Hc & _ & _ & _ & Hd & _).
  split; [exact Hi|]. split; [exact Ht|]. split; [vm_compute; reflexivity|].
  split; [rewrite He; vm_compute; reflexivity|].
  split; [rewrite Hc; vm_compute; reflexivity|].
  rewrite Hd. apply lookup_delete_eq.
Defined.

(** ** Retired instances *)

Lemma retiredAt_quiet (r : nat) (w w' : World) :
  heap w' = heap w -> retiredAt r w -> retiredAt r w'.
Proof. intros Hh H. unfold retiredAt. now rewrite Hh. Qed.

Lemma retiredAt_updPeer (r r0 : nat) (f : Peer -> Peer) (w : World) :
  keepsIdentity f -> retiredAt r w -> retiredAt r (updPeer r0 f w).
Proof.
  intros Hf (p & Hp & Hg). unfold retiredAt, updPeer, set_heap. cbn [heap].
  destruct (decide (r0 = r)) as [->|Hne].
  - exists (f p). rewrite list_lookup_alter_eq, Hp. split; [reflexivity|].
    destruct (Hf p) as (_ & Hg' & _). now rewrite Hg'.
  - exists p. now rewrite list_lookup_alter_ne by exact Hne.
Qed.

Lemma retiredAt_retire (r : nat) (old : option nat) (w : World) :
  retiredAt r w -> retiredAt r (retire old w).
Proof.
  intros (p & Hp & Hg). unfold retiredAt. rewrite retire_heap.
  destruct old as [r0|]; [|now exists p].
  destruct (decide (r0 = r)) as [->|Hne].
  - exists (set_destroyed true (set_garbage true p)).
    rewrite !list_lookup_alter_eq, Hp. split; reflexivity.
  - exists p. now rewrite !list_lookup_alter_ne by exact Hne.
Qed.

Lemma retiredAt_createPeer (r : nat) (i : bool) (w : World) :
  retiredAt r w -> retiredAt r (snd (createPeer i w)).
Proof.
  intros H. pose proof (createPeer_footprint i w) as F. cbv zeta in F.
  destruct F as (_ & _ & _ & _ & _ & _ & _ & _ & _ & _ & _ & Hh).
  destruct (retiredAt_retire r (pc (connection w)) w H) as (p & Hp & Hg).
  exists p. rewrite Hh. split; [|exact Hg].
  now apply lookup_app_l_Some.
Qed.

Lemma retiredAt_closed (r : nat) : Closed (retiredAt r) (retiredAt r).
Proof.
  constructor.
  - auto.
  - intros c w. apply retiredAt_quiet; reflexivity.
  - intros w. rewrite stopTimeout_eq. apply retiredAt_quiet; reflexivity.
  - intros w. apply retiredAt_quiet; reflexivity.
  - intros w. apply retiredAt_quiet; reflexivity.
  - intros w. rewrite deathPing_eq. apply retiredAt_quiet; reflexivity.
  - intros delay message w.
    pose proof (timeoutPeer_frame delay message w) as F. cbv zeta in F.
    destruct F as (_ & _ & Hh & _). now apply retiredAt_quiet.
  - intros w. apply retiredAt_quiet; reflexivity.
  - intros w. apply retiredAt_retire.
  - intros i w _. apply retiredAt_createPeer.
  - intros r0 f w. apply retiredAt_updPeer.
  - intros id w. pose proof (handlePong_footprint id w) as F.
    cbv zeta in F. destruct F as (_ & _ & _ & Hh & _).
    now apply retiredAt_quiet.
  - intros t tm id p w _ _. pose proof (expire_footprint t id p w) as F.
    cbv zeta in F. destruct F as (_ & _ & _ & Hh & _).
    now apply retiredAt_quiet.
  - intros t tm w _ _. apply retiredAt_quiet; reflexivity.
  - intros w. apply retiredAt_quiet; reflexivity.
  - intros ms w. apply retiredAt_quiet; reflexivity.
  - intros sender senderConn id w. apply retiredAt_quiet; reflexivity.
  - intros r0 selfId data w H. unfold onSignal.
    destruct (heap w !! r0) as [p|]; [|exact H].
    destruct (didSignal p).
    + revert H. apply retiredAt_quiet; reflexivity.
    + apply (retiredAt_quiet r (updPeer r0 (set_didSignal true) w));
        [reflexivity|].
      apply retiredAt_updPeer; [apply keeps_set_didSignal | exact H].
Qed.

Lemma retiredAt_success (r : nat) (w : World) :
  retiredAt r w -> retiredAt r (handlePeerSuccess w).
Proof.
  rewrite handlePeerSuccess_eq, stopTimeout_eq.
  apply retiredAt_quiet; reflexivity.
Qed.

Lemma drain_idle (w : World) : microtasks w = [] -> drain w = w.
Proof.
  intros Q. unfold drain. rewrite Q. cbn [runJobs].
  destruct w. cbn in Q. subst. reflexivity.
Qed.

(** An instance that was marked garbage stays garbage, and its [close]
    and [error] events are ignored for good: whatever happens in
    between, a turn for either event leaves the world as it was, so a
    teardown the module did itself is never counted as a failure. *)
Theorem retired_stays_silent (inputs : list Input) (r : nat) (p : Peer)
    (w : World) :
  microtasks w = [] ->
  heap w !! r = Some p -> garbage p = true ->
  let w' := run inputs w in
  (exists p' : Peer, heap w' !! r = Some p' /\ garbage p' = true) /\
  react (PeerClose r) w' = w' /\ react (PeerError r) w' = w'.
Proof.
  intros Q Hp Hg. cbv zeta.
  assert (H : retiredAt r (run inputs w)).
  { apply (closed_run _ _ (retiredAt_closed r) (retiredAt_success r)).
    now exists p. }
  pose proof (run_queue_empty inputs w Q) as Q'.
  generalize dependent (run inputs w). intros w' H Q'.
  split; [exact H|]. destruct H as (p' & Hp' & Hg').
  cbn [react]. unfold turn, onClose, onError, peerGarbage.
  rewrite Hp', Hg'. split; now apply drain_idle.
Qed.

Lemma retired_stays_silent_witness :
  let inputs := [Elapse 100; Signal (signalFrom "a0" true); PeerConnect 0;
                 Elapse 6000; TimerDue 2] in
  peerGarbage 0 worldB_retried = true /\
  react (PeerClose 0) (run inputs worldB_retried) = run inputs worldB_retried.
Proof.
  intros inputs.
  assert (Hp : heap worldB_retried !! 0%nat
               = Some (set_destroyed true
                         (set_garbage true (newPeer true (armed worldB)))))
    by (vm_compute; reflexivity).
  split; [vm_compute; reflexivity|].
  exact (proj1 (proj2 (retired_stays_silent inputs 0 _ worldB_retried
                         eq_refl Hp eq_refl))).
Defined.

(** ** After a reported success *)

Lemma run_app (xs ys : list Input) (w : World) :
  run (xs ++ ys) w = run ys (run xs w).
Proof.
  revert w. induction xs as [|x rest IH]; intros w; [reflexivity|].
  cbn [app run]. apply IH.
Qed.

Lemma success_turn (i : Input) (w : World) :
  reportsSuccess i = true -> microtasks w = [] ->
  exists w0 : World, react i w = handlePeerSuccess w0.
Proof.
  intros Hi Q. destruct i; try discriminate; cbn [react]; unfold turn.
  - exists w. unfold onConnect. apply drain_idle.
    rewrite handlePeerSuccess_eq, stopTimeout_eq. exact Q.
  - cbn [reportsSuccess] in Hi. unfold onIceStateChange. rewrite Hi.
    eexists. apply drain_idle. rewrite handlePeerSuccess_eq, stopTimeout_eq.
    cbn [microtasks set_timers set_connection updConn record set_calls].
    destruct (String.eqb state0 "disconnected"); [|exact Q].
    pose proof (timeoutPeer_frame MAX_CONNECT_TIME_AFTER_ICE_DISCONNECT
                  (Some "peer timed out after ice disconnect"%string)
                  (deathPing w)) as F.
    cbv zeta in F. destruct F as (_ & _ & _ & _ & _ & _ & _ & _ & _ & Fm & _).
    rewrite Fm, deathPing_eq. exact Q.
Qed.

(** A reported success disarms the attempt for good.  At the end of the
    turn of a [connect] event, or of an ICE state 'connected' or
    'completed', in any world a fresh Connection can reach, the failure
    window is closed, the Connection holds no deadline, and no deadline
    timer is left in the timer table: the only timers that can still
    fire are probe expiries. *)
Theorem success_disarms (inputs : list Input) (i : Input) (now : Z)
    (sw : Swarm) (peer conn : string) :
  reportsSuccess i = true ->
  let w := run (inputs ++ [i]) (freshWorld now sw (newConnection peer conn)) in
  lastFailure (connection w) = None /\
  timeout (connection w) = None /\
  timeoutEnd (connection w) = Some 0 /\
  forall (t : nat) (tm : Timer),
    timers w !! t = Some tm ->
    exists id p : nat, action tm = PingExpired id p.
Proof.
  intros Hi. cbv zeta.
  pose proof (closed_run _ _ oneDeadline_closed oneDeadline_success
                (inputs ++ [i])
                (freshWorld now sw (newConnection peer conn))) as D.
  rewrite run_app in D |- *. cbn [run] in D |- *.
  pose proof (run_queue_empty inputs
                (freshWorld now sw (newConnection peer conn)) eq_refl) as Q.
  generalize dependent (run inputs (freshWorld now sw (newConnection peer conn))).
  intros w0 D Q.
  destruct (success_turn i w0 Hi Q) as [w1 E]. rewrite E in D |- *.
  assert (D' : oneDeadline (handlePeerSuccess w1)).
  { apply D. intros t tm Ht. cbn in Ht. now rewrite lookup_empty in Ht. }
  clear D E.
  assert (Hc : connection (handlePeerSuccess w1)
               = {| peerId := peerId (connection w1);
                    connId := connId (connection w1);
                    lastFailure := None; pc := pc (connection w1);
                    timeout := None; timeoutEnd := Some 0;
                    timeoutMessage := Some ""%string |})
    by (rewrite handlePeerSuccess_eq, stopTimeout_eq; reflexivity).
  generalize dependent (handlePeerSuccess w1). intros w D' Hc.
  rewrite Hc. cbn [lastFailure timeout timeoutEnd].
  repeat (split; [reflexivity|]).
  intros t tm Ht. destruct (action tm) as [|id p] eqn:Ea; [|now exists id, p].
  specialize (D' t tm Ht Ea). rewrite Hc in D'. discriminate.
Qed.

Lemma success_disarms_witness :
  let w := run ([CallConnectPeer; Elapse 300] ++ [PeerConnect 0])
             (freshWorld 1000 (swarmOf "b" "1") (newConnection "a" "2")) in
  lastFailure (connection w) = None /\ timeout (connection w) = None /\
  timers w !! 1%nat = Some {| fireAt := 6000; action := PingExpired 0 0 |} /\
  timers w !! 2%nat = None.
Proof.
  cbv zeta.
  destruct (success_disarms [CallConnectPeer; Elapse 300] (PeerConnect 0) 1000
              (swarmOf "b" "1") "a" "2" eq_refl) as (H1 & H2 & _).
  split; [exact H1|]. split; [exact H2|].
  split; vm_compute; reflexivity.
Defined.
